(** * Admission and ordering engine of the aggregator ([TxService])

    A shallow embedding of [TxService] (its [add], [LowestAcceptableNonce],
    [tryMoveFutureTxs], [ensureFutureTxSpace], [replaceReadyTx] and
    [isRewardBetter] methods) over a model of the two [TxTable] pools, and
    the properties of the admission algorithm stated over that embedding.

    Conventions.
    - [ethers.BigNumber] values and JavaScript integers are [Z].
    - An [async] method is a function from the two pools to an [Outcome]:
      it returns a value, throws (a rejected promise), or is still running
      when the loop budget is used up.  Table calls take effect in the order
      in which the source issues them.
    - [do ... while] and [while (true)] loops take a budget of iterations. *)

From Stdlib Require Import ZArith List String Bool Lia Permutation Sorted.
From Stdlib Require Import DecimalString.
Import ListNotations.
Open Scope Z_scope.

(** ** Records held by the pools *)

(** [TransactionData]: [txId] is the optional serial a pool assigns,
    [pubKey] the account, [tokenRewardAmount] the reward as the number
    [ethers.BigNumber.from] reads from it; [payload] stands for the
    remaining fields (signature and call data), which the engine only
    copies. *)
Record TransactionData : Type := mkTx {
  txId : option Z;
  pubKey : string;
  nonce : Z;
  tokenRewardAmount : Z;
  payload : string
}.

(** [{ ...tx }; delete copy.txId] *)
Definition withoutId (tx : TransactionData) : TransactionData :=
  mkTx None (pubKey tx) (nonce tx) (tokenRewardAmount tx) (payload tx).

Definition withId (i : Z) (tx : TransactionData) : TransactionData :=
  mkTx (Some i) (pubKey tx) (nonce tx) (tokenRewardAmount tx) (payload tx).

(** [tx.txId!] *)
Definition idOf (tx : TransactionData) : Z :=
  match txId tx with Some i => i | None => 0 end.

Definition hasKey (pk : string) (n : Z) (r : TransactionData) : bool :=
  (pubKey r =? pk)%string && (nonce r =? n).

Definition sameKey (a b : TransactionData) : bool :=
  hasKey (pubKey a) (nonce a) b.

(** ** The ordered pool *)

Module TxTable.

(** Modelled from the spec: the class [TxTable] (file [TxTable.ts]) is not
    part of the sources at hand; section 4.1 of the specification gives the
    contract the engine relies on.  A table is the list of its rows in
    insertion order together with the next serial id. *)
Record t : Type := mk {
  rows : list TransactionData;
  serial : Z
}.

(** Modelled from the spec: a fresh pool is empty; serial ids start at 1. *)
Definition empty : t := mk [] 1.

(** Modelled from the spec: [find(account, nonce)] is the record stored for
    that pair, or absent. *)
Definition find (tb : t) (pk : string) (n : Z) : option TransactionData :=
  List.find (hasKey pk n) (rows tb).

(** Modelled from the spec: inserting one record assigns the next serial id
    and fails with [DuplicateKey] ([None]) when the (account, nonce) pair is
    already stored. *)
Definition insert (tb : t) (tx : TransactionData) : option t :=
  match find tb (pubKey tx) (nonce tx) with
  | Some _ => None
  | None => Some (mk (rows tb ++ [withId (serial tb) tx]) (serial tb + 1))
  end.

(** Modelled from the spec: [add(record...)] inserts the records in order,
    as one statement: a duplicate key fails the whole call, and a call with
    no record changes nothing. *)
Fixpoint add (tb : t) (txs : list TransactionData) : option t :=
  match txs with
  | [] => Some tb
  | tx :: rest =>
      match insert tb tx with
      | None => None
      | Some tb' => add tb' rest
      end
  end.

(** Modelled from the spec: [remove(record...)] deletes the given records by
    identity (account and nonce). *)
Definition remove (tb : t) (txs : list TransactionData) : t :=
  mk (filter (fun r => negb (existsb (sameKey r) txs)) (rows tb)) (serial tb).

(** Modelled from the spec: the ascending nonce order of the two queries
    below, as an insertion sort. *)
Fixpoint insertByNonce (tx : TransactionData) (l : list TransactionData)
  : list TransactionData :=
  match l with
  | [] => [tx]
  | h :: rest =>
      if nonce tx <=? nonce h then tx :: l else h :: insertByNonce tx rest
  end.

Definition inNonceOrder (l : list TransactionData) : list TransactionData :=
  fold_right insertByNonce [] l.

(** Modelled from the spec: [pubKeyTxsInNonceOrder(account, limit)] is the
    ascending sequence of the account's records, bounded by [limit]. *)
Definition pubKeyTxsInNonceOrder (tb : t) (pk : string) (limit : nat)
  : list TransactionData :=
  firstn limit
    (inNonceOrder (filter (fun r => (pubKey r =? pk)%string) (rows tb))).

(** Modelled from the spec: [findAfter(account, nonce, limit)] is the
    ascending sequence of the account's records with a nonce above the given
    one, bounded by [limit]. *)
Definition findAfter (tb : t) (pk : string) (n : Z) (limit : nat)
  : list TransactionData :=
  firstn limit
    (inNonceOrder
       (filter (fun r => (pubKey r =? pk)%string && (n <? nonce r)) (rows tb))).

(** Modelled from the spec: [nextNonceOf(account)] is the highest stored
    nonce plus one, or absent if the account has no records. *)
Definition nextNonceOf (tb : t) (pk : string) : option Z :=
  match filter (fun r => (pubKey r =? pk)%string) (rows tb) with
  | [] => None
  | r :: rest => Some (fold_left Z.max (map nonce rest) (nonce r) + 1)
  end.

(** Modelled from the spec: [count()] is the number of records. *)
Definition count (tb : t) : Z := Z.of_nat (List.length (rows tb)).

(** Modelled from the spec: of two records, the one stored first has the
    lower id. *)
Definition older (a b : TransactionData) : TransactionData :=
  if idOf a <=? idOf b then a else b.

(** Modelled from the spec: [first()] is the globally oldest record by id,
    or absent if the pool is empty. *)
Definition First (tb : t) : option TransactionData :=
  match rows tb with
  | [] => None
  | r :: rest => Some (fold_left older rest r)
  end.

(** Modelled from the spec: [clearBeforeId(id)] deletes all records with an
    id below the threshold, across all accounts. *)
Definition clearBeforeId (tb : t) (i : Z) : t :=
  mk (filter (fun r => negb (idOf r <? i)) (rows tb)) (serial tb).

End TxTable.

(** ** The service *)

(** [AddTransactionFailure] *)
Record AddTransactionFailure : Type := mkFailure {
  type : string;
  description : string
}.

(** [this.config] and [this.walletService]: the page size of table queries,
    the cap of the future table, and [checkTx], which answers with the
    failures of a transaction and the account's next nonce on chain. *)
Record TxService : Type := mkService {
  txQueryLimit : nat;
  maxFutureTxs : Z;
  checkTx : TransactionData -> list AddTransactionFailure * Z
}.

(** [this.readyTxTable] and [this.futureTxTable] *)
Record Pools : Type := mkPools {
  readyTxTable : TxTable.t;
  futureTxTable : TxTable.t
}.

Inductive Exn : Type :=
| DuplicateKey      (* a pool refused an (account, nonce) pair it holds *)
| InvalidBigNumber. (* [ethers.BigNumber.from] refused its argument *)

Inductive Outcome (A : Type) : Type :=
| Returned (a : A) (s : Pools)
| Thrown (e : Exn) (s : Pools)
| Running (s : Pools).
Arguments Returned {A} a s.
Arguments Thrown {A} e s.
Arguments Running {A} s.

Definition poolsOf {A} (o : Outcome A) : Pools :=
  match o with
  | Returned _ s => s
  | Thrown _ s => s
  | Running s => s
  end.

Definition Async (A : Type) : Type := Pools -> Outcome A.

Definition ret {A} (a : A) : Async A := fun s => Returned a s.

Definition bind {A B} (m : Async A) (k : A -> Async B) : Async B :=
  fun s =>
    match m s with
    | Returned a s' => k a s'
    | Thrown e s' => Thrown e s'
    | Running s' => Running s'
    end.

Notation "x <- m ;; k" := (bind m (fun x => k))
  (at level 61, m at next level, right associativity).
Notation "m ;;; k" := (bind m (fun _ => k))
  (at level 61, right associativity).

Definition throw {A} (e : Exn) : Async A := fun s => Thrown e s.

(** A promise that is started and not awaited yet: the call takes effect
    now, its failure is kept for the later [await]. *)
Definition start (m : Async unit) : Async (option Exn) :=
  fun s =>
    match m s with
    | Returned _ s' => Returned None s'
    | Thrown e s' => Returned (Some e) s'
    | Running s' => Running s'
    end.

(** [await Promise.all(promises)] rejects with the first failure. *)
Fixpoint promiseAll (promises : list (option Exn)) : Async unit :=
  match promises with
  | [] => ret tt
  | None :: rest => promiseAll rest
  | Some e :: _ => throw e
  end.

Module Ready.
Definition read {A} (f : TxTable.t -> A) : Async A :=
  fun s => Returned (f (readyTxTable s)) s.
Definition add (txs : list TransactionData) : Async unit :=
  fun s =>
    match TxTable.add (readyTxTable s) txs with
    | Some tb => Returned tt (mkPools tb (futureTxTable s))
    | None => Thrown DuplicateKey s
    end.
Definition remove (txs : list TransactionData) : Async unit :=
  fun s =>
    Returned tt (mkPools (TxTable.remove (readyTxTable s) txs) (futureTxTable s)).
End Ready.

Module Future.
Definition read {A} (f : TxTable.t -> A) : Async A :=
  fun s => Returned (f (futureTxTable s)) s.
Definition add (txs : list TransactionData) : Async unit :=
  fun s =>
    match TxTable.add (futureTxTable s) txs with
    | Some tb => Returned tt (mkPools (readyTxTable s) tb)
    | None => Thrown DuplicateKey s
    end.
Definition remove (txs : list TransactionData) : Async unit :=
  fun s =>
    Returned tt (mkPools (readyTxTable s) (TxTable.remove (futureTxTable s) txs)).
Definition clearBeforeId (i : Z) : Async unit :=
  fun s =>
    Returned tt (mkPools (readyTxTable s) (TxTable.clearBeforeId (futureTxTable s) i)).
End Future.

(** ethers 5 converts a JavaScript number (the argument of
    [BigNumber.from], [gt] and [eq]) only if it lies strictly between
    [-MAX_SAFE] and [MAX_SAFE]; for any other number it throws a numeric
    fault ("overflow").  The nonce of a record ([txData.nonce]) is a
    JavaScript number and reaches ethers this way. *)
Definition MAX_SAFE : Z := 0x1fffffffffffff.

Definition safeNumber (n : Z) : Prop := - MAX_SAFE < n < MAX_SAFE.

(** [ethers.BigNumber.from(x)] for [x : number | null]: ethers 5 rejects
    [null] with an invalid-argument error ("invalid BigNumber value").
    The result is the one for a [safeNumber]; the numeric fault for other
    numbers is not part of the model. *)
Definition BigNumber_from (x : option Z) : Async Z :=
  match x with
  | Some z => ret z
  | None => throw InvalidBigNumber
  end.

(** Decimal rendering of a number inside a description. *)
Definition showZ (z : Z) : string := NilZero.string_of_int (Z.to_int z).

Definition join (sep : string) (parts : list string) : string :=
  String.concat sep parts.

(** [isRewardBetter(left, right)] *)
Definition isRewardBetter (left right : TransactionData) : bool :=
  let leftReward := tokenRewardAmount left in
  let rightReward := tokenRewardAmount right in
  rightReward <? leftReward.

(** [LowestAcceptableNonce(nextChainNonce, pubKey)] *)
Definition LowestAcceptableNonce (nextChainNonce : Z) (pk : string) : Async Z :=
  nextLocalNonce <- Ready.read (fun tb => TxTable.nextNonceOf tb pk) ;;
  if (match nextLocalNonce with Some n => n | None => 0 end) <? nextChainNonce
  then ret nextChainNonce
  else BigNumber_from nextLocalNonce.

(** The [for (const tx of futureTxs)] loop of [tryMoveFutureTxs]: the result
    is the advanced nonce, [futureTxsToRemove] and [txsToAdd]. *)
Fixpoint scanFutureTxs (lowestAcceptableNonce : Z)
    (futureTxsToRemove txsToAdd futureTxs : list TransactionData)
  : Z * list TransactionData * list TransactionData :=
  match futureTxs with
  | [] => (lowestAcceptableNonce, futureTxsToRemove, txsToAdd)
  | tx :: rest =>
      if nonce tx <? lowestAcceptableNonce then
        scanFutureTxs lowestAcceptableNonce (futureTxsToRemove ++ [tx]) txsToAdd rest
      else if lowestAcceptableNonce =? nonce tx then
        scanFutureTxs (lowestAcceptableNonce + 1)
          (futureTxsToRemove ++ [tx]) (txsToAdd ++ [withoutId tx]) rest
      else (lowestAcceptableNonce, futureTxsToRemove, txsToAdd)
  end.

(** [tryMoveFutureTxs(pubKey, lowestAcceptableNonce)]; [fuel] bounds the
    number of rounds of the [do ... while]. *)
Fixpoint tryMoveFutureTxs (svc : TxService) (fuel : nat) (pk : string)
    (lowestAcceptableNonce : Z) : Async unit :=
  match fuel with
  | O => fun s => Running s
  | S fuel' =>
      futureTxs <- Future.read
        (fun tb => TxTable.pubKeyTxsInNonceOrder tb pk (txQueryLimit svc)) ;;
      let '(lowest', futureTxsToRemove, txsToAdd) :=
        scanFutureTxs lowestAcceptableNonce [] [] futureTxs in
      Ready.add txsToAdd ;;;
      Future.remove futureTxsToRemove ;;;
      if Nat.eqb (List.length futureTxsToRemove) (txQueryLimit svc)
      then tryMoveFutureTxs svc fuel' pk lowest'
      else ret tt
  end.

(** [ensureFutureTxSpace()]; the call of [clearBeforeId] is started and not
    awaited. *)
Definition ensureFutureTxSpace (svc : TxService) : Async unit :=
  size <- Future.read TxTable.count ;;
  if maxFutureTxs svc <=? size then
    first <- Future.read TxTable.First ;;
    match first with
    | None => ret tt
    | Some first =>
        let newFirstId := idOf first + (size - maxFutureTxs svc + 1) in
        start (Future.clearBeforeId newFirstId) ;;;
        ret tt
    end
  else ret tt.

(** The [for (const tx of followupTxs)] loop of [replaceReadyTx]: each
    follow-up is removed and added again without its id; the results of the
    started calls are appended to [promises]. *)
Fixpoint reinsertAll (followupTxs : list TransactionData)
    (promises : list (option Exn)) : Async (list (option Exn)) :=
  match followupTxs with
  | [] => ret promises
  | tx :: rest =>
      let newTx := withoutId tx in
      p1 <- start (Ready.remove [tx]) ;;
      p2 <- start (Ready.add [newTx]) ;;
      reinsertAll rest (promises ++ [p1; p2])
  end.

(** The [while (true)] loop of [replaceReadyTx]; [fuel] bounds the number of
    pages. *)
Fixpoint replaceFollowups (svc : TxService) (fuel : nat) (pk : string)
    (lastNonceReplaced : Z) (promises : list (option Exn))
  : Async (list (option Exn)) :=
  match fuel with
  | O => fun s => Running s
  | S fuel' =>
      followupTxs <- Ready.read
        (fun tb => TxTable.findAfter tb pk lastNonceReplaced (txQueryLimit svc)) ;;
      match followupTxs with
      | [] => ret promises
      | first :: _ =>
          promises' <- reinsertAll followupTxs promises ;;
          let lastNonceReplaced' := nonce (last followupTxs first) in
          if Nat.ltb (List.length followupTxs) (txQueryLimit svc)
          then ret promises'
          else replaceFollowups svc fuel' pk lastNonceReplaced' promises'
      end
  end.

(** [replaceReadyTx(lowestAcceptableNonce, txData)] *)
Definition replaceReadyTx (svc : TxService) (fuel : nat)
    (lowestAcceptableNonce : Z) (txData : TransactionData)
  : Async (list AddTransactionFailure) :=
  existingTx <- Ready.read
    (fun tb => TxTable.find tb (pubKey txData) (nonce txData)) ;;
  match existingTx with
  | None =>
      ret [ mkFailure "duplicate-nonce"
              (join " "
                 [ ("nonce " ++ showZ (nonce txData)
                      ++ " was a replacement candidate but it appears to")%string;
                   "have been submitted during processing"%string ]) ]
  | Some existingTx =>
      if negb (isRewardBetter txData existingTx) then
        ret [ mkFailure "insufficient-reward"
                (join " "
                   [ (showZ (tokenRewardAmount txData) ++ " is an")%string;
                     "insufficient reward because there is already a tx with this nonce"%string;
                     "with a reward of"%string;
                     showZ (tokenRewardAmount existingTx) ]) ]
      else
        p1 <- start (Ready.remove [existingTx]) ;;
        p2 <- start (Ready.add [txData]) ;;
        let promises := [p1; p2] in
        if lowestAcceptableNonce - 1 =? nonce txData then
          promiseAll promises ;;; ret []
        else
          promises' <- replaceFollowups svc fuel (pubKey txData)
                         (nonce txData) promises ;;
          promiseAll promises' ;;; ret []
  end.

(** [add(txData)].  The comparisons [lowestAcceptableNonce.gt(txData.nonce)]
    and [lowestAcceptableNonce.eq(txData.nonce)] are those of the integers,
    which is what ethers computes for a nonce that is a [safeNumber]; for
    another nonce ethers throws before anything is written, and the
    statements about a nonce the caller chooses carry [safeNumber] as a
    hypothesis. *)
Definition add (svc : TxService) (fuel : nat) (txData : TransactionData)
  : Async (list AddTransactionFailure) :=
  let '(failures, nextNonce) := checkTx svc txData in
  if Nat.ltb 0 (List.length failures) then ret failures
  else
    lowestAcceptableNonce <- LowestAcceptableNonce nextNonce (pubKey txData) ;;
    if nonce txData <? lowestAcceptableNonce then
      replaceReadyTx svc fuel lowestAcceptableNonce txData
    else
      (if lowestAcceptableNonce =? nonce txData then
         Ready.add [txData] ;;;
         tryMoveFutureTxs svc fuel (pubKey txData) (lowestAcceptableNonce + 1)
       else
         ensureFutureTxSpace svc ;;;
         Future.add [txData]) ;;;
      ret [].

(** A pool just created: both tables empty. *)
Definition emptyPools : Pools := mkPools TxTable.empty TxTable.empty.

(** ** Runs of the service *)

(** The pools after a sequence of [add] calls, each with its own loop
    budget; a call that throws or is cut short leaves the pools as they
    were at that point. *)
Fixpoint addAll (svc : TxService) (calls : list (nat * TransactionData))
    (s : Pools) : Pools :=
  match calls with
  | [] => s
  | (fuel, txData) :: rest => addAll svc rest (poolsOf (add svc fuel txData s))
  end.

(** ** Notions used by the statements *)

Definition keyOf (r : TransactionData) : string * Z := (pubKey r, nonce r).

(** A record of the account above a nonce: what [findAfter] selects. *)
Definition isAfter (pk : string) (n : Z) (r : TransactionData) : bool :=
  (pubKey r =? pk)%string && (n <? nonce r).

(** The number of records [findAfter] has still to hand out. *)
Definition pending (tb : TxTable.t) (pk : string) (n : Z) : nat :=
  List.length (filter (isAfter pk n) (TxTable.rows tb)).

(** The effect on a table of removing a record and adding it again. *)
Definition reinsert (tb : TxTable.t) (r : TransactionData) : TxTable.t :=
  TxTable.mk
    (filter (fun y => negb (sameKey y r)) (TxTable.rows tb)
       ++ [withId (TxTable.serial tb) r])
    (TxTable.serial tb + 1).

Definition nonceLe (a b : TransactionData) : Prop := nonce a <= nonce b.

(** The tables the engine works on: one record per (account, nonce), each
    with an id handed out by the serial of the table. *)
Record wfTable (tb : TxTable.t) : Prop := mkWf {
  wf_keys : NoDup (map keyOf (TxTable.rows tb));
  wf_ids : forall r, In r (TxTable.rows tb) ->
             exists i, txId r = Some i /\ 1 <= i < TxTable.serial tb;
  wf_ids_unique : NoDup (map idOf (TxTable.rows tb))
}.

(** ** Sample data *)

Definition alice : string := "0xa11ce".
Definition bob : string := "0xb0b".

(** A transaction of [alice] as a client submits it: no id yet. *)
Definition op (n reward : Z) (body : string) : TransactionData :=
  mkTx None alice n reward body.

(** A service with pages of 2, room for 3 future transactions, and a wallet
    service that accepts everything at chain nonce 5. *)
Definition sampleService : TxService := mkService 2 3 (fun _ => ([], 5)).

(** The ready table holds nonces 5, 6, 7 of [alice] (7 and 6 were submitted
    first and waited in the future table). *)
Definition samplePools : Pools :=
  addAll sampleService
    [(3%nat, op 7 10 "seven"); (3%nat, op 6 10 "six"); (3%nat, op 5 10 "five")]
    emptyPools.

(** The nonces a table holds for an account. *)
Definition noncesOf (tb : TxTable.t) (pk : string) : list Z :=
  map nonce (filter (fun r => (pubKey r =? pk)%string) (TxTable.rows tb)).

(** A list of nonces that is the run [from, from+1, ..., upto-1], each
    nonce once. *)
Definition isRun (l : list Z) (from upto : Z) : Prop :=
  NoDup l /\ from <= upto /\ forall n, In n l <-> from <= n < upto.

(** Two tables store the same (account, nonce) pairs. *)
Definition sameKeys (tb tb' : TxTable.t) : Prop :=
  (forall k, In k (map keyOf (TxTable.rows tb')) <->
             In k (map keyOf (TxTable.rows tb))) /\
  (NoDup (map keyOf (TxTable.rows tb)) ->
   NoDup (map keyOf (TxTable.rows tb'))).

(** The ready table, seen through its keys: one record per key, and for
    every account the nonces from the chain nonce up to some bound. *)
Definition readyInv (chain : string -> Z) (tb : TxTable.t) : Prop :=
  NoDup (map keyOf (TxTable.rows tb)) /\
  forall pk, exists upto,
    chain pk <= upto /\
    forall n, In (pk, n) (map keyOf (TxTable.rows tb)) <-> chain pk <= n < upto.

(** A property of the pools that a computation keeps, however it ends. *)
Definition preserves {A} (I : Pools -> Prop) (m : Async A) : Prop :=
  forall s, I s -> I (poolsOf (m s)).

(** A service whose future table is capped at 0. *)
Definition zeroCapService : TxService := mkService 2 0 (fun _ => ([], 5)).

(** The claim of supersession in the future table: the call returns and the
    record then stored for the account and nonce is the submitted one. *)
Definition supersedes (svc : TxService) (fuel : nat) (tx : TransactionData)
    (s : Pools) : Prop :=
  exists l s' i,
    add svc fuel tx s = Returned l s' /\
    TxTable.find (futureTxTable s') (pubKey tx) (nonce tx) = Some (withId i tx).

(** The future table holds nonce 7 of [alice]. *)
Definition waitingPools : Pools :=
  addAll sampleService [(1%nat, op 7 10 "first")] emptyPools.

(** A session with room for 5 future transactions leaves three of them
    behind, with ids 1, 4 and 5 (those with ids 2 and 3 were moved to the
    ready table). *)
Definition roomyService : TxService := mkService 2 5 (fun _ => ([], 5)).

Definition crowdedPools : Pools :=
  addAll roomyService
    [ (1%nat, op 7 10 "a7");
      (1%nat, mkTx None bob 7 10 "b7");
      (1%nat, mkTx None bob 6 10 "b6");
      (3%nat, mkTx None bob 5 10 "b5");
      (1%nat, op 9 10 "a9");
      (1%nat, op 10 10 "a10") ]
    emptyPools.

(** The next session runs with room for 2. *)
Definition tightService : TxService := mkService 2 2 (fun _ => ([], 5)).

(** The ready table with, for one account, the bound of its run named. *)
Definition readyInvAt (chain : string -> Z) (pk : string) (upto : Z)
    (tb : TxTable.t) : Prop :=
  readyInv chain tb /\ chain pk <= upto /\
  forall n, In (pk, n) (map keyOf (TxTable.rows tb)) <-> chain pk <= n < upto.

(** The ready table holds nonce 5 of [alice], the chain nonce being 5. *)
Definition oneReadyPools : Pools :=
  addAll sampleService [(1%nat, op 5 10 "five")] emptyPools.

(** The wallet service once the chain has moved on: the chain nonce it
    reports is 7. *)
Definition laterService : TxService := mkService 2 3 (fun _ => ([], 7)).

(** Nonce 5 of [alice] was submitted at chain nonce 5, nonce 7 at chain
    nonce 7. *)
Definition gappedPools : Pools :=
  poolsOf (add laterService 3 (op 7 10 "seven") oneReadyPools).

(** The threshold [newFirstId] of [ensureFutureTxSpace] for a full future
    table whose oldest record is [first]. *)
Definition newFirstId (svc : TxService) (s : Pools) (first : TransactionData)
  : Z :=
  idOf first + (TxTable.count (futureTxTable s) - maxFutureTxs svc + 1).

(** Room for a single future transaction. *)
Definition oneSlotService : TxService := mkService 2 1 (fun _ => ([], 5)).

(** A transaction is stored in the ready table, under some id. *)
Definition inReady (s : Pools) (tx : TransactionData) : Prop :=
  exists i, In (withId i tx) (TxTable.rows (readyTxTable s)).

(** ** Notions used by the further properties of the service *)

(** A well-formed table whose serial has not gone below its start. *)
Definition wfSerial (tb : TxTable.t) : Prop :=
  wfTable tb /\ 1 <= TxTable.serial tb.

(** A transaction is stored in the future table, under some id. *)
Definition inFuture (s : Pools) (tx : TransactionData) : Prop :=
  exists i, In (withId i tx) (TxTable.rows (futureTxTable s)).

(** The records a table holds for the accounts other than [pk] are those
    of another table, ids included. *)
Definition othersAsIn (pk : string) (tb0 tb : TxTable.t) : Prop :=
  forall r, pubKey r <> pk ->
            (In r (TxTable.rows tb) <-> In r (TxTable.rows tb0)).

(** Every record of a list belongs to the account [pk]. *)
Definition recordsOf (pk : string) (txs : list TransactionData) : Prop :=
  forall x, In x txs -> pubKey x = pk.

(** The number of records a table holds for an account. *)
Definition countOf (tb : TxTable.t) (pk : string) : nat :=
  List.length (filter (fun r => (pubKey r =? pk)%string) (TxTable.rows tb)).

(** Every future record lies above the chain nonce of its account and
    more than one above every ready nonce of its account. *)
Definition futureAbove (chain : string -> Z) (s : Pools) : Prop :=
  forall r, In r (TxTable.rows (futureTxTable s)) ->
    chain (pubKey r) < nonce r /\
    forall n, In (pubKey r, n) (map keyOf (TxTable.rows (readyTxTable s))) ->
              n + 1 < nonce r.

(** The future table holds nonces 7, 6 and 9 of [alice]; nothing is ready. *)
Definition gapPools : Pools :=
  addAll sampleService
    [(1%nat, op 7 10 "seven"); (1%nat, op 6 10 "six"); (1%nat, op 9 10 "nine")]
    emptyPools.

(** The call came to an end within its loop budget: it returned or threw. *)
Definition finished {A} (o : Outcome A) : Prop :=
  match o with
  | Running _ => False
  | _ => True
  end.

(** A service with pages of 0 records. *)
Definition noPageService : TxService := mkService 0 3 (fun _ => ([], 5)).

(** * The key registry of the verification gateway *)

(** [VerificationGateway.sol]: the mappings between BLS key hashes and
    wallets, and the functions that write them.  The BLS library is the
    contract handed to the constructor, so its functions are fields of a
    record; a call to it is taken to return.  [keccak256] is a field
    too. *)
Module VG.

Definition address := Z.
Definition bytes32 := Z.
(** [uint256[BLS_KEY_LEN]] and [uint256[2]] *)
Definition BLSKey : Type := Z * Z * Z * Z.
Definition Point : Type := Z * Z.

Definition zeroKey : BLSKey := (0, 0, 0, 0).
Definition zeroPoint : Point := (0, 0).

Definition BLS_DOMAIN : bytes32 :=
  0x0054159611832e24cdd64c6a133e71d373c5f8553dde6c762e6bffe707ad83cc.

Record IBLS := mkBLS {
  isZeroBLSKey : BLSKey -> bool;
  hashToPoint : bytes32 -> list Z -> Point;
  verifySingle : Point -> BLSKey -> Point -> bool
}.

Record Env := mkEnv {
  blsLib : IBLS;
  keccak256 : list Z -> bytes32
}.

(** The [len] bytes of [x], most significant first. *)
Definition bytesBE (len : nat) (x : Z) : list Z :=
  map (fun i => (x / 256 ^ Z.of_nat (len - 1 - i)) mod 256) (seq 0 len).

(** The number a list of bytes stands for, most significant first. *)
Definition wordBE (bs : list Z) : Z :=
  fold_left (fun acc b => acc * 256 + b) bs 0.

(** [abi.encodePacked(wallet)], [abi.encodePacked(publicKey)] and
    [abi.encode(hash)] *)
Definition encodePacked_address (a : address) : list Z := bytesBE 20 a.

Definition encodePacked_key (k : BLSKey) : list Z :=
  let '(k0, k1, k2, k3) := k in
  bytesBE 32 k0 ++ bytesBE 32 k1 ++ bytesBE 32 k2 ++ bytesBE 32 k3.

Definition encode_bytes32 (h : bytes32) : list Z := bytesBE 32 h.

(** [abi.decode(signature, (uint256[2]))] *)
Definition decode_point (signature : list Z) : Point :=
  (wordBE (firstn 32 signature), wordBE (firstn 32 (skipn 32 signature))).

Inductive Event :=
| PendingBLSKeySet (previousHash : bytes32) (newBLSKey : BLSKey)
| BLSKeySetForWallet (newBLSKey : BLSKey) (wallet : address).

Record State := mkState {
  walletFromHash : bytes32 -> address;
  hashFromWallet : address -> bytes32;
  BLSPublicKeyFromHash : bytes32 -> BLSKey;
  pendingBLSPublicKeyFromHash : bytes32 -> BLSKey;
  pendingMessageSenderSignatureFromHash : bytes32 -> Point;
  pendingBLSPublicKeyTimeFromHash : bytes32 -> Z;
  events : list Event
}.

(** A transaction ends with the new state or reverts, and then the state
    is the one before it. *)
Inductive Result (A : Type) :=
| Ok (a : A)
| Revert (reason : string).
Arguments Ok {A} a.
Arguments Revert {A} reason.

(** [m[k] = v] *)
Definition upd {V} (m : Z -> V) (k : Z) (v : V) : Z -> V :=
  fun x => if x =? k then v else m x.

(** The state of a gateway just deployed. *)
Definition initial : State :=
  mkState (fun _ => 0) (fun _ => 0) (fun _ => zeroKey)
          (fun _ => zeroKey) (fun _ => zeroPoint) (fun _ => 0) [].

Definition emit (e : Event) (st : State) : State :=
  mkState (walletFromHash st) (hashFromWallet st) (BLSPublicKeyFromHash st)
          (pendingBLSPublicKeyFromHash st)
          (pendingMessageSenderSignatureFromHash st)
          (pendingBLSPublicKeyTimeFromHash st)
          (events st ++ [e]).

(** [updateWalletHashMappings(publicKeyHash, wallet, publicKey)] *)
Definition updateWalletHashMappings (st : State) (publicKeyHash : bytes32)
    (wallet : address) (publicKey : BLSKey) : State :=
  let oldHash := hashFromWallet st wallet in
  let walletFromHash1 := upd (walletFromHash st) oldHash 0 in
  let BLSPublicKeyFromHash1 := upd (BLSPublicKeyFromHash st) oldHash zeroKey in
  mkState (upd walletFromHash1 publicKeyHash wallet)
          (upd (hashFromWallet st) wallet publicKeyHash)
          (upd BLSPublicKeyFromHash1 publicKeyHash publicKey)
          (pendingBLSPublicKeyFromHash st)
          (pendingMessageSenderSignatureFromHash st)
          (pendingBLSPublicKeyTimeFromHash st)
          (events st).

(** [safeSetWallet(wallletAddressSignature, publicKey, wallet)] *)
Definition safeSetWallet (env : Env) (st : State)
    (wallletAddressSignature : Point) (publicKey : BLSKey) (wallet : address)
  : Result State :=
  let addressMsg :=
    hashToPoint (blsLib env) BLS_DOMAIN (encodePacked_address wallet) in
  if verifySingle (blsLib env) wallletAddressSignature publicKey addressMsg then
    let publicKeyHash := keccak256 env (encodePacked_key publicKey) in
    let st1 := emit (BLSKeySetForWallet publicKey wallet) st in
    Ok (updateWalletHashMappings st1 publicKeyHash wallet publicKey)
  else Revert "VG: Sig not verified".

(** [setBLSKeyForWallet(messageSenderSignature, publicKey)], called by
    [sender] in a block with the given timestamp; the sum
    [block.timestamp + 604800] is checked. *)
Definition setBLSKeyForWallet (env : Env) (sender : address) (timestamp : Z)
    (st : State) (messageSenderSignature : Point) (publicKey : BLSKey)
  : Result State :=
  if isZeroBLSKey (blsLib env) publicKey then Revert "VG: key is zero"
  else
    let wallet := sender in
    let existingHash := hashFromWallet st wallet in
    if existingHash =? 0 then
      safeSetWallet env st messageSenderSignature publicKey wallet
    else if 2 ^ 256 <=? timestamp + 604800 then Revert "Panic(0x11)"
    else
      Ok (emit (PendingBLSKeySet existingHash publicKey)
            (mkState (walletFromHash st) (hashFromWallet st)
               (BLSPublicKeyFromHash st)
               (upd (pendingBLSPublicKeyFromHash st) existingHash publicKey)
               (upd (pendingMessageSenderSignatureFromHash st) existingHash
                  messageSenderSignature)
               (upd (pendingBLSPublicKeyTimeFromHash st) existingHash
                  (timestamp + 604800))
               (events st))).

(** [setPendingBLSKeyForWallet()] *)
Definition setPendingBLSKeyForWallet (env : Env) (sender : address)
    (timestamp : Z) (st : State) : Result State :=
  let wallet := sender in
  let existingHash := hashFromWallet st wallet in
  if existingHash =? 0 then Revert "VG: hash not found"
  else if negb (pendingBLSPublicKeyTimeFromHash st existingHash =? 0)
          && (pendingBLSPublicKeyTimeFromHash st existingHash <? timestamp)
  then
    match safeSetWallet env st
            (pendingMessageSenderSignatureFromHash st existingHash)
            (pendingBLSPublicKeyFromHash st existingHash) wallet with
    | Revert reason => Revert reason
    | Ok st1 =>
        Ok (mkState (walletFromHash st1) (hashFromWallet st1)
              (BLSPublicKeyFromHash st1)
              (upd (pendingBLSPublicKeyFromHash st1) existingHash zeroKey)
              (upd (pendingMessageSenderSignatureFromHash st1) existingHash
                 zeroPoint)
              (upd (pendingBLSPublicKeyTimeFromHash st1) existingHash 0)
              (events st1))
    end
  else Ok st.

(** [isValidSignature(hash, signature)], called by [sender] *)
Definition isValidSignature (env : Env) (sender : address) (st : State)
    (hash : bytes32) (signature : list Z) : Result bool :=
  let wallet := sender in
  let existingHash := hashFromWallet st wallet in
  if existingHash =? 0 then Revert "VG: not called from wallet"
  else
    let publicKey := BLSPublicKeyFromHash st existingHash in
    let hashBytes := encode_bytes32 hash in
    let message := hashToPoint (blsLib env) BLS_DOMAIN hashBytes in
    if negb (Nat.eqb (List.length signature) 64)
    then Revert "VG: Sig bytes length must be 64"
    else
      let decodedSignature := decode_point signature in
      Ok (verifySingle (blsLib env) decodedSignature publicKey message).

(** The calls of a wallet that write the registry. *)
Inductive Call :=
| SetBLSKeyForWallet (sender : address) (timestamp : Z)
    (messageSenderSignature : Point) (publicKey : BLSKey)
| SetPendingBLSKeyForWallet (sender : address) (timestamp : Z).

Definition call (env : Env) (c : Call) (st : State) : Result State :=
  match c with
  | SetBLSKeyForWallet sender timestamp sig publicKey =>
      setBLSKeyForWallet env sender timestamp st sig publicKey
  | SetPendingBLSKeyForWallet sender timestamp =>
      setPendingBLSKeyForWallet env sender timestamp st
  end.

(** The state after a sequence of transactions; one that reverts leaves
    the state as it was. *)
Definition calls (env : Env) (cs : list Call) (st : State) : State :=
  fold_left (fun st c => match call env c st with
                         | Ok st' => st'
                         | Revert _ => st
                         end) cs st.

(** Every hash that names a wallet is the hash recorded for that wallet. *)
Definition backed (st : State) : Prop :=
  forall h, walletFromHash st h <> 0 ->
            hashFromWallet st (walletFromHash st h) = h.

(** A library that takes [(n, n)] for the signature of any message under a
    key whose first word is [n], and a stand-in for [keccak256]. *)
Definition sampleEnv : Env :=
  mkEnv (mkBLS (fun k => let '(k0, k1, k2, k3) := k in
                         (k0 =? 0) && (k1 =? 0) && (k2 =? 0) && (k3 =? 0))
               (fun _ bs => (wordBE bs mod 97, 1))
               (fun sig k _ => let '(k0, _, _, _) := k in
                               (fst sig =? k0) && (snd sig =? k0)))
        (fun bs => 1 + wordBE bs mod 1000003).

Definition key1 : BLSKey := (11, 2, 3, 4).
Definition key2 : BLSKey := (12, 2, 3, 4).

End VG.

(** Wallet 200 has registered [VG.key1]. *)
Definition registeredState : VG.State :=
  VG.calls VG.sampleEnv [VG.SetBLSKeyForWallet 200 1000 (11, 11) VG.key1] VG.initial.

(** * Properties *)

(** ** Elementary facts about the monad *)

Lemma bind_Returned {A B} (m : Async A) (k : A -> Async B) s a s' :
  m s = Returned a s' -> bind m k s = k a s'.
Proof. intros H; unfold bind; now rewrite H. Qed.

Lemma bind_const_Returned {A B} (m : Async A) (v : B) s b s' :
  bind m (fun _ => ret v) s = Returned b s' -> b = v.
Proof.
  unfold bind, ret; destruct (m s); intros H; inversion H; reflexivity.
Qed.

(** ** [LowestAcceptableNonce] *)

Lemma LowestAcceptableNonce_reads c pk s :
  poolsOf (LowestAcceptableNonce c pk s) = s.
Proof.
  unfold LowestAcceptableNonce, bind, Ready.read.
  destruct (TxTable.nextNonceOf (readyTxTable s) pk); simpl;
    destruct (_ <? c); reflexivity.
Qed.

Lemma LowestAcceptableNonce_Returned c pk s la s' :
  LowestAcceptableNonce c pk s = Returned la s' ->
  s' = s /\
  ((TxTable.nextNonceOf (readyTxTable s) pk = None /\ 0 < c /\ la = c) \/
   (exists m, TxTable.nextNonceOf (readyTxTable s) pk = Some m /\ la = Z.max c m)).
Proof.
  unfold LowestAcceptableNonce, bind, Ready.read.
  destruct (TxTable.nextNonceOf (readyTxTable s) pk) as [m|]; simpl.
  - destruct (Z.ltb_spec m c); intros E; inversion E; subst;
      (split; [reflexivity | right; eexists; split; [reflexivity | lia]]).
  - destruct (Z.ltb_spec 0 c); intros E; inversion E; subst; auto.
Qed.

(** C2 (failing input).  With no record of the account in the ready table
    and a chain nonce of 0, the comparison [nextChainNonce.gt(null ?? 0)] is
    false and [ethers.BigNumber.from(null)] is evaluated: the call throws
    instead of answering 0. *)
Theorem C2_LowestAcceptableNonce_chain_zero_throws (pk : string) :
  LowestAcceptableNonce 0 pk emptyPools = Thrown InvalidBigNumber emptyPools.
Proof. reflexivity. Qed.

Lemma bind_result {A B} (P : B -> Prop) (m : Async A) (k : A -> Async B) s b s' :
  (forall a s1, k a s1 = Returned b s' -> P b) ->
  bind m k s = Returned b s' -> P b.
Proof.
  intros Hk; unfold bind; destruct (m s); intros H; try discriminate; eauto.
Qed.

(** ** Rejections *)

(** Every rejection of [replaceReadyTx] is returned before the first write;
    once it has written, it returns the empty list. *)
Lemma replaceReadyTx_rejects_before_writing svc fuel la tx s l s' :
  replaceReadyTx svc fuel la tx s = Returned l s' -> l <> [] -> s' = s.
Proof.
  unfold replaceReadyTx, bind at 1, Ready.read.
  destruct (TxTable.find (readyTxTable s) (pubKey tx) (nonce tx)) as [ex|].
  - destruct (isRewardBetter tx ex); simpl.
    + intros H Hne; exfalso; apply Hne; revert H.
      apply (bind_result (fun b => b = [])); intros p1 s1.
      apply (bind_result (fun b => b = [])); intros p2 s2.
      destruct (la - 1 =? nonce tx).
      * apply bind_const_Returned.
      * apply (bind_result (fun b => b = [])); intros ps s3.
        apply bind_const_Returned.
    + unfold ret; intros H _; now inversion H.
  - unfold ret; intros H _; now inversion H.
Qed.

(** C10.  Whenever [add] returns a non-empty list of failures, of whatever
    kind (failed check, duplicate nonce, insufficient reward), the ready and
    the future table are exactly as they were before the call. *)
Theorem C10_rejection_leaves_pools_untouched svc fuel tx s l s' :
  add svc fuel tx s = Returned l s' -> l <> [] -> s' = s.
Proof.
  unfold add. destruct (checkTx svc tx) as [failures nextNonce].
  destruct (Nat.ltb 0 (List.length failures)).
  - unfold ret; intros H _; now inversion H.
  - unfold bind at 1.
    destruct (LowestAcceptableNonce nextNonce (pubKey tx) s) as [la s1| |] eqn:E;
      try discriminate.
    apply LowestAcceptableNonce_Returned in E as [-> _].
    destruct (nonce tx <? la).
    + apply replaceReadyTx_rejects_before_writing.
    + intros H Hne; apply bind_const_Returned in H; contradiction.
Qed.


(** ** The pool operations *)

Section TableFacts.

Implicit Types (tb : TxTable.t) (r x : TransactionData) (pk : string) (n : Z).

Lemma hasKey_true pk n r :
  hasKey pk n r = true <-> pubKey r = pk /\ nonce r = n.
Proof.
  unfold hasKey. rewrite andb_true_iff, String.eqb_eq, Z.eqb_eq. tauto.
Qed.

Lemma hasKey_false pk n r :
  hasKey pk n r = false <-> (pubKey r <> pk \/ nonce r <> n).
Proof.
  unfold hasKey. rewrite andb_false_iff, String.eqb_neq, Z.eqb_neq. tauto.
Qed.

Lemma hasKey_withId pk n i r : hasKey pk n (withId i r) = hasKey pk n r.
Proof. reflexivity. Qed.

Lemma withId_withoutId i r : withId i (withoutId r) = withId i r.
Proof. reflexivity. Qed.

Lemma find_Some tb pk n r :
  TxTable.find tb pk n = Some r ->
  In r (TxTable.rows tb) /\ pubKey r = pk /\ nonce r = n.
Proof.
  unfold TxTable.find; intros H. apply find_some in H as [Hin Hk].
  apply hasKey_true in Hk. tauto.
Qed.

Lemma find_None tb pk n :
  TxTable.find tb pk n = None ->
  forall r, In r (TxTable.rows tb) -> pubKey r = pk -> nonce r <> n.
Proof.
  unfold TxTable.find; intros H r Hin Hpk Hn.
  apply (find_none _ _ H) in Hin. apply hasKey_false in Hin. tauto.
Qed.

Lemma find_app (P : TransactionData -> bool) l l' :
  List.find P (l ++ l') =
  match List.find P l with Some y => Some y | None => List.find P l' end.
Proof.
  induction l as [|a l IH]; simpl; [reflexivity|]. destruct (P a); auto.
Qed.

Lemma find_filter (P Q : TransactionData -> bool) l :
  (forall y, P y = true -> Q y = true) ->
  List.find P (filter Q l) = List.find P l.
Proof.
  intros HPQ; induction l as [|a l IH]; simpl; [reflexivity|].
  destruct (Q a) eqn:EQ; simpl.
  - destruct (P a); auto.
  - destruct (P a) eqn:EP; auto. apply HPQ in EP; congruence.
Qed.

Lemma find_filter_none (P Q : TransactionData -> bool) l :
  (forall y, P y = true -> Q y = false) ->
  List.find P (filter Q l) = None.
Proof.
  intros HPQ; induction l as [|a l IH]; simpl; [reflexivity|].
  destruct (Q a) eqn:EQ; simpl; auto.
  destruct (P a) eqn:EP; auto. apply HPQ in EP; congruence.
Qed.

(** After the removal of a record, an insertion under its key goes through. *)
Lemma insert_after_remove tb r r' :
  pubKey r' = pubKey r -> nonce r' = nonce r ->
  TxTable.insert (TxTable.remove tb [r]) r' =
  Some (TxTable.mk
          (filter (fun y => negb (sameKey y r)) (TxTable.rows tb)
             ++ [withId (TxTable.serial tb) r'])
          (TxTable.serial tb + 1)).
Proof.
  intros Hpk Hn. unfold TxTable.insert, TxTable.find, TxTable.remove; simpl.
  rewrite find_filter_none.
  - f_equal. f_equal. f_equal. apply filter_ext; intros y.
    now rewrite orb_false_r.
  - intros y Hy. apply hasKey_true in Hy as [Hy1 Hy2].
    rewrite orb_false_r. apply negb_false_iff.
    unfold sameKey. apply hasKey_true. split; congruence.
Qed.

Lemma fold_left_max_ge (l : list Z) (a x : Z) :
  x = a \/ In x l -> x <= fold_left Z.max l a.
Proof.
  revert a x; induction l as [|b l IH]; simpl; intros a x [H|H].
  - subst; lia.
  - contradiction.
  - subst x. transitivity (Z.max a b); [lia | apply IH; auto].
  - destruct H as [->|H].
    + transitivity (Z.max a x); [lia | apply IH; auto].
    + apply IH; auto.
Qed.

Lemma fold_left_max_in (l : list Z) (a : Z) :
  fold_left Z.max l a = a \/ In (fold_left Z.max l a) l.
Proof.
  revert a; induction l as [|b l IH]; simpl; intros a; auto.
  destruct (IH (Z.max a b)) as [H|H]; auto.
  rewrite H. destruct (Z.max_spec a b) as [[_ ->]|[_ ->]]; auto.
Qed.

(** [nextNonceOf] is one above the highest nonce stored for the account. *)
Lemma nextNonceOf_None tb pk :
  TxTable.nextNonceOf tb pk = None <->
  (forall r, In r (TxTable.rows tb) -> pubKey r <> pk).
Proof.
  unfold TxTable.nextNonceOf.
  destruct (filter _ _) as [|r0 rest] eqn:E; split; intros H; try discriminate;
    auto.
  - intros r Hin Hpk.
    assert (Hf : In r (filter (fun r => (pubKey r =? pk)%string) (TxTable.rows tb)))
      by (apply filter_In; split; auto; now apply String.eqb_eq).
    rewrite E in Hf; contradiction.
  - exfalso.
    assert (Hf : In r0 (filter (fun r => (pubKey r =? pk)%string) (TxTable.rows tb)))
      by (rewrite E; left; reflexivity).
    apply filter_In in Hf as [Hin Hpk]. apply String.eqb_eq in Hpk.
    exact (H r0 Hin Hpk).
Qed.

Lemma nextNonceOf_Some tb pk m :
  TxTable.nextNonceOf tb pk = Some m <->
  (exists r, In r (TxTable.rows tb) /\ pubKey r = pk /\ nonce r = m - 1) /\
  (forall r, In r (TxTable.rows tb) -> pubKey r = pk -> nonce r < m).
Proof.
  unfold TxTable.nextNonceOf.
  set (P := fun r => (pubKey r =? pk)%string).
  assert (HP : forall r, In r (filter P (TxTable.rows tb)) <->
                         In r (TxTable.rows tb) /\ pubKey r = pk).
  { intros r. rewrite filter_In. unfold P. now rewrite String.eqb_eq. }
  destruct (filter P (TxTable.rows tb)) as [|r0 rest] eqn:E.
  - split; [discriminate|]. intros [[r [Hin [Hpk _]]] _].
    assert (In r []) by (apply HP; auto). contradiction.
  - set (mx := fold_left Z.max (map nonce rest) (nonce r0)).
    assert (Hmax : (exists r, In r (TxTable.rows tb) /\ pubKey r = pk /\ nonce r = mx)).
    { destruct (fold_left_max_in (map nonce rest) (nonce r0)) as [H|H]; fold mx in H.
      - exists r0. assert (In r0 (r0 :: rest)) by (left; auto).
        apply HP in H0. intuition congruence.
      - apply in_map_iff in H as [r [Hr Hin]]. exists r.
        assert (In r (r0 :: rest)) by (right; auto). apply HP in H. tauto. }
    assert (Hub : forall r, In r (TxTable.rows tb) -> pubKey r = pk -> nonce r <= mx).
    { intros r Hin Hpk. assert (Hr : In r (r0 :: rest)) by (apply HP; auto).
      apply fold_left_max_ge. destruct Hr as [->|Hr]; auto.
      right. now apply in_map. }
    split.
    + intros H; inversion H; subst m. split.
      * destruct Hmax as [r Hr]. exists r. replace (mx + 1 - 1) with mx by lia. auto.
      * intros r Hin Hpk. specialize (Hub r Hin Hpk). lia.
    + intros [[r [Hin [Hpk Hn]]] Hlt]. f_equal.
      destruct Hmax as [r' [Hin' [Hpk' Hn']]].
      specialize (Hub r Hin Hpk). specialize (Hlt r' Hin' Hpk'). lia.
Qed.

End TableFacts.

(** ** Ascending nonce order *)

Section NonceOrder.

Import TxTable.

Lemma In_firstn {A} k (l : list A) x : In x (firstn k l) -> In x l.
Proof.
  revert l; induction k as [|k IH]; intros [|h l]; simpl; try tauto.
  intros [H|H]; auto.
Qed.

Lemma insertByNonce_perm x l : Permutation (insertByNonce x l) (x :: l).
Proof.
  induction l as [|h l IH]; simpl; [reflexivity|].
  destruct (nonce x <=? nonce h); [reflexivity|].
  rewrite IH. apply perm_swap.
Qed.

Lemma inNonceOrder_perm l : Permutation (inNonceOrder l) l.
Proof.
  induction l as [|h l IH]; simpl; [reflexivity|].
  rewrite insertByNonce_perm. now constructor.
Qed.

Lemma inNonceOrder_In l x : In x (inNonceOrder l) <-> In x l.
Proof.
  split; apply Permutation_in; [|symmetry]; apply inNonceOrder_perm.
Qed.

Lemma insertByNonce_sorted x l :
  StronglySorted nonceLe l -> StronglySorted nonceLe (insertByNonce x l).
Proof.
  induction 1 as [|h l Hs IH Hall]; simpl.
  - repeat constructor.
  - destruct (Z.leb_spec (nonce x) (nonce h)).
    + constructor; [now constructor|]. constructor; [assumption|].
      eapply Forall_impl; [|exact Hall]. unfold nonceLe; intros; lia.
    + constructor; [assumption|].
      eapply Permutation_Forall.
      * symmetry; apply insertByNonce_perm.
      * constructor; [unfold nonceLe; lia | assumption].
Qed.

Lemma inNonceOrder_sorted l : StronglySorted nonceLe (inNonceOrder l).
Proof.
  induction l; simpl; [constructor | now apply insertByNonce_sorted].
Qed.

Lemma sorted_firstn k (l : list TransactionData) :
  StronglySorted nonceLe l -> StronglySorted nonceLe (firstn k l).
Proof.
  intros H; revert k; induction H as [|h l Hs IH Hall]; intros [|k]; simpl;
    try constructor; auto.
  apply Forall_forall; intros y Hy. apply In_firstn in Hy.
  eapply Forall_forall in Hall; eauto.
Qed.

Lemma sorted_last (l : list TransactionData) d x :
  StronglySorted nonceLe l -> In x l -> nonce x <= nonce (last l d).
Proof.
  intros H; revert x; induction H as [|h l Hs IH Hall]; intros x Hin.
  - contradiction.
  - destruct l as [|h' l'].
    + destruct Hin as [->|[]]. simpl; lia.
    + change (last (h :: h' :: l') d) with (last (h' :: l') d).
      destruct Hin as [->|Hin].
      * inversion Hall as [|? ? Hh _]; subst.
        specialize (IH h' (or_introl eq_refl)). unfold nonceLe in Hh. lia.
      * now apply IH.
Qed.

Lemma sorted_app_cross (l1 l2 : list TransactionData) a b :
  StronglySorted nonceLe (l1 ++ l2) -> In a l1 -> In b l2 -> nonce a <= nonce b.
Proof.
  induction l1 as [|h l1 IH]; simpl; intros Hs Ha Hb; [contradiction|].
  inversion Hs as [|? ? Hs' Hall]; subst.
  destruct Ha as [->|Ha]; [|now apply IH].
  eapply Forall_forall in Hall; [exact Hall|]. apply in_or_app; now right.
Qed.

Lemma sorted_app (l1 l2 : list TransactionData) :
  StronglySorted nonceLe l1 -> StronglySorted nonceLe l2 ->
  (forall a b, In a l1 -> In b l2 -> nonce a <= nonce b) ->
  StronglySorted nonceLe (l1 ++ l2).
Proof.
  induction 1 as [|h l1 Hs IH Hall]; simpl; intros H2 Hcross; [assumption|].
  constructor.
  - apply IH; [assumption|]. intros a b Ha Hb. apply Hcross; auto.
  - apply Forall_app. split; [assumption|].
    apply Forall_forall. intros b Hb. apply Hcross; auto.
Qed.

Lemma last_In (l : list TransactionData) d : l <> [] -> In (last l d) l.
Proof.
  induction l as [|h l IH]; [congruence|]. intros _.
  destruct l as [|h' l']; [now left|].
  right. apply IH. discriminate.
Qed.

(** A page of [firstn]: what is left out does not come before what is in
    it, and something is left out only when the page is full. *)
Lemma page_prefix k (l : list TransactionData) x :
  StronglySorted nonceLe l -> In x l -> ~ In x (firstn k l) ->
  List.length (firstn k l) = k /\
  (forall p, In p (firstn k l) -> nonce p <= nonce x).
Proof.
  intros Hs Hin Hout.
  rewrite <- (firstn_skipn k l) in Hin, Hs.
  apply in_app_or in Hin as [Hin|Hin]; [contradiction|].
  split.
  - apply firstn_length_le.
    destruct (Nat.le_gt_cases k (List.length l)) as [H|H]; [assumption|].
    rewrite skipn_all2 in Hin by lia. contradiction.
  - intros p Hp. eapply sorted_app_cross; eauto.
Qed.

Lemma findAfter_In tb pk n k r :
  In r (findAfter tb pk n k) ->
  In r (rows tb) /\ pubKey r = pk /\ n < nonce r.
Proof.
  unfold findAfter; intros H. apply In_firstn in H.
  apply (proj1 (inNonceOrder_In _ _)) in H. apply filter_In in H as [Hin Hp].
  apply andb_true_iff in Hp as [Hp1 Hp2].
  apply String.eqb_eq in Hp1. apply Z.ltb_lt in Hp2. auto.
Qed.

Lemma findAfter_sorted tb pk n k : StronglySorted nonceLe (findAfter tb pk n k).
Proof. apply sorted_firstn, inNonceOrder_sorted. Qed.

Lemma findAfter_complete tb pk n k r :
  In r (rows tb) -> pubKey r = pk -> n < nonce r ->
  ~ In r (findAfter tb pk n k) ->
  List.length (findAfter tb pk n k) = k /\
  (forall p, In p (findAfter tb pk n k) -> nonce p <= nonce r).
Proof.
  intros Hin Hpk Hn. apply page_prefix; [apply inNonceOrder_sorted|].
  apply inNonceOrder_In, filter_In. split; [assumption|].
  apply andb_true_iff. split; [now apply String.eqb_eq | now apply Z.ltb_lt].
Qed.

Lemma pubKeyTxsInNonceOrder_In tb pk k r :
  In r (pubKeyTxsInNonceOrder tb pk k) -> In r (rows tb) /\ pubKey r = pk.
Proof.
  unfold pubKeyTxsInNonceOrder; intros H. apply In_firstn in H.
  apply (proj1 (inNonceOrder_In _ _)) in H. apply filter_In in H as [Hin Hp].
  apply String.eqb_eq in Hp. auto.
Qed.

Lemma pubKeyTxsInNonceOrder_sorted tb pk k :
  StronglySorted nonceLe (pubKeyTxsInNonceOrder tb pk k).
Proof. apply sorted_firstn, inNonceOrder_sorted. Qed.

Lemma pubKeyTxsInNonceOrder_complete tb pk k r :
  In r (rows tb) -> pubKey r = pk ->
  ~ In r (pubKeyTxsInNonceOrder tb pk k) ->
  List.length (pubKeyTxsInNonceOrder tb pk k) = k /\
  (forall p, In p (pubKeyTxsInNonceOrder tb pk k) -> nonce p <= nonce r).
Proof.
  intros Hin Hpk. apply page_prefix; [apply inNonceOrder_sorted|].
  apply inNonceOrder_In, filter_In. split; [assumption|].
  now apply String.eqb_eq.
Qed.

End NonceOrder.

(** ** Removing a record and adding it again *)

Section Reinsertion.

Import TxTable.

Lemma sameKey_true y r : sameKey y r = true <-> keyOf y = keyOf r.
Proof.
  unfold sameKey, keyOf. rewrite hasKey_true. split.
  - intros [-> ->]; reflexivity.
  - intros H; inversion H; auto.
Qed.

Lemma keyOf_withId i r : keyOf (withId i r) = keyOf r.
Proof. reflexivity. Qed.

Lemma NoDup_map_filter {A B} (f : A -> B) (P : A -> bool) l :
  NoDup (map f l) -> NoDup (map f (filter P l)).
Proof.
  induction l as [|a l IH]; simpl; intros H; [constructor|].
  inversion H as [|? ? Hnin Hnd]; subst. destruct (P a); simpl; auto.
  constructor; auto. intros Hin; apply Hnin.
  apply in_map_iff in Hin as [y [Hy Hin]]. apply filter_In in Hin as [Hin _].
  apply in_map_iff; eauto.
Qed.

Lemma NoDup_map_firstn {A B} (f : A -> B) k l :
  NoDup (map f l) -> NoDup (map f (firstn k l)).
Proof.
  revert l; induction k as [|k IH]; intros [|a l]; simpl; intros H;
    try constructor.
  - inversion H as [|? ? Hnin Hnd]; subst. intros Hin; apply Hnin.
    apply in_map_iff in Hin as [y [Hy Hin]]. apply In_firstn in Hin.
    apply in_map_iff; eauto.
  - inversion H; auto.
Qed.

Lemma NoDup_keys_eq l x y :
  NoDup (map keyOf l) -> In x l -> In y l -> keyOf x = keyOf y -> x = y.
Proof.
  induction l as [|a l IH]; simpl; intros Hnd Hx Hy Hk; [contradiction|].
  inversion Hnd as [|? ? Hnin Hnd']; subst.
  destruct Hx as [->|Hx], Hy as [->|Hy]; auto.
  - exfalso; apply Hnin. rewrite Hk. now apply in_map.
  - exfalso; apply Hnin. rewrite <- Hk. now apply in_map.
Qed.

Lemma reinsert_In tb r x :
  In x (rows (reinsert tb r)) <->
  (In x (rows tb) /\ keyOf x <> keyOf r) \/ x = withId (serial tb) r.
Proof.
  unfold reinsert; simpl. rewrite in_app_iff, filter_In; simpl.
  rewrite negb_true_iff, <- not_true_iff_false, sameKey_true.
  intuition congruence.
Qed.

Lemma reinsert_serial tb r : serial (reinsert tb r) = serial tb + 1.
Proof. reflexivity. Qed.

Lemma reinsert_NoDup_keys tb r :
  NoDup (map keyOf (rows tb)) -> NoDup (map keyOf (rows (reinsert tb r))).
Proof.
  intros H. unfold reinsert; simpl. rewrite map_app. apply NoDup_app.
  - now apply NoDup_map_filter.
  - simpl. constructor; [tauto | constructor].
  - intros k Hin [Hk|[]]. apply in_map_iff in Hin as [y [Hy Hin]].
    apply filter_In in Hin as [_ Hs]. apply negb_true_iff in Hs.
    apply not_true_iff_false in Hs. apply Hs, sameKey_true.
    rewrite Hy, <- Hk. reflexivity.
Qed.

Lemma reinsertAll_serial l tb :
  serial (fold_left reinsert l tb) = serial tb + Z.of_nat (List.length l).
Proof.
  revert tb; induction l as [|r l IH]; intros tb; simpl; [lia|].
  rewrite IH, reinsert_serial. lia.
Qed.

Lemma reinsertAll_NoDup_keys l tb :
  NoDup (map keyOf (rows tb)) ->
  NoDup (map keyOf (rows (fold_left reinsert l tb))).
Proof.
  revert tb; induction l as [|r l IH]; intros tb H; simpl; auto.
  apply IH, reinsert_NoDup_keys, H.
Qed.

(** Where the rows come from after a series of reinsertions. *)
Lemma reinsertAll_In_inv l tb x :
  In x (rows (fold_left reinsert l tb)) ->
  (In x (rows tb) /\ forall p, In p l -> keyOf x <> keyOf p) \/
  (exists p i, In p l /\ x = withId i p /\
               serial tb <= i < serial tb + Z.of_nat (List.length l)).
Proof.
  revert tb; induction l as [|r l IH]; intros tb; simpl.
  - intros H; left; split; auto.
  - intros H. apply IH in H as [[Hin Hk]|[p [i [Hp [Hx Hi]]]]].
    + apply reinsert_In in Hin as [[Hin Hr]|Hx].
      * left; split; auto. intros p [<-|Hp]; auto.
      * right. exists r, (serial tb). split; [now left|]. split; [assumption|lia].
    + right. exists p, i. rewrite reinsert_serial in Hi.
      split; [now right|]. split; [assumption|lia].
Qed.

(** Rows whose key is not reinserted stay as they are. *)
Lemma reinsertAll_In_other l tb x :
  In x (rows tb) -> (forall p, In p l -> keyOf x <> keyOf p) ->
  In x (rows (fold_left reinsert l tb)).
Proof.
  revert tb; induction l as [|r l IH]; intros tb Hin Hk; simpl; auto.
  apply IH.
  - apply reinsert_In. left; split; auto. apply Hk; now left.
  - intros p Hp; apply Hk; now right.
Qed.



Lemma filter_absorb {A} (P Q : A -> bool) l :
  (forall y, P y = true -> Q y = true) -> filter P (filter Q l) = filter P l.
Proof.
  intros H; induction l as [|a l IH]; simpl; auto.
  destruct (Q a) eqn:EQ; simpl; rewrite IH; auto.
  destruct (P a) eqn:EP; auto. apply H in EP; congruence.
Qed.

Lemma filter_length_strict {A} (P Q : A -> bool) l x :
  (forall y, Q y = true -> P y = true) ->
  In x l -> P x = true -> Q x = false ->
  (List.length (filter Q l) < List.length (filter P l))%nat.
Proof.
  intros HQP; induction l as [|a l IH]; simpl; intros Hin HP HQ; [contradiction|].
  assert (Hle : (List.length (filter Q l) <= List.length (filter P l))%nat).
  { clear -HQP. induction l as [|b l IH]; simpl; auto.
    destruct (Q b) eqn:EQ.
    - rewrite (HQP _ EQ). simpl; lia.
    - destruct (P b); simpl; lia. }
  destruct Hin as [->|Hin].
  - rewrite HP, HQ. simpl; lia.
  - specialize (IH Hin HP HQ). destruct (Q a) eqn:EQ.
    + rewrite (HQP _ EQ). simpl; lia.
    + destruct (P a); simpl; lia.
Qed.

Lemma isAfter_true pk n r : isAfter pk n r = true <-> pubKey r = pk /\ n < nonce r.
Proof.
  unfold isAfter. now rewrite andb_true_iff, String.eqb_eq, Z.ltb_lt.
Qed.

(** Reinserting records at or below a nonce leaves the records above it. *)
Lemma reinsertAll_pending l tb pk n :
  (forall p, In p l -> nonce p <= n) ->
  filter (isAfter pk n) (rows (fold_left reinsert l tb)) =
  filter (isAfter pk n) (rows tb).
Proof.
  revert tb; induction l as [|r l IH]; intros tb Hle; simpl; auto.
  rewrite IH by (intros p Hp; apply Hle; now right).
  unfold reinsert; simpl. rewrite filter_app; simpl.
  assert (Hr : nonce r <= n) by (apply Hle; now left).
  replace (isAfter pk n (withId (serial tb) r)) with false.
  - rewrite app_nil_r. apply filter_absorb. intros y Hy.
    apply isAfter_true in Hy as [_ Hy]. apply negb_true_iff.
    apply not_true_iff_false. intros Hs. apply sameKey_true in Hs.
    inversion Hs. lia.
  - symmetry. apply not_true_iff_false. intros H.
    apply isAfter_true in H as [_ H]. simpl in H. lia.
Qed.

End Reinsertion.

(** ** The cascade of [replaceReadyTx] *)

Section Cascade.

Import TxTable.

Lemma TransactionData_eq_dec (a b : TransactionData) : {a = b} + {a <> b}.
Proof.
  decide equality; try apply Z.eq_dec; try apply string_dec.
  decide equality; apply Z.eq_dec.
Qed.

Lemma pools_eta s : mkPools (readyTxTable s) (futureTxTable s) = s.
Proof. now destruct s. Qed.

Lemma reinsertAll_closed page ps s :
  reinsertAll page ps s =
  Returned (ps ++ repeat None (2 * List.length page))
    (mkPools (fold_left reinsert page (readyTxTable s)) (futureTxTable s)).
Proof.
  revert ps s; induction page as [|r page IH]; intros ps s; simpl.
  - unfold ret. now rewrite app_nil_r, pools_eta.
  - unfold bind at 1, start, Ready.remove.
    unfold bind at 1, start, Ready.add; simpl.
    rewrite insert_after_remove by reflexivity.
    rewrite IH; simpl. rewrite <- app_assoc; simpl.
    replace (List.length page + S (List.length page + 0))%nat
      with (S (2 * List.length page))%nat by lia.
    reflexivity.
Qed.

Lemma findAfter_NoDup_keys tb pk n k :
  NoDup (map keyOf (rows tb)) -> NoDup (map keyOf (findAfter tb pk n k)).
Proof.
  intros H. unfold findAfter. apply NoDup_map_firstn.
  eapply Permutation_NoDup.
  - apply Permutation_map. symmetry. apply inNonceOrder_perm.
  - now apply NoDup_map_filter.
Qed.

(** The loop over the pages comes to an end within [pending + 1] rounds; it
    reinserts a list [redone] of records of the account above the nonce it
    starts from, all of them when the page size is positive. *)
Lemma replaceFollowups_spec svc pk fuel : forall lastNonce ps s,
  (pending (readyTxTable s) pk lastNonce < fuel)%nat ->
  exists redone,
    replaceFollowups svc fuel pk lastNonce ps s =
      Returned (ps ++ repeat None (2 * List.length redone))
        (mkPools (fold_left reinsert redone (readyTxTable s)) (futureTxTable s)) /\
    (forall r, In r redone ->
       In r (rows (readyTxTable s)) /\ pubKey r = pk /\ lastNonce < nonce r) /\
    StronglySorted nonceLe redone /\
    (NoDup (map keyOf (rows (readyTxTable s))) ->
       NoDup (map keyOf redone) /\
       ((1 <= txQueryLimit svc)%nat ->
        forall r, In r (rows (readyTxTable s)) -> pubKey r = pk ->
                  lastNonce < nonce r -> In r redone)).
Proof.
  induction fuel as [|fuel IH]; intros lastNonce ps s Hfuel; [lia|].
  simpl. unfold bind at 1, Ready.read.
  set (tb := readyTxTable s) in *.
  remember (findAfter tb pk lastNonce (txQueryLimit svc)) as page eqn:Hdef.
  assert (Hpage : forall r, In r page ->
            In r (rows tb) /\ pubKey r = pk /\ lastNonce < nonce r)
    by (subst page; intros r; apply findAfter_In).
  assert (Hsorted : StronglySorted nonceLe page)
    by (subst page; apply findAfter_sorted).
  assert (Hcompl : forall r, In r (rows tb) -> pubKey r = pk ->
            lastNonce < nonce r -> ~ In r page ->
            List.length page = txQueryLimit svc /\
            (forall p, In p page -> nonce p <= nonce r))
    by (subst page; intros r; apply findAfter_complete).
  assert (Hpnd : NoDup (map keyOf (rows tb)) -> NoDup (map keyOf page))
    by (subst page; apply findAfter_NoDup_keys).
  clear Hdef.
  destruct page as [|first rest].
  - exists []. simpl. unfold ret, tb. rewrite app_nil_r, pools_eta.
    split; [reflexivity|]. split; [intros r []|]. split; [constructor|].
    intros _. split; [constructor|]. intros Hlim r Hin Hpk Hn.
    destruct (Hcompl r Hin Hpk Hn) as [Hlen _]; [intros []|].
    simpl in Hlen. lia.
  - lazy beta iota. remember (first :: rest) as page eqn:Epage.
    assert (Hne : page <> []) by (subst page; discriminate).
    clear Epage.
    rewrite (bind_Returned _ _ _ _ _ (reinsertAll_closed page ps s)).
    fold tb.
    set (lastTx := last page first).
    assert (HlastIn : In lastTx page) by now apply last_In.
    assert (Hmax : forall p, In p page -> nonce p <= nonce lastTx)
      by (intros p Hp; now apply sorted_last).
    destruct (Nat.ltb_spec (List.length page) (txQueryLimit svc)) as [Hshort|Hfull].
    + exists page. split; [reflexivity|]. split; [assumption|].
      split; [assumption|].
      intros Hnd. split; [now apply Hpnd|].
      intros _ r Hin Hpk Hn.
      destruct (in_dec TransactionData_eq_dec r page) as [|Hout]; [assumption|].
      apply (Hcompl r Hin Hpk Hn) in Hout as [Hlen _]. lia.
    + set (s1 := mkPools (fold_left reinsert page tb) (futureTxTable s)).
      destruct (Hpage lastTx HlastIn) as [HlastRow [HlastPk HlastN]].
      assert (Hfuel1 : (pending (readyTxTable s1) pk (nonce lastTx) < fuel)%nat).
      { unfold pending, s1; simpl. rewrite reinsertAll_pending by assumption.
        unfold pending in Hfuel. fold tb in Hfuel.
        assert ((List.length (filter (isAfter pk (nonce lastTx)) (rows tb)) <
                 List.length (filter (isAfter pk lastNonce) (rows tb)))%nat);
          [|lia].
        apply filter_length_strict with (x := lastTx); auto.
        - intros y Hy. apply isAfter_true in Hy as [Hy1 Hy2].
          apply isAfter_true. split; [assumption|lia].
        - apply isAfter_true; auto.
        - apply not_true_iff_false. intros H.
          apply isAfter_true in H as [_ H]. lia. }
      destruct (IH (nonce lastTx) (ps ++ repeat None (2 * List.length page)) s1 Hfuel1)
        as [redone [Hrun [Hmem [Hsorted2 Hall]]]].
      exists (page ++ redone). split; [|split; [|split]].
      * rewrite Hrun. unfold s1; simpl.
        rewrite fold_left_app, <- app_assoc, <- repeat_app, length_app.
        f_equal. f_equal. f_equal. lia.
      * intros r Hr. apply in_app_or in Hr as [Hr|Hr]; [now apply Hpage|].
        destruct (Hmem r Hr) as [Hin [Hpk Hn]]. unfold s1 in Hin; simpl in Hin.
        split; [|split; [assumption|lia]].
        apply reinsertAll_In_inv in Hin as [[Hin _]|[p [i [Hp [Hx _]]]]];
          [assumption|].
        subst r. simpl in Hn. specialize (Hmax p Hp). lia.
      * apply sorted_app; auto. intros a b Ha Hb.
        specialize (Hmax a Ha). destruct (Hmem b Hb) as [_ [_ Hbn]]. lia.
      * intros Hnd.
        assert (Hnd1 : NoDup (map keyOf (rows (readyTxTable s1))))
          by (unfold s1; simpl; now apply reinsertAll_NoDup_keys).
        destruct (Hall Hnd1) as [Hnd2 Hcomplete]. split.
        -- rewrite map_app. apply NoDup_app; auto.
           ++ intros k Hk1 Hk2.
              apply in_map_iff in Hk1 as [p [Hpk1 Hp]].
              apply in_map_iff in Hk2 as [q [Hqk Hq]].
              destruct (Hmem q Hq) as [_ [_ Hqn]]. specialize (Hmax p Hp).
              rewrite <- Hqk in Hpk1. inversion Hpk1. lia.
        -- intros Hlim r Hin Hpk Hn.
           destruct (in_dec TransactionData_eq_dec r page) as [Hr|Hout];
             [apply in_or_app; now left|].
           apply in_or_app; right.
           assert (Hdiff : forall p, In p page -> keyOf r <> keyOf p).
           { intros p Hp Hk. apply Hout.
             destruct (Hpage p Hp) as [Hprow _].
             now rewrite (NoDup_keys_eq (rows tb) r p Hnd Hin Hprow Hk). }
           apply Hcomplete; auto.
           ++ unfold s1; simpl. now apply reinsertAll_In_other.
           ++ destruct (Hcompl r Hin Hpk Hn Hout) as [_ Hle].
              specialize (Hle lastTx HlastIn).
              assert (nonce r <> nonce lastTx); [|lia].
              intros E. apply (Hdiff lastTx HlastIn).
              unfold keyOf. congruence.
Qed.

End Cascade.

(** ** Replacement through [add] *)

Section Replacement.



Lemma LowestAcceptableNonce_None c pk s :
  TxTable.nextNonceOf (readyTxTable s) pk = None ->
  LowestAcceptableNonce c pk s =
  if 0 <? c then Returned c s else Thrown InvalidBigNumber s.
Proof.
  intros E. unfold LowestAcceptableNonce, bind, Ready.read. rewrite E.
  destruct (0 <? c); reflexivity.
Qed.

Lemma reinsert_find_same tb tx :
  TxTable.find (reinsert tb tx) (pubKey tx) (nonce tx) = Some (withId (TxTable.serial tb) tx).
Proof.
  unfold TxTable.find, reinsert; simpl. rewrite find_app, find_filter_none.
  - simpl. unfold hasKey; simpl. now rewrite String.eqb_refl, Z.eqb_refl.
  - intros y Hy. apply negb_false_iff, sameKey_true.
    apply hasKey_true in Hy as [H1 H2]. unfold keyOf; congruence.
Qed.

Lemma reinsert_find_other tb r pk n :
  keyOf r <> (pk, n) -> TxTable.find (reinsert tb r) pk n = TxTable.find tb pk n.
Proof.
  intros Hk. unfold TxTable.find, reinsert; simpl. rewrite find_app, find_filter.
  - destruct (List.find (hasKey pk n) (TxTable.rows tb)); [reflexivity|]. simpl.
    rewrite hasKey_withId.
    destruct (hasKey pk n r) eqn:E; [|reflexivity].
    apply hasKey_true in E as [E1 E2]. exfalso; apply Hk.
    unfold keyOf; congruence.
  - intros y Hy. apply negb_true_iff, not_true_iff_false. intros Hs.
    apply sameKey_true in Hs. apply hasKey_true in Hy as [H1 H2].
    apply Hk. rewrite <- Hs. unfold keyOf; congruence.
Qed.

Lemma reinsertAll_find_other l tb pk n :
  (forall r, In r l -> keyOf r <> (pk, n)) ->
  TxTable.find (fold_left reinsert l tb) pk n = TxTable.find tb pk n.
Proof.
  revert tb; induction l as [|r l IH]; intros tb H; simpl; [reflexivity|].
  rewrite IH by (intros p Hp; apply H; now right).
  apply reinsert_find_other, H. now left.
Qed.

(** The table after [remove(existingTx)] and [add(txData)]. *)
Lemma replace_head tb existing tx :
  pubKey existing = pubKey tx -> nonce existing = nonce tx ->
  TxTable.insert (TxTable.remove tb [existing]) tx = Some (reinsert tb tx).
Proof.
  intros Hpk Hn. rewrite insert_after_remove by congruence.
  unfold reinsert. f_equal. f_equal. f_equal. apply filter_ext; intros y.
  unfold sameKey, hasKey. now rewrite Hpk, Hn.
Qed.

Lemma replaceReadyTx_better svc fuel la tx s existing :
  TxTable.find (readyTxTable s) (pubKey tx) (nonce tx) = Some existing ->
  isRewardBetter tx existing = true ->
  replaceReadyTx svc fuel la tx s =
  let s1 := mkPools (reinsert (readyTxTable s) tx) (futureTxTable s) in
  if la - 1 =? nonce tx then Returned [] s1
  else (promises <- replaceFollowups svc fuel (pubKey tx) (nonce tx) [None; None] ;;
        promiseAll promises ;;; ret []) s1.
Proof.
  intros Hfind Hbetter.
  destruct (find_Some _ _ _ _ Hfind) as [_ [Hpk Hn]].
  unfold replaceReadyTx, bind at 1, Ready.read. rewrite Hfind, Hbetter.
  cbn [negb]. unfold bind at 1, start at 1, Ready.remove.
  unfold bind at 1, start at 1, Ready.add.
  cbn [readyTxTable futureTxTable TxTable.add].
  rewrite (replace_head _ _ _ Hpk Hn).
  destruct (la - 1 =? nonce tx); reflexivity.
Qed.



End Replacement.


Lemma C10_witness :
  exists l, add sampleService 0 (op 3 1 "x") emptyPools = Returned l emptyPools /\
            l <> [] /\ emptyPools = emptyPools.
Proof.
  eexists. split; [reflexivity|]. split; [discriminate|].
  eapply (C10_rejection_leaves_pools_untouched sampleService 0 (op 3 1 "x"));
    [reflexivity | discriminate].
Defined.


(** ** The cascade keeps the follow-ups *)

Section CascadeValues.



End CascadeValues.

(** ** Properties kept by every outcome *)

Section Preservation.

Context {A B : Type} (I : Pools -> Prop).

Lemma preserves_ret (a : A) : preserves I (ret a).
Proof. intros s H; exact H. Qed.

Lemma preserves_throw e : preserves I (@throw A e).
Proof. intros s H; exact H. Qed.

Lemma preserves_bind (m : Async A) (k : A -> Async B) :
  preserves I m -> (forall a, preserves I (k a)) -> preserves I (bind m k).
Proof.
  intros Hm Hk s Hs. specialize (Hm s Hs). unfold bind.
  destruct (m s) as [a s'|e s'|s']; simpl in *; auto. now apply Hk.
Qed.

Lemma preserves_start (m : Async unit) : preserves I m -> preserves I (start m).
Proof.
  intros Hm s Hs. specialize (Hm s Hs). unfold start.
  destruct (m s); simpl in *; auto.
Qed.

Lemma preserves_Ready_read (f : TxTable.t -> A) : preserves I (Ready.read f).
Proof. intros s H; exact H. Qed.

Lemma preserves_Future_read (f : TxTable.t -> A) : preserves I (Future.read f).
Proof. intros s H; exact H. Qed.

End Preservation.

Lemma preserves_if {A} (I : Pools -> Prop) (b : bool) (m1 m2 : Async A) :
  preserves I m1 -> preserves I m2 -> preserves I (if b then m1 else m2).
Proof. destruct b; auto. Qed.

Lemma preserves_promiseAll (I : Pools -> Prop) ps : preserves I (promiseAll ps).
Proof.
  induction ps as [|[e|] ps IH]; simpl; auto.
  - apply preserves_ret.
  - apply preserves_throw.
Qed.

Lemma poolsOf_bind_pure {A B} (m : Async A) (k : A -> Async B) s :
  (forall a s', poolsOf (k a s') = s') -> poolsOf (bind m k s) = poolsOf (m s).
Proof.
  intros Hk. unfold bind. destruct (m s); simpl; auto.
Qed.

(** ** What each branch of [add] leaves alone *)

Section Frames.

(** Properties of the future table alone are kept by the writes to the
    ready table, and the other way round. *)
Lemma Ready_add_keeps_future (P : TxTable.t -> Prop) txs :
  preserves (fun s => P (futureTxTable s)) (Ready.add txs).
Proof.
  intros s H. unfold Ready.add. destruct (TxTable.add _ _); simpl; auto.
Qed.

Lemma Ready_remove_keeps_future (P : TxTable.t -> Prop) txs :
  preserves (fun s => P (futureTxTable s)) (Ready.remove txs).
Proof. intros s H; exact H. Qed.

Lemma Future_add_keeps_ready (P : TxTable.t -> Prop) txs :
  preserves (fun s => P (readyTxTable s)) (Future.add txs).
Proof.
  intros s H. unfold Future.add. destruct (TxTable.add _ _); simpl; auto.
Qed.

Lemma Future_remove_keeps_ready (P : TxTable.t -> Prop) txs :
  preserves (fun s => P (readyTxTable s)) (Future.remove txs).
Proof. intros s H; exact H. Qed.

Lemma Future_clearBeforeId_keeps_ready (P : TxTable.t -> Prop) i :
  preserves (fun s => P (readyTxTable s)) (Future.clearBeforeId i).
Proof. intros s H; exact H. Qed.

(** [ensureFutureTxSpace] never touches the ready table. *)
Lemma ensureFutureTxSpace_keeps_ready svc (P : TxTable.t -> Prop) :
  preserves (fun s => P (readyTxTable s)) (ensureFutureTxSpace svc).
Proof.
  unfold ensureFutureTxSpace.
  apply preserves_bind; [apply preserves_Future_read|]. intros size.
  apply preserves_if; [|apply preserves_ret].
  apply preserves_bind; [apply preserves_Future_read|]. intros [first|];
    [|apply preserves_ret].
  apply preserves_bind; [|intros; apply preserves_ret].
  apply preserves_start, Future_clearBeforeId_keeps_ready.
Qed.

(** [replaceReadyTx] never touches the future table. *)
Lemma reinsertAll_keeps_future (P : TxTable.t -> Prop) l ps :
  preserves (fun s => P (futureTxTable s)) (reinsertAll l ps).
Proof.
  revert ps; induction l as [|r l IH]; intros ps; simpl;
    [apply preserves_ret|].
  apply preserves_bind; [apply preserves_start, Ready_remove_keeps_future|].
  intros p1.
  apply preserves_bind; [apply preserves_start, Ready_add_keeps_future|].
  intros p2. apply IH.
Qed.

Lemma replaceFollowups_keeps_future svc (P : TxTable.t -> Prop) fuel :
  forall pk n ps,
  preserves (fun s => P (futureTxTable s)) (replaceFollowups svc fuel pk n ps).
Proof.
  induction fuel as [|fuel IH]; intros pk n ps; simpl.
  - intros s H; exact H.
  - apply preserves_bind; [apply preserves_Ready_read|]. intros [|first rest];
      [apply preserves_ret|].
    apply preserves_bind; [apply reinsertAll_keeps_future|]. intros ps'.
    apply preserves_if; [apply preserves_ret | apply IH].
Qed.

Lemma replaceReadyTx_keeps_future svc (P : TxTable.t -> Prop) fuel la tx :
  preserves (fun s => P (futureTxTable s)) (replaceReadyTx svc fuel la tx).
Proof.
  unfold replaceReadyTx.
  apply preserves_bind; [apply preserves_Ready_read|]. intros [existing|];
    [|apply preserves_ret].
  apply preserves_if; [apply preserves_ret|].
  apply preserves_bind; [apply preserves_start, Ready_remove_keeps_future|].
  intros p1.
  apply preserves_bind; [apply preserves_start, Ready_add_keeps_future|].
  intros p2.
  apply preserves_if.
  - apply preserves_bind; [apply preserves_promiseAll|].
    intros; apply preserves_ret.
  - apply preserves_bind; [apply replaceFollowups_keeps_future|]. intros ps.
    apply preserves_bind; [apply preserves_promiseAll|].
    intros; apply preserves_ret.
Qed.

Lemma LowestAcceptableNonce_preserves (I : Pools -> Prop) c pk :
  preserves I (LowestAcceptableNonce c pk).
Proof. intros s H. now rewrite LowestAcceptableNonce_reads. Qed.

End Frames.

(** ** The size of the future table *)

Section FutureSize.

Lemma filter_length_lt {A} (Q : A -> bool) l x :
  In x l -> Q x = false -> (List.length (filter Q l) < List.length l)%nat.
Proof.
  induction l as [|a l IH]; simpl; intros Hin HQ; [contradiction|].
  pose proof (filter_length_le Q l).
  destruct Hin as [->|Hin].
  - rewrite HQ. lia.
  - specialize (IH Hin HQ). destruct (Q a); simpl; lia.
Qed.

Lemma fold_left_older_In l r : In (fold_left TxTable.older l r) (r :: l).
Proof.
  revert r; induction l as [|a l IH]; intros r; simpl; [now left|].
  destruct (IH (TxTable.older r a)) as [H|H]; [|now right; right].
  rewrite <- H. unfold TxTable.older. destruct (idOf r <=? idOf a); auto.
Qed.

Lemma fold_left_older_le l r x :
  In x (r :: l) -> idOf (fold_left TxTable.older l r) <= idOf x.
Proof.
  revert r x; induction l as [|a l IH]; intros r x; simpl.
  - intros [->|[]]; lia.
  - intros Hin.
    assert (Hstep : idOf (TxTable.older r a) <= idOf r /\
                    idOf (TxTable.older r a) <= idOf a).
    { unfold TxTable.older. destruct (Z.leb_spec (idOf r) (idOf a)); lia. }
    pose proof (IH (TxTable.older r a) _ (or_introl eq_refl)) as H0.
    destruct Hin as [->|[->|Hin]]; try lia.
    apply IH. now right.
Qed.

(** [First] is a stored record, and no stored record has a lower id. *)
Lemma First_Some tb f :
  TxTable.First tb = Some f ->
  In f (TxTable.rows tb) /\ forall r, In r (TxTable.rows tb) -> idOf f <= idOf r.
Proof.
  unfold TxTable.First. destruct (TxTable.rows tb) as [|r l]; [discriminate|].
  intros H; inversion H; subst. split.
  - apply fold_left_older_In.
  - intros x Hx. now apply fold_left_older_le.
Qed.

Lemma First_None tb : TxTable.First tb = None -> TxTable.rows tb = [].
Proof.
  unfold TxTable.First. destruct (TxTable.rows tb); [reflexivity | discriminate].
Qed.

Lemma insert_Some tb tx tb' :
  TxTable.insert tb tx = Some tb' ->
  TxTable.find tb (pubKey tx) (nonce tx) = None /\
  tb' = TxTable.mk (TxTable.rows tb ++ [withId (TxTable.serial tb) tx])
          (TxTable.serial tb + 1).
Proof.
  unfold TxTable.insert. destruct (TxTable.find _ _ _); [discriminate|].
  intros H; inversion H; auto.
Qed.

Lemma add_one tb tx :
  TxTable.add tb [tx] = TxTable.insert tb tx.
Proof. simpl. now destruct (TxTable.insert tb tx). Qed.

Lemma remove_count tb txs : TxTable.count (TxTable.remove tb txs) <= TxTable.count tb.
Proof.
  unfold TxTable.count, TxTable.remove; simpl.
  pose proof (filter_length_le (fun r => negb (existsb (sameKey r) txs))
                (TxTable.rows tb)). lia.
Qed.

(** [tryMoveFutureTxs] only removes records from the future table. *)
Lemma tryMoveFutureTxs_keeps_future svc (P : TxTable.t -> Prop) fuel :
  (forall tb txs, P tb -> P (TxTable.remove tb txs)) ->
  forall pk n,
  preserves (fun s => P (futureTxTable s)) (tryMoveFutureTxs svc fuel pk n).
Proof.
  intros Hrem. induction fuel as [|fuel IH]; intros pk n; simpl.
  - intros s H; exact H.
  - apply preserves_bind; [apply preserves_Future_read|]. intros page.
    destruct (scanFutureTxs n [] [] page) as [[n' toRemove] toAdd].
    apply preserves_bind; [apply (Ready_add_keeps_future P)|].
    intros _. apply preserves_bind.
    + intros s H. simpl. now apply Hrem.
    + intros _. apply preserves_if; [apply IH | apply preserves_ret].
Qed.

Lemma tryMoveFutureTxs_keeps_count svc cap fuel pk n :
  preserves (fun s => TxTable.count (futureTxTable s) <= cap)
    (tryMoveFutureTxs svc fuel pk n).
Proof.
  apply (tryMoveFutureTxs_keeps_future svc (fun tb => TxTable.count tb <= cap)).
  intros tb txs H. pose proof (remove_count tb txs). lia.
Qed.

(** After [ensureFutureTxSpace] on a table within a cap of at least 1, one
    more record fits. *)
Lemma ensureFutureTxSpace_makes_room svc s :
  1 <= maxFutureTxs svc ->
  TxTable.count (futureTxTable s) <= maxFutureTxs svc ->
  exists s', ensureFutureTxSpace svc s = Returned tt s' /\
             readyTxTable s' = readyTxTable s /\
             TxTable.count (futureTxTable s') < maxFutureTxs svc.
Proof.
  intros Hcap Hle. unfold ensureFutureTxSpace, bind at 1, Future.read.
  destruct (Z.leb_spec (maxFutureTxs svc) (TxTable.count (futureTxTable s))) as [Hfull|Hroom].
  - unfold bind at 1. destruct (TxTable.First (futureTxTable s)) as [f|] eqn:Ef.
    + apply First_Some in Ef as [Hin _].
      eexists. split; [reflexivity|]. split; [reflexivity|]. simpl.
      unfold TxTable.count, TxTable.clearBeforeId in *; simpl.
      match goal with |- context [filter ?Q ?l] =>
        assert (Hlt : (List.length (filter Q l) < List.length l)%nat)
          by (apply filter_length_lt with (x := f); [assumption|];
              apply negb_false_iff, Z.ltb_lt; lia)
      end.
      lia.
    + apply First_None in Ef. unfold TxTable.count in *. rewrite Ef in *.
      simpl in *. lia.
  - exists s. split; [reflexivity|]. split; [reflexivity|]. lia.
Qed.

Lemma Future_add_one_count cap tx s :
  TxTable.count (futureTxTable s) < cap ->
  TxTable.count (futureTxTable (poolsOf (Future.add [tx] s))) <= cap.
Proof.
  intros H. unfold Future.add. rewrite add_one.
  destruct (TxTable.insert (futureTxTable s) tx) as [tb'|] eqn:E; simpl; [|lia].
  apply insert_Some in E as [_ ->]. unfold TxTable.count in *; simpl.
  rewrite length_app; simpl. lia.
Qed.

Lemma add_keeps_future_within_cap svc fuel tx :
  1 <= maxFutureTxs svc ->
  preserves (fun s => TxTable.count (futureTxTable s) <= maxFutureTxs svc)
    (add svc fuel tx).
Proof.
  intros Hcap. unfold add. destruct (checkTx svc tx) as [failures c].
  apply preserves_if; [apply preserves_ret|].
  apply preserves_bind; [apply LowestAcceptableNonce_preserves|]. intros la.
  apply preserves_if.
  - apply (replaceReadyTx_keeps_future svc
             (fun tb => TxTable.count tb <= maxFutureTxs svc)).
  - apply preserves_bind; [|intros; apply preserves_ret].
    apply preserves_if.
    + apply preserves_bind;
        [apply (Ready_add_keeps_future (fun tb => TxTable.count tb <= maxFutureTxs svc))|].
      intros _. apply tryMoveFutureTxs_keeps_count.
    + intros s Hs.
      destruct (ensureFutureTxSpace_makes_room svc s Hcap Hs) as [s' [Hrun [_ Hlt]]].
      rewrite (bind_Returned _ _ _ _ _ Hrun).
      now apply Future_add_one_count.
Qed.

(** C6 (amended).  With a cap of at least 1 and a future table within the
    cap to begin with (an empty one, for instance), the future table is
    within the cap after every sequence of [add] calls, however each call
    ends. *)
Theorem C6_future_table_stays_within_cap svc calls s :
  1 <= maxFutureTxs svc ->
  TxTable.count (futureTxTable s) <= maxFutureTxs svc ->
  TxTable.count (futureTxTable (addAll svc calls s)) <= maxFutureTxs svc.
Proof.
  intros Hcap. revert s; induction calls as [|[fuel tx] calls IH]; intros s Hs;
    simpl; [assumption|].
  apply IH. now apply (add_keeps_future_within_cap svc fuel tx Hcap s).
Qed.

Lemma C6_witness :
  TxTable.count (futureTxTable
    (addAll sampleService
       [(1%nat, op 7 1 "a"); (1%nat, op 8 1 "b"); (1%nat, op 9 1 "c");
        (1%nat, op 10 1 "d"); (1%nat, op 11 1 "e")] emptyPools))
  <= maxFutureTxs sampleService.
Proof.
  apply C6_future_table_stays_within_cap; vm_compute; discriminate.
Defined.

(** C6 (counterexample).  With a cap of 0 the table is "full" while empty:
    [first()] is absent, the eviction is skipped, and the table holds one
    record when [add] returns. *)
Lemma C6_counterexample_zero_cap :
  exists s',
    add zeroCapService 1 (op 7 1 "a") emptyPools = Returned [] s' /\
    maxFutureTxs zeroCapService < TxTable.count (futureTxTable s').
Proof. eexists. split; [reflexivity|]. vm_compute. reflexivity. Qed.

End FutureSize.

(** ** One record per account and nonce in the future table *)

Section FutureKeys.

Lemma insert_NoDup_keys tb tx tb' :
  TxTable.insert tb tx = Some tb' ->
  NoDup (map keyOf (TxTable.rows tb)) -> NoDup (map keyOf (TxTable.rows tb')).
Proof.
  intros H Hnd. apply insert_Some in H as [Hnone ->]. simpl.
  rewrite map_app. apply NoDup_app; auto.
  - simpl. constructor; [tauto | constructor].
  - intros k Hin [Hk|[]]. apply in_map_iff in Hin as [y [Hy Hin]].
    rewrite keyOf_withId in Hk. subst k. inversion Hk as [[Hpk Hn]].
    exact (find_None _ _ _ Hnone y Hin (eq_sym Hpk) (eq_sym Hn)).
Qed.

Lemma add_NoDup_keys txs : forall tb tb',
  TxTable.add tb txs = Some tb' ->
  NoDup (map keyOf (TxTable.rows tb)) -> NoDup (map keyOf (TxTable.rows tb')).
Proof.
  induction txs as [|tx txs IH]; intros tb tb'; simpl.
  - intros H; inversion H; auto.
  - destruct (TxTable.insert tb tx) as [tb1|] eqn:E; [|discriminate].
    intros H Hnd. apply (IH tb1 tb' H). eapply insert_NoDup_keys; eauto.
Qed.

Lemma ensureFutureTxSpace_keeps_future svc (P : TxTable.t -> Prop) :
  (forall tb i, P tb -> P (TxTable.clearBeforeId tb i)) ->
  preserves (fun s => P (futureTxTable s)) (ensureFutureTxSpace svc).
Proof.
  intros Hclear. unfold ensureFutureTxSpace.
  apply preserves_bind; [apply preserves_Future_read|]. intros size.
  apply preserves_if; [|apply preserves_ret].
  apply preserves_bind; [apply preserves_Future_read|]. intros [first|];
    [|apply preserves_ret].
  apply preserves_bind; [|intros; apply preserves_ret].
  apply preserves_start. intros s H. simpl. now apply Hclear.
Qed.

Lemma add_keeps_future_keys svc fuel tx :
  preserves (fun s => NoDup (map keyOf (TxTable.rows (futureTxTable s))))
    (add svc fuel tx).
Proof.
  set (P := fun tb => NoDup (map keyOf (TxTable.rows tb))).
  unfold add. destruct (checkTx svc tx) as [failures c].
  apply preserves_if; [apply preserves_ret|].
  apply preserves_bind; [apply LowestAcceptableNonce_preserves|]. intros la.
  apply preserves_if.
  - apply (replaceReadyTx_keeps_future svc P).
  - apply preserves_bind; [|intros; apply preserves_ret].
    apply preserves_if.
    + apply preserves_bind; [apply (Ready_add_keeps_future P)|].
      intros _. apply (tryMoveFutureTxs_keeps_future svc P).
      intros tb txs H. unfold P, TxTable.remove; simpl. now apply NoDup_map_filter.
    + apply preserves_bind.
      * apply (ensureFutureTxSpace_keeps_future svc P).
        intros tb i H. unfold P, TxTable.clearBeforeId; simpl.
        now apply NoDup_map_filter.
      * intros _ s H. unfold Future.add.
        destruct (TxTable.add (futureTxTable s) [tx]) as [tb'|] eqn:E; simpl; auto.
        eapply add_NoDup_keys; eauto.
Qed.

(** The path of [add] for a valid transaction above the lowest acceptable
    nonce. *)
Lemma add_future_branch svc fuel tx s la :
  fst (checkTx svc tx) = [] ->
  LowestAcceptableNonce (snd (checkTx svc tx)) (pubKey tx) s = Returned la s ->
  la < nonce tx ->
  add svc fuel tx s =
  ((ensureFutureTxSpace svc ;;; Future.add [tx]) ;;; ret []) s.
Proof.
  intros Hok Hla Hlt. unfold add.
  destruct (checkTx svc tx) as [failures c]; simpl in *; subst failures.
  simpl. rewrite (bind_Returned _ _ _ _ _ Hla).
  replace (nonce tx <? la) with false by (symmetry; apply Z.ltb_ge; lia).
  replace (la =? nonce tx) with false by (symmetry; apply Z.eqb_neq; lia).
  reflexivity.
Qed.

(** C8 (amended).  The future table never holds two records for the same
    account and nonce.  A second transaction for a pair it holds supersedes
    the stored record only by way of the eviction.  When the table has room
    left, the insertion fails with [DuplicateKey] and both tables stay as
    they are.  When the table is full, the oldest records (those with an id
    below [newFirstId]) are cleared first: if the stored record is not among
    them, the insertion fails with [DuplicateKey] all the same and the
    eviction stays; if it is, the insertion succeeds and the pair then holds
    the later transaction under the next id of the table. *)
Theorem C8_future_duplicate_supersedes_only_by_eviction svc :
  (forall calls s,
     NoDup (map keyOf (TxTable.rows (futureTxTable s))) ->
     NoDup (map keyOf (TxTable.rows (futureTxTable (addAll svc calls s))))) /\
  (forall fuel tx s la stored,
     fst (checkTx svc tx) = [] ->
     LowestAcceptableNonce (snd (checkTx svc tx)) (pubKey tx) s = Returned la s ->
     la < nonce tx ->
     TxTable.find (futureTxTable s) (pubKey tx) (nonce tx) = Some stored ->
     (TxTable.count (futureTxTable s) < maxFutureTxs svc ->
      add svc fuel tx s = Thrown DuplicateKey s) /\
     (forall first,
        NoDup (map keyOf (TxTable.rows (futureTxTable s))) ->
        maxFutureTxs svc <= TxTable.count (futureTxTable s) ->
        TxTable.First (futureTxTable s) = Some first ->
        (newFirstId svc s first <= idOf stored ->
         add svc fuel tx s =
           Thrown DuplicateKey
             (mkPools (readyTxTable s)
                (TxTable.clearBeforeId (futureTxTable s)
                   (newFirstId svc s first))) /\
         In stored
            (TxTable.rows (TxTable.clearBeforeId (futureTxTable s)
                             (newFirstId svc s first)))) /\
        (idOf stored < newFirstId svc s first ->
         exists s',
           add svc fuel tx s = Returned [] s' /\
           readyTxTable s' = readyTxTable s /\
           TxTable.rows (futureTxTable s') =
             TxTable.rows (TxTable.clearBeforeId (futureTxTable s)
                             (newFirstId svc s first))
             ++ [withId (TxTable.serial (futureTxTable s)) tx] /\
           ~ In stored
               (TxTable.rows (TxTable.clearBeforeId (futureTxTable s)
                                (newFirstId svc s first))) /\
           TxTable.find (futureTxTable s') (pubKey tx) (nonce tx) =
             Some (withId (TxTable.serial (futureTxTable s)) tx)))).
Proof.
  split.
  - intros calls. induction calls as [|[fuel tx] calls IH]; intros s Hs; simpl;
      [assumption|].
    apply IH. now apply (add_keeps_future_keys svc fuel tx s).
  - intros fuel tx s la stored Hok Hla Hlt Hfind.
    rewrite (add_future_branch svc fuel tx s la Hok Hla Hlt).
    destruct (find_Some _ _ _ _ Hfind) as [Hin [Hpk Hn]].
    split.
    + intros Hroom. unfold ensureFutureTxSpace, bind, Future.read.
      replace (maxFutureTxs svc <=? TxTable.count (futureTxTable s)) with false
        by (symmetry; apply Z.leb_gt; lia).
      unfold ret, Future.add. rewrite add_one. unfold TxTable.insert.
      now rewrite Hfind.
    + intros first Hnd Hfull Hfirst.
      unfold ensureFutureTxSpace, bind, Future.read.
      replace (maxFutureTxs svc <=? TxTable.count (futureTxTable s)) with true
        by (symmetry; now apply Z.leb_le).
      rewrite Hfirst. fold (newFirstId svc s first).
      unfold start, Future.clearBeforeId, ret, Future.add.
      cbn [readyTxTable futureTxTable]. rewrite add_one.
      set (cleared := TxTable.clearBeforeId (futureTxTable s)
                        (newFirstId svc s first)).
      split.
      * intros Hkept.
        assert (Hstill : In stored (TxTable.rows cleared)).
        { unfold cleared, TxTable.clearBeforeId; simpl. apply filter_In.
          split; [assumption|]. apply negb_true_iff, Z.ltb_ge. exact Hkept. }
        split; [|exact Hstill].
        destruct (TxTable.insert cleared tx) as [tb'|] eqn:Eins; [|reflexivity].
        exfalso. apply insert_Some in Eins as [Hnone _].
        exact (find_None _ _ _ Hnone stored Hstill Hpk Hn).
      * intros Hgone.
        assert (Hout : ~ In stored (TxTable.rows cleared)).
        { unfold cleared, TxTable.clearBeforeId; simpl. intros H.
          apply filter_In in H as [_ H].
          apply negb_true_iff, Z.ltb_ge in H. lia. }
        assert (Hnone : TxTable.find cleared (pubKey tx) (nonce tx) = None).
        { destruct (TxTable.find cleared (pubKey tx) (nonce tx)) as [r|] eqn:E;
            [|reflexivity].
          exfalso. apply find_Some in E as [Hr [Hrpk Hrn]]. apply Hout.
          replace stored with r; [exact Hr|].
          apply (NoDup_keys_eq _ r stored Hnd); auto.
          - unfold cleared, TxTable.clearBeforeId in Hr; simpl in Hr.
            now apply filter_In in Hr.
          - unfold keyOf. congruence. }
        unfold TxTable.insert. rewrite Hnone.
        eexists. split; [reflexivity|]. cbn [readyTxTable futureTxTable TxTable.rows].
        split; [reflexivity|]. split; [reflexivity|]. split; [exact Hout|].
        unfold TxTable.find in *. cbn [TxTable.rows]. rewrite find_app, Hnone.
        simpl. rewrite hasKey_withId. unfold hasKey.
        now rewrite String.eqb_refl, Z.eqb_refl.
Qed.

Lemma C8_witness :
  NoDup (map keyOf (TxTable.rows (futureTxTable
           (addAll sampleService [(1%nat, op 7 20 "second")] waitingPools)))) /\
  add sampleService 1 (op 7 20 "second") waitingPools =
    Thrown DuplicateKey waitingPools /\
  exists s',
    add oneSlotService 1 (op 7 20 "second") waitingPools = Returned [] s' /\
    TxTable.find (futureTxTable s') alice 7 = Some (withId 2 (op 7 20 "second")).
Proof.
  split; [|split].
  - apply (proj1 (C8_future_duplicate_supersedes_only_by_eviction sampleService)).
    vm_compute. repeat constructor. intros [].
  - apply (proj2 (C8_future_duplicate_supersedes_only_by_eviction sampleService)
             1%nat (op 7 20 "second") waitingPools 5
             (mkTx (Some 1) alice 7 10 "first"));
      reflexivity.
  - destruct (proj2 (C8_future_duplicate_supersedes_only_by_eviction oneSlotService)
                1%nat (op 7 20 "second") waitingPools 5
                (mkTx (Some 1) alice 7 10 "first"))
      as [_ Hfull]; [reflexivity | reflexivity | reflexivity | reflexivity |].
    destruct (Hfull (mkTx (Some 1) alice 7 10 "first")) as [_ Hgone].
    + vm_compute. repeat constructor. intros [].
    + vm_compute. discriminate.
    + reflexivity.
    + destruct Hgone as [s' [Hrun [_ [_ [_ Hfound]]]]].
      * vm_compute. reflexivity.
      * exists s'. split; [exact Hrun | exact Hfound].
Defined.

(** C8 (counterexample).  The future table holds nonce 7 of an account; a
    second transaction for that account and nonce is submitted.  The call
    does not return, and the stored record is not the submitted one. *)
Lemma C8_counterexample_no_supersession :
  add sampleService 1 (op 7 20 "second") waitingPools
    = Thrown DuplicateKey waitingPools /\
  TxTable.find (futureTxTable waitingPools) alice 7
    = Some (withId 1 (op 7 10 "first")) /\
  ~ supersedes sampleService 1 (op 7 20 "second") waitingPools.
Proof.
  split; [reflexivity|]. split; [reflexivity|].
  intros [l [s' [i [Hrun _]]]]. vm_compute in Hrun. discriminate Hrun.
Qed.

(** C7 (failing input).  The future table holds three records, with ids 1, 4
    and 5, under a cap of 2: two records are in excess.  The threshold
    [first.txId + 2 = 3] removes the record with id 1 alone, and the table
    holds three records again once the new one is added. *)
Theorem C7_eviction_counts_ids_not_records :
  map idOf (TxTable.rows (futureTxTable crowdedPools)) = [1; 4; 5] /\
  exists s',
    add tightService 1 (op 12 10 "a12") crowdedPools = Returned [] s' /\
    map idOf (TxTable.rows (futureTxTable s')) = [4; 5; 6] /\
    maxFutureTxs tightService < TxTable.count (futureTxTable s').
Proof.
  split; [reflexivity|]. eexists. split; [reflexivity|].
  split; reflexivity.
Qed.

End FutureKeys.

(** ** The run of nonces of an account in the ready table *)

Section ReadyRun.

Variable chain : string -> Z.

Lemma sameKeys_refl tb : sameKeys tb tb.
Proof. split; [tauto | auto]. Qed.

Lemma sameKeys_trans tb1 tb2 tb3 :
  sameKeys tb1 tb2 -> sameKeys tb2 tb3 -> sameKeys tb1 tb3.
Proof.
  intros [H1 N1] [H2 N2]. split; [|auto].
  intros k. rewrite H2. apply H1.
Qed.

Lemma key_eq_dec (a b : string * Z) : {a = b} + {a <> b}.
Proof. decide equality; [apply Z.eq_dec | apply string_dec]. Qed.

Lemma reinsert_sameKeys tb r :
  In (keyOf r) (map keyOf (TxTable.rows tb)) -> sameKeys tb (reinsert tb r).
Proof.
  intros Hr. split; [|apply reinsert_NoDup_keys].
  intros k. split.
  - intros Hk. apply in_map_iff in Hk as [x [Hx Hin]].
    apply reinsert_In in Hin as [[Hin _]| ->].
    + subst k. now apply in_map.
    + subst k. now rewrite keyOf_withId.
  - intros Hk. destruct (key_eq_dec k (keyOf r)) as [->|Hne].
    + apply in_map_iff. exists (withId (TxTable.serial tb) r).
      split; [reflexivity|]. apply reinsert_In. now right.
    + apply in_map_iff in Hk as [x [Hx Hin]]. apply in_map_iff. exists x.
      split; [assumption|]. apply reinsert_In. left. split; [assumption|].
      congruence.
Qed.

Lemma reinsertAll_sameKeys l : forall tb,
  (forall r, In r l -> In (keyOf r) (map keyOf (TxTable.rows tb))) ->
  sameKeys tb (fold_left reinsert l tb).
Proof.
  induction l as [|r l IH]; intros tb H; simpl; [apply sameKeys_refl|].
  assert (H1 : sameKeys tb (reinsert tb r)) by (apply reinsert_sameKeys, H; now left).
  apply (sameKeys_trans _ _ _ H1). apply IH.
  intros p Hp. apply (proj1 H1). apply H. now right.
Qed.

Lemma poolsOf_promiseAll ps s : poolsOf (promiseAll ps s) = s.
Proof. induction ps as [|[e|] ps IH]; simpl; auto. Qed.

Lemma poolsOf_promiseAll_then {A} ps (v : A) s :
  poolsOf ((promiseAll ps ;;; ret v) s) = s.
Proof.
  pose proof (poolsOf_promiseAll ps s) as H. unfold bind.
  destruct (promiseAll ps s); simpl in *; auto.
Qed.

(** However the loop over the pages ends, the ready table stores the same
    (account, nonce) pairs as before. *)
Lemma replaceFollowups_sameKeys svc pk fuel : forall n ps s,
  sameKeys (readyTxTable s)
    (readyTxTable (poolsOf (replaceFollowups svc fuel pk n ps s))).
Proof.
  induction fuel as [|fuel IH]; intros n ps s; simpl; [apply sameKeys_refl|].
  unfold bind at 1, Ready.read.
  remember (TxTable.findAfter (readyTxTable s) pk n (txQueryLimit svc)) as page
    eqn:Hdef.
  assert (Hpage : forall r, In r page -> In r (TxTable.rows (readyTxTable s)))
    by (subst page; intros r Hr; now apply findAfter_In in Hr).
  clear Hdef. destruct page as [|first rest]; [apply sameKeys_refl|].
  remember (first :: rest) as page eqn:Epage.
  rewrite (bind_Returned _ _ _ _ _ (reinsertAll_closed page ps s)).
  assert (H1 : sameKeys (readyTxTable s) (fold_left reinsert page (readyTxTable s))).
  { apply reinsertAll_sameKeys. intros r Hr. apply in_map. now apply Hpage. }
  destruct (Nat.ltb (List.length page) (txQueryLimit svc)); [exact H1|].
  eapply sameKeys_trans; [exact H1|]. apply IH.
Qed.

Lemma replaceReadyTx_sameKeys svc fuel la tx s :
  sameKeys (readyTxTable s)
    (readyTxTable (poolsOf (replaceReadyTx svc fuel la tx s))).
Proof.
  destruct (TxTable.find (readyTxTable s) (pubKey tx) (nonce tx)) as [existing|] eqn:Ef.
  - destruct (isRewardBetter tx existing) eqn:Eb.
    + rewrite (replaceReadyTx_better _ _ _ _ _ _ Ef Eb). cbv zeta.
      assert (H1 : sameKeys (readyTxTable s) (reinsert (readyTxTable s) tx)).
      { apply reinsert_sameKeys. apply find_Some in Ef as [Hin [Hpk Hn]].
        apply in_map_iff. exists existing. split; [|assumption].
        unfold keyOf; congruence. }
      destruct (la - 1 =? nonce tx); [exact H1|].
      rewrite poolsOf_bind_pure by (intros; apply poolsOf_promiseAll_then).
      eapply sameKeys_trans; [exact H1|].
      apply (replaceFollowups_sameKeys svc (pubKey tx) fuel (nonce tx) [None; None]
               (mkPools (reinsert (readyTxTable s) tx) (futureTxTable s))).
    + unfold replaceReadyTx, bind, Ready.read. rewrite Ef, Eb. apply sameKeys_refl.
  - unfold replaceReadyTx, bind, Ready.read. rewrite Ef. apply sameKeys_refl.
Qed.

Lemma readyInv_sameKeys tb tb' :
  sameKeys tb tb' -> readyInv chain tb -> readyInv chain tb'.
Proof.
  intros [Hk Hn] [Hnd Hrun]. split; [auto|].
  intros pk. destruct (Hrun pk) as [upto [Hle Hu]]. exists upto.
  split; [assumption|]. intros n. rewrite Hk. apply Hu.
Qed.

(** With the ready table in order, the lowest acceptable nonce of an
    account is the bound of its run. *)
Lemma readyInv_lowest s pk la s' :
  readyInv chain (readyTxTable s) ->
  LowestAcceptableNonce (chain pk) pk s = Returned la s' ->
  readyInvAt chain pk la (readyTxTable s).
Proof.
  intros Hinv Hla. split; [assumption|].
  destruct Hinv as [Hnd Hrun]. destruct (Hrun pk) as [upto [Hle Hu]].
  assert (Hkey : forall n, In (pk, n) (map keyOf (TxTable.rows (readyTxTable s))) <->
            exists r, In r (TxTable.rows (readyTxTable s)) /\ pubKey r = pk /\ nonce r = n).
  { intros n. rewrite in_map_iff. split; intros [r H]; exists r.
    - destruct H as [H1 H2]. inversion H1. auto.
    - destruct H as [H1 [H2 H3]]. unfold keyOf. split; [congruence | assumption]. }
  apply LowestAcceptableNonce_Returned in Hla as [_ [[Hnone [Hpos Ela]]|[m [Hm Ela]]]];
    subst la.
  - assert (upto = chain pk).
    { destruct (Z.eq_dec upto (chain pk)); [assumption|]. exfalso.
      assert (Hin : In (pk, chain pk) (map keyOf (TxTable.rows (readyTxTable s))))
        by (apply Hu; lia).
      apply Hkey in Hin as [r [Hr [Hpk _]]].
      exact (proj1 (nextNonceOf_None _ _) Hnone r Hr Hpk). }
    subst upto. split; [lia | assumption].
  - apply nextNonceOf_Some in Hm as [[r [Hr [Hpk Hn]]] Hlt].
    assert (Hin : In (pk, m - 1) (map keyOf (TxTable.rows (readyTxTable s))))
      by (apply Hkey; eauto).
    apply Hu in Hin.
    assert (Htop : In (pk, upto - 1) (map keyOf (TxTable.rows (readyTxTable s))))
      by (apply Hu; lia).
    apply Hkey in Htop as [r' [Hr' [Hpk' Hn']]]. specialize (Hlt r' Hr' Hpk').
    assert (m = upto) by lia. subst m.
    replace (Z.max (chain pk) upto) with upto by lia.
    split; [lia | assumption].
Qed.

Lemma add_Some_keys txs : forall tb tb',
  TxTable.add tb txs = Some tb' ->
  map keyOf (TxTable.rows tb') = map keyOf (TxTable.rows tb) ++ map keyOf txs.
Proof.
  induction txs as [|tx txs IH]; intros tb tb'; simpl.
  - intros H; inversion H. now rewrite app_nil_r.
  - destruct (TxTable.insert tb tx) as [tb1|] eqn:E; [|discriminate].
    intros H. rewrite (IH _ _ H). apply insert_Some in E as [_ ->]. simpl.
    rewrite map_app, <- app_assoc. reflexivity.
Qed.

(** The scan of a page of one account promotes the nonces from the floor it
    starts at up to the floor it ends at. *)
Lemma scanFutureTxs_spec pk page : forall floor toRemove toAdd,
  (forall r, In r page -> pubKey r = pk) ->
  exists floor' removed promoted,
    scanFutureTxs floor toRemove toAdd page =
      (floor', toRemove ++ removed, toAdd ++ promoted) /\
    floor <= floor' /\
    (forall k, In k (map keyOf promoted) <->
               exists n, k = (pk, n) /\ floor <= n < floor').
Proof.
  induction page as [|tx page IH]; intros floor toRemove toAdd Hpk; simpl.
  - exists floor, [], []. rewrite !app_nil_r. split; [reflexivity|].
    split; [lia|]. intros k; simpl. split; [tauto|]. intros [n [_ Hn]]; lia.
  - assert (Hpk' : forall r, In r page -> pubKey r = pk)
      by (intros r Hr; apply Hpk; now right).
    destruct (Z.ltb_spec (nonce tx) floor) as [Hlt|Hge].
    + destruct (IH floor (toRemove ++ [tx]) toAdd Hpk')
        as [floor' [removed [promoted [Hrun [Hle Hk]]]]].
      exists floor', (tx :: removed), promoted. rewrite Hrun, <- app_assoc.
      auto.
    + destruct (Z.eqb_spec floor (nonce tx)) as [Heq|Hne].
      * destruct (IH (floor + 1) (toRemove ++ [tx]) (toAdd ++ [withoutId tx]) Hpk')
          as [floor' [removed [promoted [Hrun [Hle Hk]]]]].
        exists floor', (tx :: removed), (withoutId tx :: promoted).
        rewrite Hrun, <- !app_assoc. split; [reflexivity|]. split; [lia|].
        intros k; simpl. rewrite Hk. split.
        -- intros [<-|[n [-> Hn]]].
           ++ exists floor. split; [|lia]. unfold keyOf; simpl.
              rewrite (Hpk tx (or_introl eq_refl)). congruence.
           ++ exists n. split; [reflexivity | lia].
        -- intros [n [-> Hn]]. destruct (Z.eq_dec n floor) as [->|].
           ++ left. unfold keyOf; simpl.
              rewrite (Hpk tx (or_introl eq_refl)). congruence.
           ++ right. exists n. split; [reflexivity | lia].
      * exists floor, [], []. rewrite !app_nil_r. split; [reflexivity|].
        split; [lia|]. intros k; simpl. split; [tauto|]. intros [n [_ Hn]]; lia.
Qed.

Lemma readyInvAt_extend pk floor floor' tb tb' added :
  readyInvAt chain pk floor tb ->
  map keyOf (TxTable.rows tb') = map keyOf (TxTable.rows tb) ++ added ->
  NoDup (map keyOf (TxTable.rows tb')) ->
  floor <= floor' ->
  (forall k, In k added <-> exists n, k = (pk, n) /\ floor <= n < floor') ->
  readyInvAt chain pk floor' tb'.
Proof.
  intros [[Hnd Hrun] [Hle Hat]] Hkeys Hnd' Hfl Hadded.
  assert (Hin : forall pk' n, In (pk', n) (map keyOf (TxTable.rows tb')) <->
            In (pk', n) (map keyOf (TxTable.rows tb)) \/
            (pk' = pk /\ floor <= n < floor')).
  { intros pk' n. rewrite Hkeys, in_app_iff, Hadded. split.
    - intros [H|[m [E Hm]]]; [now left|]. inversion E; subst. now right.
    - intros [H|[-> Hn]]; [now left|]. right. exists n. auto. }
  split; [split; [assumption|] | split; [lia|]].
  - intros pk'. destruct (string_dec pk' pk) as [->|Hne].
    + exists floor'. split; [lia|]. intros n. rewrite Hin, Hat. split.
      * intros [H|[_ H]]; lia.
      * intros H. destruct (Z.lt_ge_cases n floor); [left; lia | right; split; [reflexivity|lia]].
    + destruct (Hrun pk') as [upto [Hu1 Hu2]]. exists upto. split; [assumption|].
      intros n. rewrite Hin, Hu2. split; [|now left].
      intros [H|[E _]]; [assumption | contradiction].
  - intros n. rewrite Hin, Hat. split.
    + intros [H|[_ H]]; lia.
    + intros H. destruct (Z.lt_ge_cases n floor); [left; lia | right; split; [reflexivity|lia]].
Qed.

(** However the promotion ends, the ready table is in order. *)
Lemma tryMoveFutureTxs_readyInv svc pk fuel : forall floor s,
  readyInvAt chain pk floor (readyTxTable s) ->
  readyInv chain (readyTxTable (poolsOf (tryMoveFutureTxs svc fuel pk floor s))).
Proof.
  induction fuel as [|fuel IH]; intros floor s Hinv; simpl; [exact (proj1 Hinv)|].
  unfold bind at 1, Future.read.
  destruct (scanFutureTxs_spec pk
              (TxTable.pubKeyTxsInNonceOrder (futureTxTable s) pk (txQueryLimit svc))
              floor [] [])
    as [floor' [removed [promoted [Hscan [Hle Hk]]]]].
  { intros r Hr. now apply pubKeyTxsInNonceOrder_In in Hr. }
  rewrite Hscan. simpl app.
  unfold bind at 1, Ready.add.
  destruct (TxTable.add (readyTxTable s) promoted) as [tb'|] eqn:Eadd;
    [|exact (proj1 Hinv)].
  assert (Hinv' : readyInvAt chain pk floor' tb').
  { apply (readyInvAt_extend pk floor floor' (readyTxTable s) tb'
             (map keyOf promoted)); auto.
    - now apply add_Some_keys.
    - eapply add_NoDup_keys; eauto. apply Hinv. }
  unfold bind at 1, Future.remove. simpl readyTxTable. simpl futureTxTable.
  destruct (Nat.eqb (List.length removed) (txQueryLimit svc)).
  - apply IH. exact Hinv'.
  - exact (proj1 Hinv').
Qed.

(** [add] keeps the ready table in order, however it ends, as long as the
    wallet service reports the chain nonce of the account. *)
Lemma add_readyInv svc fuel tx s :
  snd (checkTx svc tx) = chain (pubKey tx) ->
  readyInv chain (readyTxTable s) ->
  readyInv chain (readyTxTable (poolsOf (add svc fuel tx s))).
Proof.
  intros Hchain Hinv. unfold add.
  destruct (checkTx svc tx) as [failures c]; simpl in Hchain; subst c.
  destruct (Nat.ltb 0 (List.length failures)); [exact Hinv|].
  unfold bind at 1.
  destruct (LowestAcceptableNonce (chain (pubKey tx)) (pubKey tx) s)
    as [la s1|e s1|s1] eqn:Ela;
    try (pose proof (LowestAcceptableNonce_reads (chain (pubKey tx)) (pubKey tx) s) as Hs;
         rewrite Ela in Hs; simpl in Hs; subst s1; exact Hinv).
  pose proof (readyInv_lowest s (pubKey tx) la s1 Hinv Ela) as Hat.
  apply LowestAcceptableNonce_Returned in Ela as [-> _].
  destruct (nonce tx <? la).
  - eapply readyInv_sameKeys; [apply replaceReadyTx_sameKeys | exact Hinv].
  - rewrite poolsOf_bind_pure by reflexivity.
    destruct (Z.eqb_spec la (nonce tx)) as [Heq|Hne].
    + unfold bind at 1, Ready.add.
      destruct (TxTable.add (readyTxTable s) [tx]) as [tb'|] eqn:Eadd;
        [|exact Hinv].
      apply tryMoveFutureTxs_readyInv. simpl readyTxTable.
      apply (readyInvAt_extend (pubKey tx) la (la + 1) (readyTxTable s) tb'
               (map keyOf [tx])).
      * exact Hat.
      * now apply add_Some_keys.
      * eapply add_NoDup_keys; eauto. apply Hinv.
      * lia.
      * intros k; simpl. split.
        -- intros [<-|[]]. exists (nonce tx). split; [reflexivity | lia].
        -- intros [n [-> Hn]]. left. unfold keyOf. f_equal. lia.
    + apply (preserves_bind (fun s => readyInv chain (readyTxTable s)));
        [|intros _; apply (Future_add_keeps_ready (readyInv chain)) | exact Hinv].
      apply (ensureFutureTxSpace_keeps_ready svc (readyInv chain)).
Qed.

Lemma readyInv_empty : readyInv chain TxTable.empty.
Proof.
  split; [constructor|]. intros pk. exists (chain pk). split; [lia|].
  intros n; simpl. split; [tauto | lia].
Qed.

Lemma addAll_readyInv svc calls : forall s,
  (forall tx, snd (checkTx svc tx) = chain (pubKey tx)) ->
  readyInv chain (readyTxTable s) ->
  readyInv chain (readyTxTable (addAll svc calls s)).
Proof.
  induction calls as [|[fuel tx] calls IH]; intros s Hchain Hinv; simpl;
    [assumption|].
  apply IH; [assumption|]. now apply add_readyInv.
Qed.

Lemma noncesOf_In tb pk n :
  In n (noncesOf tb pk) <-> In (pk, n) (map keyOf (TxTable.rows tb)).
Proof.
  unfold noncesOf. rewrite !in_map_iff. split; intros [r [H1 H2]]; exists r.
  - apply filter_In in H2 as [H2 H3]. apply String.eqb_eq in H3.
    unfold keyOf. split; [congruence | assumption].
  - inversion H1. split; [reflexivity|]. apply filter_In. split; [assumption|].
    now apply String.eqb_eq.
Qed.

Lemma noncesOf_NoDup tb pk :
  NoDup (map keyOf (TxTable.rows tb)) -> NoDup (noncesOf tb pk).
Proof.
  unfold noncesOf. induction (TxTable.rows tb) as [|r l IH]; simpl; intros H;
    [constructor|].
  inversion H as [|? ? Hnin Hnd]; subst.
  destruct (String.eqb_spec (pubKey r) pk) as [Hpk|Hpk]; simpl; auto.
  constructor; auto. intros Hin. apply Hnin.
  apply in_map_iff in Hin as [x [Hx Hin]]. apply filter_In in Hin as [Hin Hxpk].
  apply String.eqb_eq in Hxpk. apply in_map_iff. exists x. split; [|assumption].
  unfold keyOf. congruence.
Qed.

End ReadyRun.

(** C1 (amended).  Let the wallet service report one chain nonce per
    account.  After any sequence of [add] calls on empty pools, however
    each call ends, the nonces the ready table holds for an account are,
    each once, the run that starts at the chain nonce of the account and
    ends just below its lowest acceptable nonce. *)
Theorem C1_ready_nonces_run_from_chain_nonce svc chain calls pk :
  (forall tx, snd (checkTx svc tx) = chain (pubKey tx)) ->
  exists upto,
    isRun (noncesOf (readyTxTable (addAll svc calls emptyPools)) pk)
      (chain pk) upto /\
    forall la s',
      LowestAcceptableNonce (chain pk) pk (addAll svc calls emptyPools)
        = Returned la s' ->
      la = upto.
Proof.
  intros Hchain.
  assert (Hinv : readyInv chain (readyTxTable (addAll svc calls emptyPools)))
    by (apply addAll_readyInv; [assumption | apply readyInv_empty]).
  set (s := addAll svc calls emptyPools) in *.
  destruct (proj2 Hinv pk) as [upto [Hle Hu]]. exists upto. split.
  - split; [apply noncesOf_NoDup, Hinv|]. split; [assumption|].
    intros n. rewrite noncesOf_In. apply Hu.
  - intros la s' Hla.
    destruct (readyInv_lowest chain s pk la s' Hinv Hla) as [_ [Hle' Hat]].
    destruct (Z.lt_trichotomy la upto) as [H|[H|H]]; [|assumption|]; exfalso.
    + assert (In (pk, la) (map keyOf (TxTable.rows (readyTxTable s))))
        by (apply Hu; lia).
      apply Hat in H0. lia.
    + assert (In (pk, upto) (map keyOf (TxTable.rows (readyTxTable s))))
        by (apply Hat; lia).
      apply Hu in H0. lia.
Qed.

Lemma C1_witness :
  exists upto,
    isRun (noncesOf (readyTxTable samplePools) alice) 5 upto /\
    forall la s',
      LowestAcceptableNonce 5 alice samplePools = Returned la s' -> la = upto.
Proof.
  apply (C1_ready_nonces_run_from_chain_nonce sampleService (fun _ => 5)
           [(3%nat, op 7 10 "seven"); (3%nat, op 6 10 "six"); (3%nat, op 5 10 "five")]
           alice).
  intros tx. reflexivity.
Defined.

(** C1 (counterexample).  The wallet service reports chain nonce 5 when
    nonce 5 of an account is submitted and chain nonce 7 when its nonce 7
    is submitted.  Both calls store their transaction in the ready table,
    which then holds the nonces 5 and 7 of the account and not 6: no
    contiguous run, wherever it is taken to start. *)
Lemma C1_counterexample_chain_nonce_moves :
  add sampleService 1 (op 5 10 "five") emptyPools = Returned [] oneReadyPools /\
  add laterService 3 (op 7 10 "seven") oneReadyPools = Returned [] gappedPools /\
  noncesOf (readyTxTable gappedPools) alice = [5; 7] /\
  (forall from upto,
     ~ isRun (noncesOf (readyTxTable gappedPools) alice) from upto).
Proof.
  split; [reflexivity|]. split; [reflexivity|].
  assert (E : noncesOf (readyTxTable gappedPools) alice = [5; 7]) by reflexivity.
  split; [exact E|].
  intros from upto [_ [_ Hrun]]. rewrite E in Hrun.
  assert (H5 : from <= 5 < upto) by (apply Hrun; simpl; tauto).
  assert (H7 : from <= 7 < upto) by (apply Hrun; simpl; tauto).
  assert (H6 : In 6 [5; 7]) by (apply Hrun; lia).
  simpl in H6. destruct H6 as [H|[H|[]]]; discriminate H.
Qed.

(** ** Promotion of three transactions submitted in any order *)

Section Promotion.

Lemma Permutation_3 {A} (a b c : A) l :
  Permutation l [a; b; c] ->
  l = [a; b; c] \/ l = [a; c; b] \/ l = [b; a; c] \/
  l = [b; c; a] \/ l = [c; a; b] \/ l = [c; b; a].
Proof.
  intros H. pose proof (Permutation_length H) as Hlen.
  destruct l as [|x [|y [|z [|]]]]; try discriminate. clear Hlen.
  assert (Hx : In x [a; b; c]) by (apply (Permutation_in _ H); now left).
  destruct Hx as [<-|[<-|[<-|[]]]].
  - apply Permutation_cons_inv in H. symmetry in H.
    apply Permutation_length_2_inv in H as [H|H]; inversion H; subst; tauto.
  - assert (H' : Permutation (b :: [y; z]) (b :: [a; c])).
    { rewrite H. apply perm_swap. }
    apply Permutation_cons_inv in H'. symmetry in H'.
    apply Permutation_length_2_inv in H' as [H'|H']; inversion H'; subst; tauto.
  - assert (H' : Permutation (c :: [y; z]) (c :: [a; b])).
    { rewrite H. apply perm_trans with [a; c; b];
        [apply perm_skip, perm_swap | apply perm_swap]. }
    apply Permutation_cons_inv in H'. symmetry in H'.
    apply Permutation_length_2_inv in H' as [H'|H']; inversion H'; subst; tauto.
Qed.

Lemma tryMoveFutureTxs_S svc fuel pk n :
  tryMoveFutureTxs svc (S fuel) pk n =
  (futureTxs <- Future.read
     (fun tb => TxTable.pubKeyTxsInNonceOrder tb pk (txQueryLimit svc)) ;;
   let '(lowest', futureTxsToRemove, txsToAdd) :=
     scanFutureTxs n [] [] futureTxs in
   Ready.add txsToAdd ;;;
   Future.remove futureTxsToRemove ;;;
   if Nat.eqb (List.length futureTxsToRemove) (txQueryLimit svc)
   then tryMoveFutureTxs svc fuel pk lowest'
   else ret tt).
Proof. reflexivity. Qed.

(** Comparisons between symbolic nonces, settled by arithmetic. *)
Ltac settle :=
  match goal with
  | |- context [Z.eqb ?a ?b] =>
      first [ replace (Z.eqb a b) with true by (symmetry; apply Z.eqb_eq; lia)
            | replace (Z.eqb a b) with false by (symmetry; apply Z.eqb_neq; lia) ]
  | |- context [Z.ltb ?a ?b] =>
      first [ replace (Z.ltb a b) with true by (symmetry; apply Z.ltb_lt; lia)
            | replace (Z.ltb a b) with false by (symmetry; apply Z.ltb_ge; lia) ]
  | |- context [Z.leb ?a ?b] =>
      first [ replace (Z.leb a b) with true by (symmetry; apply Z.leb_le; lia)
            | replace (Z.leb a b) with false by (symmetry; apply Z.leb_gt; lia) ]
  | |- context [String.eqb ?a ?a] => rewrite (String.eqb_refl a)
  | |- context [Z.max ?a ?b] =>
      first [ replace (Z.max a b) with a by lia | replace (Z.max a b) with b by lia ]
  end.

(** One round of evaluation of the service on explicit tables. *)
Ltac evaluate :=
  lazy beta iota zeta delta
      [add replaceReadyTx ensureFutureTxSpace scanFutureTxs
       LowestAcceptableNonce BigNumber_from bind ret throw start poolsOf
       Ready.read Ready.add Ready.remove Future.read Future.add Future.remove
       Future.clearBeforeId
       TxTable.add TxTable.insert TxTable.find TxTable.remove
       TxTable.pubKeyTxsInNonceOrder TxTable.nextNonceOf TxTable.count
       TxTable.First TxTable.inNonceOrder TxTable.insertByNonce TxTable.rows
       TxTable.serial TxTable.empty emptyPools
       readyTxTable futureTxTable txQueryLimit maxFutureTxs checkTx
       hasKey sameKey withId withoutId idOf txId pubKey nonce tokenRewardAmount
       payload
       List.find List.filter List.fold_left List.fold_right List.map
       List.app List.length List.existsb Nat.eqb Nat.ltb Nat.leb negb andb orb
       fst snd Z.of_nat Pos.of_succ_nat Pos.succ];
  rewrite ?firstn_cons, ?firstn_nil, ?firstn_O, ?tryMoveFutureTxs_S.

(** The innermost pending [add] of the goal is run to its outcome. *)
Ltac run_add Hcheck :=
  match goal with
  | |- context [poolsOf (add ?svc ?f ?t ?s)] =>
      lazymatch s with
      | context [add] => fail
      | _ =>
        let E := fresh "E" in
        eassert (E : add svc f t s = _);
        [ unfold add; cbn [checkTx]; rewrite Hcheck by (simpl; tauto);
          repeat (progress (evaluate; repeat settle)); reflexivity
        | rewrite E; clear E; cbn [poolsOf] ]
      end
  end.

(** C3 (amended).  For one account with a chain nonce N of at least 1, the
    nonces up to N+2 being numbers that ethers converts (below
    [MAX_SAFE]), room for at least 2 future transactions, a positive page
    size and empty pools, transactions with the nonces N+2, N+1 and N,
    submitted in any order, all end up in the ready table, in nonce order, and the future
    table is empty. *)
Theorem C3_three_nonces_in_any_order_all_become_ready
    svc N t0 t1 t2 fuel order :
  1 <= N ->
  N + 2 < MAX_SAFE ->
  2 <= maxFutureTxs svc ->
  (1 <= txQueryLimit svc)%nat ->
  (3 <= fuel)%nat ->
  pubKey t1 = pubKey t0 -> pubKey t2 = pubKey t0 ->
  nonce t0 = N -> nonce t1 = N + 1 -> nonce t2 = N + 2 ->
  (forall t, In t [t0; t1; t2] -> checkTx svc t = ([], N)) ->
  Permutation order [t2; t1; t0] ->
  TxTable.rows (readyTxTable (addAll svc (map (pair fuel) order) emptyPools))
    = [withId 1 t0; withId 2 t1; withId 3 t2] /\
  TxTable.rows (futureTxTable (addAll svc (map (pair fuel) order) emptyPools))
    = [].
Proof.
  intros HN _ Hcap Hlim Hfuel Hpk1 Hpk2 Hn0 Hn1 Hn2 Hcheck Hperm.
  destruct svc as [limit cap check].
  destruct t0 as [o0 pk n0 r0 p0], t1 as [o1 pk1 n1 r1 p1],
           t2 as [o2 pk2 n2 r2 p2].
  cbn [pubKey nonce maxFutureTxs txQueryLimit checkTx] in *. subst.
  destruct fuel as [|[|[|fuel]]]; try lia.
  apply Permutation_3 in Hperm.
  destruct limit as [|[|[|limit]]]; try lia;
    destruct Hperm as [->|[->|[->|[->|[->| ->]]]]]; cbn [addAll map];
    run_add Hcheck; run_add Hcheck; run_add Hcheck; split; reflexivity.
Qed.

Lemma C3_witness :
  TxTable.rows (readyTxTable
     (addAll sampleService
        (map (pair 3%nat) [op 6 10 "six"; op 7 10 "seven"; op 5 10 "five"])
        emptyPools))
    = [withId 1 (op 5 10 "five"); withId 2 (op 6 10 "six"); withId 3 (op 7 10 "seven")] /\
  TxTable.rows (futureTxTable
     (addAll sampleService
        (map (pair 3%nat) [op 6 10 "six"; op 7 10 "seven"; op 5 10 "five"])
        emptyPools))
    = [].
Proof.
  apply (C3_three_nonces_in_any_order_all_become_ready sampleService 5
           (op 5 10 "five") (op 6 10 "six") (op 7 10 "seven") 3
           [op 6 10 "six"; op 7 10 "seven"; op 5 10 "five"]).
  - lia.
  - unfold MAX_SAFE; lia.
  - simpl; lia.
  - simpl; lia.
  - lia.
  - reflexivity.
  - reflexivity.
  - reflexivity.
  - reflexivity.
  - reflexivity.
  - intros t _. reflexivity.
  - apply perm_swap.
Defined.

(** C3 (counterexample).  With room for one future transaction, nonce 7 is
    evicted when nonce 6 arrives: after 7, 6, 5 (chain nonce 5) the ready
    table holds 5 and 6 only. *)
Lemma C3_counterexample_one_slot :
  map nonce (TxTable.rows (readyTxTable
     (addAll oneSlotService
        [(3%nat, op 7 10 "seven"); (3%nat, op 6 10 "six"); (3%nat, op 5 10 "five")]
        emptyPools))) = [5; 6] /\
  ~ inReady
      (addAll oneSlotService
        [(3%nat, op 7 10 "seven"); (3%nat, op 6 10 "six"); (3%nat, op 5 10 "five")]
        emptyPools)
      (op 7 10 "seven").
Proof.
  split; [reflexivity|]. intros [i Hin]. vm_compute in Hin.
  destruct Hin as [H|[H|[]]]; discriminate H.
Qed.

End Promotion.

(** ** Further facts on the sample data and on the edges of the
    configuration *)

Section Edges.


(** With a chain nonce of 0 and nothing ready for the account, [add] itself
    throws, whatever the nonce submitted. *)
Lemma add_chain_zero_throws svc fuel tx s :
  checkTx svc tx = ([], 0) ->
  TxTable.nextNonceOf (readyTxTable s) (pubKey tx) = None ->
  add svc fuel tx s = Thrown InvalidBigNumber s.
Proof.
  intros Hcheck Hnone. unfold add. rewrite Hcheck. simpl.
  unfold bind at 1. now rewrite (LowestAcceptableNonce_None _ _ _ Hnone).
Qed.

(** Where it is defined, the lowest acceptable nonce is the greater of the
    chain nonce and the next nonce of the ready table. *)
Lemma LowestAcceptableNonce_is_max c pk s la s' :
  LowestAcceptableNonce c pk s = Returned la s' ->
  la = Z.max c (match TxTable.nextNonceOf (readyTxTable s) pk with
                | Some m => m
                | None => c
                end).
Proof.
  intros H. apply LowestAcceptableNonce_Returned in H
    as [_ [[Hnone [_ Hla]]|[m [Hm Hla]]]].
  - rewrite Hnone. lia.
  - now rewrite Hm.
Qed.

Lemma remove_nothing tb : TxTable.remove tb [] = tb.
Proof.
  destruct tb as [l i]. unfold TxTable.remove; simpl. f_equal.
  induction l as [|a l IH]; simpl; congruence.
Qed.

(** With a page size of 0 the [do ... while] of [tryMoveFutureTxs] never
    ends: an empty page is fetched, nothing is removed, and 0 removals is
    the page size again. *)
Lemma tryMoveFutureTxs_page_size_zero svc fuel pk n s :
  txQueryLimit svc = 0%nat ->
  tryMoveFutureTxs svc fuel pk n s = Running s.
Proof.
  intros Hlim. revert n s; induction fuel as [|fuel IH]; intros n s;
    [reflexivity|].
  rewrite tryMoveFutureTxs_S.
  unfold bind at 1, Future.read, TxTable.pubKeyTxsInNonceOrder.
  rewrite Hlim, firstn_O. cbn [scanFutureTxs].
  unfold bind at 1, Ready.add. cbn [TxTable.add].
  unfold bind at 1, Future.remove. cbn [readyTxTable futureTxTable List.length Nat.eqb].
  rewrite remove_nothing, pools_eta.
  apply IH.
Qed.

(** What [ensureFutureTxSpace] does on a full table: everything below the
    id threshold goes. *)
Lemma ensureFutureTxSpace_full svc s f :
  maxFutureTxs svc <= TxTable.count (futureTxTable s) ->
  TxTable.First (futureTxTable s) = Some f ->
  ensureFutureTxSpace svc s =
  Returned tt
    (mkPools (readyTxTable s)
       (TxTable.clearBeforeId (futureTxTable s)
          (idOf f + (TxTable.count (futureTxTable s) - maxFutureTxs svc + 1)))).
Proof.
  intros Hfull Hfirst. unfold ensureFutureTxSpace, bind, Future.read.
  replace (maxFutureTxs svc <=? TxTable.count (futureTxTable s)) with true
    by (symmetry; now apply Z.leb_le).
  now rewrite Hfirst.
Qed.

Lemma filter_out_one_id (l : list TransactionData) x :
  NoDup (map idOf l) -> In x l ->
  S (List.length (filter (fun r => negb (idOf r =? idOf x)) l)) = List.length l.
Proof.
  induction l as [|a l IH]; simpl; intros Hnd Hin; [contradiction|].
  inversion Hnd as [|? ? Hnin Hnd']; subst.
  destruct Hin as [->|Hin].
  - rewrite Z.eqb_refl. simpl. f_equal.
    rewrite (filter_ext_in _ (fun _ => true)).
    + clear. induction l as [|b l IH]; simpl; congruence.
    + intros r Hr. apply negb_true_iff, Z.eqb_neq. intros E.
      apply Hnin. rewrite <- E. now apply in_map.
  - destruct (Z.eqb_spec (idOf a) (idOf x)) as [E|E]; simpl.
    + exfalso. apply Hnin. rewrite E. now apply in_map.
    + f_equal. now apply IH.
Qed.

(** On a table exactly at its cap, with ids that are all different, the
    eviction removes the oldest record and nothing else. *)
Lemma ensureFutureTxSpace_at_cap svc s f :
  TxTable.count (futureTxTable s) = maxFutureTxs svc ->
  NoDup (map idOf (TxTable.rows (futureTxTable s))) ->
  TxTable.First (futureTxTable s) = Some f ->
  exists s',
    ensureFutureTxSpace svc s = Returned tt s' /\
    readyTxTable s' = readyTxTable s /\
    TxTable.rows (futureTxTable s') =
      filter (fun r => negb (idOf r =? idOf f)) (TxTable.rows (futureTxTable s)) /\
    TxTable.count (futureTxTable s') = maxFutureTxs svc - 1.
Proof.
  intros Hcount Hnd Hfirst.
  rewrite (ensureFutureTxSpace_full svc s f) by (assumption || lia).
  eexists. split; [reflexivity|]. split; [reflexivity|].
  destruct (First_Some _ _ Hfirst) as [Hin Hmin].
  assert (Hrows : TxTable.rows (TxTable.clearBeforeId (futureTxTable s)
            (idOf f + (TxTable.count (futureTxTable s) - maxFutureTxs svc + 1))) =
          filter (fun r => negb (idOf r =? idOf f)) (TxTable.rows (futureTxTable s))).
  { unfold TxTable.clearBeforeId; simpl. apply filter_ext_in. intros r Hr.
    f_equal. specialize (Hmin r Hr).
    destruct (Z.eqb_spec (idOf r) (idOf f)) as [E|E].
    - apply Z.ltb_lt. lia.
    - apply Z.ltb_ge. lia. }
  cbn [futureTxTable]. split; [exact Hrows|].
  unfold TxTable.count in *. rewrite Hrows.
  pose proof (filter_out_one_id _ f Hnd Hin). lia.
Qed.

End Edges.


(** * Further properties of the service *)

(** ** Well-formed tables *)

Section WellFormed.

Lemma wfSerial_empty : wfSerial TxTable.empty.
Proof.
  split; [|simpl; lia]. constructor; simpl; try constructor.
  intros r [].
Qed.

Lemma wfSerial_filter (Q : TransactionData -> bool) tb :
  wfSerial tb ->
  wfSerial (TxTable.mk (filter Q (TxTable.rows tb)) (TxTable.serial tb)).
Proof.
  intros [[Hk Hi Hu] Hs]. split; [|exact Hs]. constructor; simpl.
  - now apply NoDup_map_filter.
  - intros r Hr. apply filter_In in Hr as [Hr _]. now apply Hi.
  - now apply NoDup_map_filter.
Qed.

Lemma wfSerial_insert tb tx tb' :
  TxTable.insert tb tx = Some tb' -> wfSerial tb -> wfSerial tb'.
Proof.
  intros Hins [[Hk Hi Hu] Hs].
  pose proof (insert_NoDup_keys _ _ _ Hins Hk) as Hk'.
  apply insert_Some in Hins as [_ ->]. split; [|simpl; lia].
  constructor; simpl.
  - exact Hk'.
  - intros r Hr. apply in_app_or in Hr as [Hr|[<-|[]]].
    + destruct (Hi r Hr) as [i [E Hlt]]. exists i. split; [assumption|lia].
    + exists (TxTable.serial tb). split; [reflexivity|lia].
  - rewrite map_app. apply NoDup_app; auto.
    + simpl. constructor; [tauto | constructor].
    + intros i Hin [E|[]]. apply in_map_iff in Hin as [r [Hr Hin]].
      destruct (Hi r Hin) as [j [Ej Hlt]]. unfold idOf in Hr, E.
      rewrite Ej in Hr. simpl in E. lia.
Qed.

Lemma wfSerial_add txs : forall tb tb',
  TxTable.add tb txs = Some tb' -> wfSerial tb -> wfSerial tb'.
Proof.
  induction txs as [|tx txs IH]; intros tb tb'; simpl.
  - intros H; now inversion H.
  - destruct (TxTable.insert tb tx) as [tb1|] eqn:E; [|discriminate].
    intros H Hwf. apply (IH tb1 tb' H). eapply wfSerial_insert; eauto.
Qed.

Lemma wfSerial_remove tb txs : wfSerial tb -> wfSerial (TxTable.remove tb txs).
Proof. apply wfSerial_filter. Qed.

Lemma wfSerial_clearBeforeId tb i :
  wfSerial tb -> wfSerial (TxTable.clearBeforeId tb i).
Proof. apply wfSerial_filter. Qed.

End WellFormed.

(** ** What [add] does to the table of each branch *)

Section Branches.

Lemma preserves_Ready_read_bind {A B} (I : Pools -> Prop)
    (f : TxTable.t -> A) (k : A -> Async B) :
  (forall tb, preserves I (k (f tb))) -> preserves I (bind (Ready.read f) k).
Proof. intros H s Hs. unfold bind, Ready.read. now apply H. Qed.

Lemma preserves_Future_read_bind {A B} (I : Pools -> Prop)
    (f : TxTable.t -> A) (k : A -> Async B) :
  (forall tb, preserves I (k (f tb))) -> preserves I (bind (Future.read f) k).
Proof. intros H s Hs. unfold bind, Future.read. now apply H. Qed.

(** What the scan hands on comes from the page: the removals are records of
    the page, the additions are records of the page without their id. *)
Lemma scanFutureTxs_members page : forall floor toRemove toAdd,
  exists floor' removed promoted,
    scanFutureTxs floor toRemove toAdd page =
      (floor', toRemove ++ removed, toAdd ++ map withoutId promoted) /\
    incl removed page /\ incl promoted removed.
Proof.
  induction page as [|tx page IH]; intros floor toRemove toAdd; simpl.
  - exists floor, [], []. simpl. rewrite !app_nil_r.
    split; [reflexivity|]. split; intros x [].
  - destruct (nonce tx <? floor).
    + destruct (IH floor (toRemove ++ [tx]) toAdd)
        as [floor' [removed [promoted [Hrun [H1 H2]]]]].
      exists floor', (tx :: removed), promoted. rewrite Hrun, <- app_assoc.
      split; [reflexivity|]. split.
      * intros x [<-|Hx]; [now left | right; now apply H1].
      * intros x Hx. right. now apply H2.
    + destruct (floor =? nonce tx).
      * destruct (IH (floor + 1) (toRemove ++ [tx]) (toAdd ++ [withoutId tx]))
          as [floor' [removed [promoted [Hrun [H1 H2]]]]].
        exists floor', (tx :: removed), (tx :: promoted).
        rewrite Hrun, <- !app_assoc. split; [reflexivity|]. split.
        -- intros x [<-|Hx]; [now left | right; now apply H1].
        -- intros x [<-|Hx]; [now left | right; now apply H2].
      * exists floor, [], []. simpl. rewrite !app_nil_r.
        split; [reflexivity|]. split; intros x [].
Qed.

Variable svc : TxService.
Variable pk : string.
Variable P : TxTable.t -> Prop.

Hypothesis P_add : forall tb txs tb',
  recordsOf pk txs -> TxTable.add tb txs = Some tb' -> P tb -> P tb'.
Hypothesis P_remove : forall tb txs,
  recordsOf pk txs -> P tb -> P (TxTable.remove tb txs).

Lemma Ready_add_account txs :
  recordsOf pk txs -> preserves (fun s => P (readyTxTable s)) (Ready.add txs).
Proof.
  intros Hacc s H. unfold Ready.add.
  destruct (TxTable.add (readyTxTable s) txs) eqn:E; simpl; eauto.
Qed.

Lemma Ready_remove_account txs :
  recordsOf pk txs -> preserves (fun s => P (readyTxTable s)) (Ready.remove txs).
Proof. intros Hacc s H. simpl. now apply P_remove. Qed.

Lemma reinsertAll_account l : forall ps,
  recordsOf pk l -> preserves (fun s => P (readyTxTable s)) (reinsertAll l ps).
Proof.
  induction l as [|r l IH]; intros ps Hacc; simpl; [apply preserves_ret|].
  apply preserves_bind.
  { apply preserves_start, Ready_remove_account.
    intros x [<-|[]]. apply Hacc. now left. }
  intros p1. apply preserves_bind.
  { apply preserves_start, Ready_add_account.
    intros x [<-|[]]. simpl. apply Hacc. now left. }
  intros p2. apply IH. intros x Hx. apply Hacc. now right.
Qed.

Lemma replaceFollowups_account fuel : forall n ps,
  preserves (fun s => P (readyTxTable s)) (replaceFollowups svc fuel pk n ps).
Proof.
  induction fuel as [|fuel IH]; intros n ps; simpl.
  - intros s H; exact H.
  - apply preserves_Ready_read_bind. intros tb.
    assert (Hacc : recordsOf pk (TxTable.findAfter tb pk n (txQueryLimit svc)))
      by (intros x Hx; now apply findAfter_In in Hx).
    destruct (TxTable.findAfter tb pk n (txQueryLimit svc)) as [|first rest];
      [apply preserves_ret|].
    apply preserves_bind; [now apply reinsertAll_account|]. intros ps'.
    apply preserves_if; [apply preserves_ret | apply IH].
Qed.

Lemma replaceReadyTx_account fuel la tx :
  pubKey tx = pk ->
  preserves (fun s => P (readyTxTable s)) (replaceReadyTx svc fuel la tx).
Proof.
  intros Htx. unfold replaceReadyTx. apply preserves_Ready_read_bind. intros tb.
  destruct (TxTable.find tb (pubKey tx) (nonce tx)) as [existing|] eqn:Ef;
    [|apply preserves_ret].
  apply find_Some in Ef as [_ [Hpk _]].
  apply preserves_if; [apply preserves_ret|].
  apply preserves_bind.
  { apply preserves_start, Ready_remove_account. intros x [<-|[]]. congruence. }
  intros p1. apply preserves_bind.
  { apply preserves_start, Ready_add_account. intros x [<-|[]]. assumption. }
  intros p2. apply preserves_if.
  - apply preserves_bind; [apply preserves_promiseAll|].
    intros; apply preserves_ret.
  - rewrite Htx. apply preserves_bind; [apply replaceFollowups_account|].
    intros ps. apply preserves_bind; [apply preserves_promiseAll|].
    intros; apply preserves_ret.
Qed.

Lemma tryMoveFutureTxs_account fuel : forall n,
  preserves (fun s => P (readyTxTable s)) (tryMoveFutureTxs svc fuel pk n).
Proof.
  induction fuel as [|fuel IH]; intros n; simpl.
  - intros s H; exact H.
  - apply preserves_Future_read_bind. intros tb.
    destruct (scanFutureTxs_members
                (TxTable.pubKeyTxsInNonceOrder tb pk (txQueryLimit svc)) n [] [])
      as [n' [removed [promoted [Hscan [H1 H2]]]]].
    rewrite Hscan. simpl app.
    apply preserves_bind.
    { apply Ready_add_account. intros x Hx.
      apply in_map_iff in Hx as [r [<- Hr]]. simpl.
      apply H2, H1 in Hr. now apply pubKeyTxsInNonceOrder_In in Hr. }
    intros _. apply preserves_bind;
      [apply (Future_remove_keeps_ready P)|].
    intros _. apply preserves_if; [apply IH | apply preserves_ret].
Qed.

(** A property of the ready table that stands adding and removing records
    of one account is kept by [add] for a transaction of that account,
    however the call ends. *)
Lemma add_account_ready fuel tx :
  pubKey tx = pk ->
  preserves (fun s => P (readyTxTable s)) (add svc fuel tx).
Proof.
  intros Htx. unfold add. destruct (checkTx svc tx) as [failures c].
  apply preserves_if; [apply preserves_ret|].
  apply preserves_bind; [apply LowestAcceptableNonce_preserves|]. intros la.
  apply preserves_if; [now apply replaceReadyTx_account|].
  apply preserves_bind; [|intros; apply preserves_ret].
  apply preserves_if.
  - apply preserves_bind.
    + apply Ready_add_account. intros x [<-|[]]. assumption.
    + intros _. rewrite Htx. apply tryMoveFutureTxs_account.
  - apply preserves_bind; [apply (ensureFutureTxSpace_keeps_ready svc P)|].
    intros _. apply (Future_add_keeps_ready P).
Qed.

End Branches.

(** ** Invariants and frames of [add] *)

Section AddFrames.

Lemma insert_Some_In tb tx tb' r :
  TxTable.insert tb tx = Some tb' ->
  (In r (TxTable.rows tb') <->
   In r (TxTable.rows tb) \/ r = withId (TxTable.serial tb) tx).
Proof.
  intros H. apply insert_Some in H as [_ ->]. simpl.
  rewrite in_app_iff. simpl. intuition congruence.
Qed.

Lemma add_Some_incl txs : forall tb tb',
  TxTable.add tb txs = Some tb' -> incl (TxTable.rows tb) (TxTable.rows tb').
Proof.
  induction txs as [|tx txs IH]; intros tb tb'; simpl.
  - intros H; inversion H. apply incl_refl.
  - destruct (TxTable.insert tb tx) as [tb1|] eqn:E; [|discriminate].
    intros H r Hr. apply (IH tb1 tb' H).
    apply (insert_Some_In _ _ _ r E). now left.
Qed.

Lemma add_Some_from txs : forall tb tb' r,
  TxTable.add tb txs = Some tb' -> In r (TxTable.rows tb') ->
  In r (TxTable.rows tb) \/ exists x i, In x txs /\ r = withId i x.
Proof.
  induction txs as [|tx txs IH]; intros tb tb' r; simpl.
  - intros H; inversion H. now left.
  - destruct (TxTable.insert tb tx) as [tb1|] eqn:E; [|discriminate].
    intros H Hr. destruct (IH tb1 tb' r H Hr) as [Hin|[x [i [Hx Hri]]]].
    + apply (insert_Some_In _ _ _ r E) in Hin as [Hin| ->]; [now left|].
      right. exists tx, (TxTable.serial tb). split; [now left | reflexivity].
    + right. exists x, i. split; [now right | assumption].
Qed.

Lemma remove_In tb txs r :
  In r (TxTable.rows (TxTable.remove tb txs)) <->
  In r (TxTable.rows tb) /\ forall x, In x txs -> keyOf r <> keyOf x.
Proof.
  unfold TxTable.remove; simpl. rewrite filter_In, negb_true_iff.
  rewrite <- not_true_iff_false, existsb_exists. split.
  - intros [Hin Hno]. split; [assumption|]. intros x Hx Hk. apply Hno.
    exists x. split; [assumption|]. now apply sameKey_true.
  - intros [Hin Hno]. split; [assumption|]. intros [x [Hx Hs]].
    apply sameKey_true in Hs. exact (Hno x Hx Hs).
Qed.

Lemma othersAsIn_add pk tb0 tb txs tb' :
  recordsOf pk txs -> TxTable.add tb txs = Some tb' ->
  othersAsIn pk tb0 tb -> othersAsIn pk tb0 tb'.
Proof.
  intros Hacc Hadd H r Hr. rewrite <- (H r Hr). split.
  - intros Hin. apply (add_Some_from _ _ _ _ Hadd) in Hin
      as [Hin|[x [i [Hx ->]]]]; [assumption|].
    exfalso. apply Hr. simpl. now apply Hacc.
  - apply (add_Some_incl _ _ _ Hadd).
Qed.

Lemma othersAsIn_remove pk tb0 tb txs :
  recordsOf pk txs -> othersAsIn pk tb0 tb ->
  othersAsIn pk tb0 (TxTable.remove tb txs).
Proof.
  intros Hacc H r Hr. rewrite <- (H r Hr), remove_In. split; [tauto|].
  intros Hin. split; [assumption|]. intros x Hx Hk. apply Hr.
  rewrite <- (Hacc x Hx). inversion Hk. reflexivity.
Qed.

(** A property of the future table that stands an insertion, removals and
    [clearBeforeId] is kept by [add], however the call ends. *)
Lemma add_future_table svc fuel tx (P : TxTable.t -> Prop) :
  (forall tb x tb', TxTable.insert tb x = Some tb' -> P tb -> P tb') ->
  (forall tb txs, P tb -> P (TxTable.remove tb txs)) ->
  (forall tb i, P tb -> P (TxTable.clearBeforeId tb i)) ->
  preserves (fun s => P (futureTxTable s)) (add svc fuel tx).
Proof.
  intros Hins Hrem Hclear. unfold add. destruct (checkTx svc tx) as [failures c].
  apply preserves_if; [apply preserves_ret|].
  apply preserves_bind; [apply LowestAcceptableNonce_preserves|]. intros la.
  apply preserves_if; [apply (replaceReadyTx_keeps_future svc P)|].
  apply preserves_bind; [|intros; apply preserves_ret].
  apply preserves_if.
  - apply preserves_bind; [apply (Ready_add_keeps_future P)|].
    intros _. now apply (tryMoveFutureTxs_keeps_future svc P).
  - apply preserves_bind; [now apply (ensureFutureTxSpace_keeps_future svc P)|].
    intros _ s H. unfold Future.add. rewrite add_one.
    destruct (TxTable.insert (futureTxTable s) tx) as [tb'|] eqn:E; simpl; eauto.
Qed.

Lemma add_keeps_wfSerial svc fuel tx s :
  wfSerial (readyTxTable s) -> wfSerial (futureTxTable s) ->
  wfSerial (readyTxTable (poolsOf (add svc fuel tx s))) /\
  wfSerial (futureTxTable (poolsOf (add svc fuel tx s))).
Proof.
  intros Hr Hf. split.
  - apply (add_account_ready svc (pubKey tx) wfSerial); auto.
    + intros tb txs tb' _. apply wfSerial_add.
    + intros tb txs _. apply wfSerial_remove.
  - apply (add_future_table svc fuel tx wfSerial); auto.
    + apply wfSerial_insert.
    + intros tb txs. apply wfSerial_remove.
    + intros tb i. apply wfSerial_clearBeforeId.
Qed.

End AddFrames.

(** X1.  However the calls of a sequence of [add] end, both tables stay well
    formed: one record per account and nonce, every record with an id of
    its own, and every id below the serial of its table. *)
Theorem X1_add_keeps_both_tables_well_formed svc calls s :
  wfSerial (readyTxTable s) -> wfSerial (futureTxTable s) ->
  wfSerial (readyTxTable (addAll svc calls s)) /\
  wfSerial (futureTxTable (addAll svc calls s)).
Proof.
  revert s; induction calls as [|[fuel tx] calls IH]; intros s Hr Hf; simpl;
    [now split|].
  destruct (add_keeps_wfSerial svc fuel tx s Hr Hf) as [Hr' Hf'].
  now apply IH.
Qed.

Lemma X1_witness :
  wfSerial (readyTxTable samplePools) /\ wfSerial (futureTxTable samplePools).
Proof.
  apply (X1_add_keeps_both_tables_well_formed sampleService
           [(3%nat, op 7 10 "seven"); (3%nat, op 6 10 "six"); (3%nat, op 5 10 "five")]
           emptyPools); apply wfSerial_empty.
Defined.

(** X2.  However [add] ends, the ready table holds for every other account
    exactly the records it held before, ids included. *)
Theorem X2_add_leaves_ready_records_of_other_accounts svc fuel tx s r :
  pubKey r <> pubKey tx ->
  (In r (TxTable.rows (readyTxTable (poolsOf (add svc fuel tx s)))) <->
   In r (TxTable.rows (readyTxTable s))).
Proof.
  intros Hr.
  assert (H : othersAsIn (pubKey tx) (readyTxTable s)
                (readyTxTable (poolsOf (add svc fuel tx s)))).
  { apply (add_account_ready svc (pubKey tx)
             (othersAsIn (pubKey tx) (readyTxTable s))); auto.
    - intros tb txs tb'. apply othersAsIn_add.
    - intros tb txs. apply othersAsIn_remove.
    - intros x _. reflexivity. }
  exact (H r Hr).
Qed.

Lemma X2_witness :
  In (mkTx (Some 1) alice 5 10 "five")
     (TxTable.rows (readyTxTable
        (poolsOf (add sampleService 3 (mkTx None bob 5 1 "b") samplePools)))) <->
  In (mkTx (Some 1) alice 5 10 "five") (TxTable.rows (readyTxTable samplePools)).
Proof.
  apply (X2_add_leaves_ready_records_of_other_accounts sampleService 3
           (mkTx None bob 5 1 "b") samplePools (mkTx (Some 1) alice 5 10 "five")).
  simpl. discriminate.
Defined.

(** ** What [add] never loses *)

Section NothingLost.

Lemma replaceFollowups_find svc pk fuel : forall n ps s k,
  k <= n ->
  TxTable.find (readyTxTable (poolsOf (replaceFollowups svc fuel pk n ps s))) pk k
  = TxTable.find (readyTxTable s) pk k.
Proof.
  induction fuel as [|fuel IH]; intros n ps s k Hk; simpl; [reflexivity|].
  unfold bind at 1, Ready.read.
  remember (TxTable.findAfter (readyTxTable s) pk n (txQueryLimit svc)) as page
    eqn:Hdef.
  assert (Hpage : forall r, In r page -> pubKey r = pk /\ n < nonce r)
    by (subst page; intros r Hr; now apply findAfter_In in Hr).
  clear Hdef. destruct page as [|first rest]; [reflexivity|].
  remember (first :: rest) as page eqn:Epage.
  assert (Hne : page <> []) by (subst page; discriminate).
  rewrite (bind_Returned _ _ _ _ _ (reinsertAll_closed page ps s)).
  assert (H1 : TxTable.find (fold_left reinsert page (readyTxTable s)) pk k =
               TxTable.find (readyTxTable s) pk k).
  { apply reinsertAll_find_other. intros r Hr E.
    destruct (Hpage r Hr) as [_ Hn]. inversion E. lia. }
  destruct (Nat.ltb (List.length page) (txQueryLimit svc)); [exact H1|].
  rewrite IH; [exact H1|].
  destruct (Hpage (last page first) (last_In page first Hne)) as [_ Hn]. lia.
Qed.

Lemma find_In_withId tb pk n x :
  TxTable.find tb pk n = Some x -> In x (TxTable.rows tb).
Proof. intros H. now apply find_Some in H. Qed.

(** A replacement that returns the empty list has stored the transaction in
    the ready table. *)
Lemma replaceReadyTx_stores svc fuel la tx s s' :
  replaceReadyTx svc fuel la tx s = Returned [] s' -> inReady s' tx.
Proof.
  intros Hrun.
  destruct (TxTable.find (readyTxTable s) (pubKey tx) (nonce tx)) as [existing|] eqn:Ef.
  - destruct (isRewardBetter tx existing) eqn:Eb.
    + rewrite (replaceReadyTx_better _ _ _ _ _ _ Ef Eb) in Hrun. cbv zeta in Hrun.
      exists (TxTable.serial (readyTxTable s)).
      apply (find_In_withId _ (pubKey tx) (nonce tx)).
      destruct (la - 1 =? nonce tx).
      * inversion Hrun. simpl. apply reinsert_find_same.
      * apply (f_equal poolsOf) in Hrun. cbn [poolsOf] in Hrun.
        rewrite poolsOf_bind_pure in Hrun
          by (intros; apply poolsOf_promiseAll_then).
        rewrite <- Hrun.
        rewrite replaceFollowups_find by lia. apply reinsert_find_same.
    + unfold replaceReadyTx, bind, Ready.read in Hrun. rewrite Ef, Eb in Hrun.
      discriminate Hrun.
  - unfold replaceReadyTx, bind, Ready.read in Hrun. rewrite Ef in Hrun.
    discriminate Hrun.
Qed.

End NothingLost.

(** X3.  However [add] ends, every (account, nonce) pair the ready table held
    before the call is still held after it: [add] replaces ready records, it
    never drops one. *)
Theorem X3_add_never_drops_a_ready_nonce svc fuel tx s k :
  In k (map keyOf (TxTable.rows (readyTxTable s))) ->
  In k (map keyOf (TxTable.rows (readyTxTable (poolsOf (add svc fuel tx s))))).
Proof.
  intros Hk.
  set (P := fun tb : TxTable.t => In k (map keyOf (TxTable.rows tb))).
  assert (Hadd : forall tb txs tb',
            recordsOf (pubKey tx) txs -> TxTable.add tb txs = Some tb' -> P tb -> P tb').
  { intros tb txs tb' _ H Hin. unfold P. rewrite (add_Some_keys _ _ _ H).
    apply in_or_app. now left. }
  unfold add. destruct (checkTx svc tx) as [failures c].
  destruct (Nat.ltb 0 (List.length failures)); [exact Hk|].
  unfold bind at 1.
  pose proof (LowestAcceptableNonce_reads c (pubKey tx) s) as Hs.
  destruct (LowestAcceptableNonce c (pubKey tx) s) as [la s1|e s1|s1];
    simpl in Hs; subst s1; try exact Hk.
  destruct (nonce tx <? la).
  - apply (proj1 (replaceReadyTx_sameKeys (fun _ => 0) svc fuel la tx s)). exact Hk.
  - rewrite poolsOf_bind_pure by reflexivity.
    destruct (la =? nonce tx).
    + apply (preserves_bind (fun s => P (readyTxTable s))); [| |exact Hk].
      * apply (Ready_add_account (pubKey tx) P Hadd). intros x [<-|[]]. reflexivity.
      * intros _. apply (tryMoveFutureTxs_account svc (pubKey tx) P Hadd).
    + apply (preserves_bind (fun s => P (readyTxTable s))); [| |exact Hk].
      * apply (ensureFutureTxSpace_keeps_ready svc P).
      * intros _. apply (Future_add_keeps_ready P).
Qed.

Lemma X3_witness :
  In (alice, 6)
     (map keyOf (TxTable.rows (readyTxTable
        (poolsOf (add sampleService 4 (op 5 11 "better") samplePools))))).
Proof.
  apply (X3_add_never_drops_a_ready_nonce sampleService 4 (op 5 11 "better")
           samplePools (alice, 6)).
  vm_compute. tauto.
Defined.

(** X4.  A transaction that [add] accepts (the empty list is returned) is
    stored by that call: in the ready table when its nonce is not above the
    lowest acceptable nonce, in the future table when it is. *)
Theorem X4_accepted_transaction_is_stored svc fuel tx s s' la :
  LowestAcceptableNonce (snd (checkTx svc tx)) (pubKey tx) s = Returned la s ->
  add svc fuel tx s = Returned [] s' ->
  (nonce tx <= la -> inReady s' tx) /\ (la < nonce tx -> inFuture s' tx).
Proof.
  intros Hla Hrun. unfold add in Hrun.
  destruct (checkTx svc tx) as [failures c]. simpl in Hla.
  destruct failures as [|f failures]; [|simpl in Hrun; discriminate Hrun].
  simpl in Hrun. rewrite (bind_Returned _ _ _ _ _ Hla) in Hrun.
  destruct (Z.ltb_spec (nonce tx) la) as [Hlt|Hge].
  - split; [|lia]. intros _. eapply replaceReadyTx_stores; eauto.
  - destruct (Z.eqb_spec la (nonce tx)) as [Heq|Hne].
    + split; [|lia]. intros _.
      unfold bind at 1 in Hrun. unfold bind at 1, Ready.add in Hrun.
      rewrite add_one in Hrun.
      destruct (TxTable.insert (readyTxTable s) tx) as [tb1|] eqn:Eins;
        [|discriminate Hrun].
      set (x := withId (TxTable.serial (readyTxTable s)) tx).
      set (P := fun tb : TxTable.t => In x (TxTable.rows tb)).
      assert (Hadd : forall tb txs tb',
                recordsOf (pubKey tx) txs -> TxTable.add tb txs = Some tb' ->
                P tb -> P tb').
      { intros tb txs tb' _ H Hin. exact (add_Some_incl _ _ _ H x Hin). }
      pose proof (tryMoveFutureTxs_account svc (pubKey tx) P Hadd fuel (la + 1)
                    (mkPools tb1 (futureTxTable s))) as Hkeep.
      destruct (tryMoveFutureTxs svc fuel (pubKey tx) (la + 1)
                  (mkPools tb1 (futureTxTable s))) as [u s2|e s2|s2];
        try discriminate Hrun.
      inversion Hrun; subst s2. exists (TxTable.serial (readyTxTable s)).
      apply Hkeep. unfold P; simpl.
      apply (insert_Some_In _ _ _ x Eins). now right.
    + split; [lia|]. intros _.
      unfold bind at 1 in Hrun. unfold bind at 1 in Hrun.
      destruct (ensureFutureTxSpace svc s) as [u s1|e s1|s1];
        try discriminate Hrun.
      unfold Future.add in Hrun. rewrite add_one in Hrun.
      destruct (TxTable.insert (futureTxTable s1) tx) as [tb1|] eqn:Eins;
        [|discriminate Hrun].
      inversion Hrun; subst s'. exists (TxTable.serial (futureTxTable s1)).
      simpl. apply (insert_Some_In _ _ _ _ Eins). now right.
Qed.

Lemma X4_witness :
  (nonce (op 9 1 "nine") <= 8 ->
   inReady (poolsOf (add sampleService 1 (op 9 1 "nine") samplePools)) (op 9 1 "nine")) /\
  (8 < nonce (op 9 1 "nine") ->
   inFuture (poolsOf (add sampleService 1 (op 9 1 "nine") samplePools)) (op 9 1 "nine")).
Proof.
  apply (X4_accepted_transaction_is_stored sampleService 1 (op 9 1 "nine")
           samplePools _ 8); reflexivity.
Defined.

(** ** Promotion from the future table *)

Section PromotionSpec.

Lemma find_absent tb pk n :
  ~ In (pk, n) (map keyOf (TxTable.rows tb)) -> TxTable.find tb pk n = None.
Proof.
  intros H. destruct (TxTable.find tb pk n) as [r|] eqn:E; [|reflexivity].
  exfalso. apply H. apply find_Some in E as [Hin [Hpk Hn]].
  apply in_map_iff. exists r. split; [|assumption]. unfold keyOf; congruence.
Qed.

Lemma add_app l1 : forall l2 tb,
  TxTable.add tb (l1 ++ l2) =
  match TxTable.add tb l1 with
  | Some tb1 => TxTable.add tb1 l2
  | None => None
  end.
Proof.
  induction l1 as [|x l1 IH]; intros l2 tb; simpl; [reflexivity|].
  destruct (TxTable.insert tb x); [apply IH | reflexivity].
Qed.

(** Records under keys the table does not hold, each key once, are added
    without a failure. *)
Lemma add_fresh txs : forall tb,
  NoDup (map keyOf txs) ->
  (forall x, In x txs -> ~ In (keyOf x) (map keyOf (TxTable.rows tb))) ->
  exists tb', TxTable.add tb txs = Some tb'.
Proof.
  induction txs as [|x txs IH]; intros tb Hnd Hfresh; simpl; [eauto|].
  inversion Hnd as [|? ? Hnin Hnd']; subst.
  unfold TxTable.insert.
  rewrite (find_absent tb (pubKey x) (nonce x)) by (apply Hfresh; now left).
  apply IH; [assumption|]. intros y Hy. simpl. rewrite map_app, in_app_iff.
  intros [Hin|[Hk|[]]].
  - apply (Hfresh y); [now right | assumption].
  - apply Hnin. rewrite keyOf_withId in Hk. rewrite Hk. now apply in_map.
Qed.

Lemma NoDup_nonces_of_keys pk l :
  recordsOf pk l -> NoDup (map keyOf l) -> NoDup (map nonce l).
Proof.
  induction l as [|a l IH]; simpl; intros Hacc Hnd; [constructor|].
  inversion Hnd as [|? ? Hnin Hnd']; subst. constructor.
  - intros Hin. apply Hnin. apply in_map_iff in Hin as [y [Hy Hin]].
    apply in_map_iff. exists y. split; [|assumption]. unfold keyOf.
    rewrite (Hacc y (or_intror Hin)), (Hacc a (or_introl eq_refl)). congruence.
  - apply IH; [|assumption]. intros y Hy. apply Hacc. now right.
Qed.

Lemma pubKeyTxsInNonceOrder_NoDup_keys tb pk k :
  NoDup (map keyOf (TxTable.rows tb)) ->
  NoDup (map keyOf (TxTable.pubKeyTxsInNonceOrder tb pk k)).
Proof.
  intros H. unfold TxTable.pubKeyTxsInNonceOrder. apply NoDup_map_firstn.
  eapply Permutation_NoDup.
  - apply Permutation_map. symmetry. apply inNonceOrder_perm.
  - now apply NoDup_map_filter.
Qed.

Lemma pubKeyTxsInNonceOrder_length tb pk k :
  (List.length (TxTable.pubKeyTxsInNonceOrder tb pk k) <= k)%nat.
Proof. unfold TxTable.pubKeyTxsInNonceOrder. apply firstn_le_length. Qed.

(** The scan of a page in ascending order, each nonce once: a prefix of the
    page is removed, the records of the prefix at or above the floor are
    promoted, they fill the nonces from the floor to the new floor, and
    what is left of the page lies above the new floor. *)
Lemma scanFutureTxs_sorted page : forall floor toRemove toAdd,
  StronglySorted nonceLe page -> NoDup (map nonce page) ->
  exists floor' removed rest,
    page = removed ++ rest /\
    scanFutureTxs floor toRemove toAdd page =
      (floor', toRemove ++ removed,
       toAdd ++ map withoutId (filter (fun r => floor <=? nonce r) removed)) /\
    floor <= floor' /\
    (forall r, In r removed -> nonce r < floor') /\
    (forall n, floor <= n < floor' -> exists r, In r removed /\ nonce r = n) /\
    (forall r, In r rest -> floor' < nonce r).
Proof.
  induction page as [|tx page IH]; intros floor toRemove toAdd Hs Hnd; simpl.
  - exists floor, [], []. simpl. rewrite !app_nil_r.
    repeat split; try reflexivity; try lia; try (intros r []);
      try (intros n Hn; lia).
  - inversion Hs as [|? ? Hs' Hall]; subst.
    inversion Hnd as [|? ? Hnin Hnd']; subst.
    assert (Habove : forall r, In r page -> nonce tx < nonce r).
    { intros r Hr. eapply Forall_forall in Hall; [|exact Hr].
      unfold nonceLe in Hall.
      assert (nonce r <> nonce tx); [|lia].
      intros E. apply Hnin. rewrite <- E. now apply in_map. }
    destruct (Z.ltb_spec (nonce tx) floor) as [Hlt|Hge].
    + destruct (IH floor (toRemove ++ [tx]) toAdd Hs' Hnd')
        as [floor' [removed [rest [Hpage [Hrun [Hle [Hrem [Hfill Hrest]]]]]]]].
      exists floor', (tx :: removed), rest. simpl.
      replace (floor <=? nonce tx) with false by (symmetry; apply Z.leb_gt; lia).
      rewrite Hrun, <- app_assoc. split; [now rewrite Hpage|].
      split; [reflexivity|]. split; [assumption|]. split; [|split; [|assumption]].
      * intros r [<-|Hr]; [lia | now apply Hrem].
      * intros n Hn. destruct (Hfill n Hn) as [r [Hr Hrn]]. exists r. auto.
    + destruct (Z.eqb_spec floor (nonce tx)) as [Heq|Hne].
      * destruct (IH (floor + 1) (toRemove ++ [tx]) (toAdd ++ [withoutId tx]) Hs' Hnd')
          as [floor' [removed [rest [Hpage [Hrun [Hle [Hrem [Hfill Hrest]]]]]]]].
        exists floor', (tx :: removed), rest. simpl.
        replace (floor <=? nonce tx) with true by (symmetry; apply Z.leb_le; lia).
        rewrite Hrun, <- !app_assoc. simpl.
        split; [now rewrite Hpage|]. split.
        { f_equal. f_equal. f_equal. f_equal. apply filter_ext_in. intros r Hr.
          assert (In r page) by (rewrite Hpage; apply in_or_app; now left).
          specialize (Habove r H).
          replace (floor + 1 <=? nonce r) with true by (symmetry; apply Z.leb_le; lia).
          symmetry; apply Z.leb_le; lia. }
        split; [lia|]. split; [|split; [|assumption]].
        -- intros r [<-|Hr]; [lia | now apply Hrem].
        -- intros n Hn. destruct (Z.eq_dec n floor) as [->|Hn'].
           ++ exists tx. split; [now left | now symmetry].
           ++ destruct (Hfill n) as [r [Hr Hrn]]; [lia|]. exists r. auto.
      * exists floor, [], (tx :: page). simpl. rewrite !app_nil_r.
        split; [reflexivity|]. split; [reflexivity|]. split; [lia|].
        split; [intros r []|]. split; [intros n Hn; lia|].
        intros r [<-|Hr]; [lia|]. specialize (Habove r Hr). lia.
Qed.

Lemma remove_In_stored tb txs r :
  NoDup (map keyOf (TxTable.rows tb)) -> incl txs (TxTable.rows tb) ->
  (In r (TxTable.rows (TxTable.remove tb txs)) <->
   In r (TxTable.rows tb) /\ ~ In r txs).
Proof.
  intros Hnd Hincl. rewrite remove_In. split; intros [Hin Hno]; split; auto.
  - intros Hr. exact (Hno r Hr eq_refl).
  - intros x Hx Hk. apply Hno.
    now rewrite (NoDup_keys_eq _ r x Hnd Hin (Hincl x Hx) Hk).
Qed.

Lemma filter_filter_andb {T} (A Q : T -> bool) l :
  filter A (filter Q l) = filter (fun r => A r && Q r) l.
Proof.
  induction l as [|a l IH]; simpl; [reflexivity|].
  destruct (Q a) eqn:EQ, (A a) eqn:EA; simpl; rewrite ?EA; simpl; congruence.
Qed.

Lemma countOf_remove_lt tb pk txs x :
  In x txs -> In x (TxTable.rows tb) -> pubKey x = pk ->
  (countOf (TxTable.remove tb txs) pk < countOf tb pk)%nat.
Proof.
  intros Hx Hin Hpk. unfold countOf, TxTable.remove; simpl.
  set (Q := fun r => negb (existsb (sameKey r) txs)).
  set (A := fun r : TransactionData => (pubKey r =? pk)%string).
  rewrite (filter_filter_andb A Q). apply filter_length_strict with (x := x); auto.
  - intros y Hy. now apply andb_true_iff in Hy as [Hy _].
  - unfold A. now apply String.eqb_eq.
  - apply andb_false_iff. right. unfold Q. apply negb_false_iff.
    apply existsb_exists. exists x. split; [assumption|].
    now apply sameKey_true.
Qed.

Variable svc : TxService.
Variable pk : string.
Hypothesis Hlimit : (1 <= txQueryLimit svc)%nat.

(** With a positive page size, one record per key in the future table, no
    ready record of the account at or above the floor, and a budget above
    the number of future records of the account, [tryMoveFutureTxs]
    returns.  It has moved to the ready table the future records of the
    account with the nonces from the floor up to the first missing nonce
    [floor'], has discarded those below the floor, and has left all other
    future records in place. *)
Lemma tryMoveFutureTxs_spec : forall fuel floor s,
  NoDup (map keyOf (TxTable.rows (futureTxTable s))) ->
  (forall n, floor <= n ->
     ~ In (pk, n) (map keyOf (TxTable.rows (readyTxTable s)))) ->
  (countOf (futureTxTable s) pk < fuel)%nat ->
  exists floor' promoted R' F',
    tryMoveFutureTxs svc fuel pk floor s = Returned tt (mkPools R' F') /\
    floor <= floor' /\
    TxTable.add (readyTxTable s) (map withoutId promoted) = Some R' /\
    (forall r, In r promoted <->
       In r (TxTable.rows (futureTxTable s)) /\ pubKey r = pk /\
       floor <= nonce r < floor') /\
    (forall n, floor <= n < floor' -> exists r, In r promoted /\ nonce r = n) /\
    (forall r, In r (TxTable.rows (futureTxTable s)) -> pubKey r = pk ->
       nonce r <> floor') /\
    (forall r, In r (TxTable.rows F') <->
       In r (TxTable.rows (futureTxTable s)) /\
       (pubKey r <> pk \/ floor' < nonce r)) /\
    TxTable.serial F' = TxTable.serial (futureTxTable s).
Proof.
  induction fuel as [|fuel IH]; intros floor s Hnd Hfree Hfuel; [lia|].
  simpl. unfold bind at 1, Future.read.
  set (F := futureTxTable s) in *. set (R := readyTxTable s) in *.
  remember (TxTable.pubKeyTxsInNonceOrder F pk (txQueryLimit svc)) as page eqn:Hdef.
  assert (Hin : forall r, In r page -> In r (TxTable.rows F) /\ pubKey r = pk)
    by (subst page; intros r; apply pubKeyTxsInNonceOrder_In).
  assert (Hsorted : StronglySorted nonceLe page)
    by (subst page; apply pubKeyTxsInNonceOrder_sorted).
  assert (Hpnd : NoDup (map keyOf page))
    by (subst page; now apply pubKeyTxsInNonceOrder_NoDup_keys).
  assert (Hcompl : forall r, In r (TxTable.rows F) -> pubKey r = pk ->
            ~ In r page ->
            List.length page = txQueryLimit svc /\
            (forall p, In p page -> nonce p <= nonce r))
    by (subst page; intros r; apply pubKeyTxsInNonceOrder_complete).
  assert (Hlen : (List.length page <= txQueryLimit svc)%nat)
    by (subst page; apply pubKeyTxsInNonceOrder_length).
  clear Hdef.
  assert (Hnn : NoDup (map nonce page)).
  { apply (NoDup_nonces_of_keys pk); [|assumption]. intros r Hr. now apply Hin. }
  destruct (scanFutureTxs_sorted page floor [] [] Hsorted Hnn)
    as [floor' [removed [rest [Hpage [Hscan [Hle [Hrem [Hfill Hrest]]]]]]]].
  rewrite Hscan. simpl app.
  set (promoted := filter (fun r => floor <=? nonce r) removed) in *.
  assert (Hremoved : forall r, In r removed -> In r (TxTable.rows F) /\ pubKey r = pk).
  { intros r Hr. apply Hin. rewrite Hpage. apply in_or_app. now left. }
  assert (Hprom : forall r, In r promoted <-> In r removed /\ floor <= nonce r).
  { intros r. unfold promoted. rewrite filter_In, Z.leb_le. tauto. }
  (* a record of the account below the new floor is one of the removed ones *)
  assert (Hbelow : forall r, In r (TxTable.rows F) -> pubKey r = pk ->
            floor <= nonce r < floor' -> In r removed).
  { intros r Hr Hpk Hn. destruct (Hfill (nonce r) Hn) as [r0 [Hr0 Hn0]].
    destruct (Hremoved r0 Hr0) as [Hin0 Hpk0].
    rewrite (NoDup_keys_eq _ r r0 Hnd Hr Hin0); [assumption|].
    unfold keyOf. congruence. }
  (* the ready table takes the promoted records *)
  destruct (add_fresh (map withoutId promoted) R) as [R1 HR1].
  { rewrite map_map.
    rewrite (map_ext _ keyOf) by reflexivity.
    apply NoDup_map_filter. rewrite Hpage, map_app in Hpnd.
    now apply NoDup_app_remove_r in Hpnd. }
  { intros x Hx. apply in_map_iff in Hx as [r [<- Hr]].
    apply Hprom in Hr as [Hr Hn]. destruct (Hremoved r Hr) as [_ Hpk].
    unfold keyOf; simpl. rewrite Hpk. now apply Hfree. }
  unfold bind at 1, Ready.add. fold R. rewrite HR1.
  unfold bind at 1, Future.remove. cbn [readyTxTable futureTxTable]. fold F.
  set (F1 := TxTable.remove F removed).
  assert (HF1 : forall r, In r (TxTable.rows F1) <->
            In r (TxTable.rows F) /\ ~ In r removed).
  { intros r. apply remove_In_stored; [assumption|].
    intros x Hx. now apply Hremoved. }
  destruct (Nat.eqb_spec (List.length removed) (txQueryLimit svc)) as [Hfull|Hpart].
  - (* a full page was consumed: another round *)
    assert (Hrest0 : rest = []).
    { destruct rest as [|x rest]; [reflexivity|]. exfalso.
      rewrite Hpage, length_app in Hlen. simpl in Hlen. lia. }
    assert (Hex : exists x0, In x0 removed).
    { clear -Hfull Hlimit. destruct removed as [|x0 l]; [simpl in Hfull; lia|].
      exists x0. now left. }
    destruct Hex as [x0 Hx0].
    destruct (Hremoved x0 Hx0) as [Hx0F Hx0pk].
    destruct (IH floor' (mkPools R1 F1)) as
      [floor'' [promoted2 [R2 [F2 [Hrun2 [Hle2 [HR2 [Hp2 [Hfill2 [Hgap2 [HF2 Hser2]]]]]]]]]]].
    { simpl. unfold F1, TxTable.remove; simpl. now apply NoDup_map_filter. }
    { simpl. intros n Hn. rewrite (add_Some_keys _ _ _ HR1), in_app_iff.
      intros [Hk|Hk]; [apply (Hfree n); [lia | assumption]|].
      rewrite map_map in Hk. apply in_map_iff in Hk as [r [Hrk Hr]].
      apply Hprom in Hr as [Hr _]. specialize (Hrem r Hr).
      inversion Hrk. lia. }
    { cbn [futureTxTable].
      pose proof (countOf_remove_lt F pk removed x0 Hx0 Hx0F Hx0pk) as Hless.
      fold F1 in Hless. lia. }
    cbn [readyTxTable futureTxTable] in Hrun2, HR2, Hp2, Hgap2, HF2, Hser2.
    exists floor'', (promoted ++ promoted2), R2, F2.
    split; [exact Hrun2|]. split; [lia|]. split; [|split; [|split; [|split; [|split]]]].
    + rewrite map_app, add_app. fold R. now rewrite HR1.
    + intros r. rewrite in_app_iff, Hprom, Hp2, HF1. split.
      * intros [[Hr Hn]|[[Hr Hno] [Hpk Hn]]].
        -- destruct (Hremoved r Hr) as [HrF Hpk]. specialize (Hrem r Hr).
           split; [assumption|]. split; [assumption|lia].
        -- split; [assumption|]. split; [assumption|lia].
      * intros [Hr [Hpk Hn]]. destruct (Z.lt_ge_cases (nonce r) floor') as [Hlt|Hge].
        -- left. split; [|lia]. apply Hbelow; auto. lia.
        -- right. split; [split; [assumption|]|split; [assumption|lia]].
           intros Hr'. specialize (Hrem r Hr'). lia.
    + intros n Hn. destruct (Z.lt_ge_cases n floor') as [Hlt|Hge].
      * destruct (Hfill n) as [r [Hr Hrn]]; [lia|]. exists r.
        split; [|assumption]. apply in_or_app. left. apply Hprom. split; [assumption|lia].
      * destruct (Hfill2 n) as [r [Hr Hrn]]; [lia|]. exists r.
        split; [|assumption]. apply in_or_app. now right.
    + intros r Hr Hpk Hn. apply (Hgap2 r); auto. apply HF1. split; [assumption|].
      intros Hr'. specialize (Hrem r Hr'). lia.
    + intros r. rewrite HF2, HF1. split.
      * intros [[Hr _] Hcase]. auto.
      * intros [Hr Hcase]. split; [|assumption]. split; [assumption|].
        intros Hr'. destruct (Hremoved r Hr') as [_ Hpk]. specialize (Hrem r Hr').
        destruct Hcase as [Hcase|Hcase]; [contradiction | lia].
    + rewrite Hser2. reflexivity.
  - (* the scan stopped before the end of a full page *)
    (* every record of the account that is left lies above the new floor *)
    assert (Habove : forall r, In r (TxTable.rows F) -> pubKey r = pk ->
              ~ In r removed -> floor' < nonce r).
    { intros r Hr Hpk Hno.
      destruct (in_dec TransactionData_eq_dec r page) as [Hp|Hp].
      - rewrite Hpage in Hp. apply in_app_or in Hp as [Hp|Hp];
          [contradiction | now apply Hrest].
      - destruct (Hcompl r Hr Hpk Hp) as [Hlen' Hmax].
        destruct rest as [|x rest].
        + exfalso. rewrite Hpage, app_nil_r in Hlen'. contradiction.
        + assert (Hx : In x page)
            by (rewrite Hpage; apply in_or_app; right; now left).
          specialize (Hmax x Hx).
          specialize (Hrest x (or_introl eq_refl)). lia. }
    exists floor', promoted, R1, F1.
    split; [reflexivity|]. split; [assumption|]. split; [exact HR1|].
    split; [|split; [|split; [|split]]].
    + intros r. rewrite Hprom. split.
      * intros [Hr Hn]. destruct (Hremoved r Hr) as [HrF Hpk].
        specialize (Hrem r Hr). split; [assumption|]. split; [assumption|lia].
      * intros [Hr [Hpk Hn]]. split; [|lia]. now apply Hbelow.
    + intros n Hn. destruct (Hfill n Hn) as [r [Hr Hrn]]. exists r.
      split; [|assumption]. apply Hprom. split; [assumption|lia].
    + intros r Hr Hpk Hn.
      destruct (in_dec TransactionData_eq_dec r removed) as [Hr'|Hr'].
      * specialize (Hrem r Hr'). lia.
      * specialize (Habove r Hr Hpk Hr'). lia.
    + intros r. rewrite HF1. split.
      * intros [Hr Hno]. split; [assumption|].
        destruct (string_dec (pubKey r) pk) as [Hpk|Hpk]; [|now left].
        right. now apply Habove.
      * intros [Hr Hcase]. split; [assumption|]. intros Hr'.
        destruct (Hremoved r Hr') as [_ Hpk]. specialize (Hrem r Hr').
        destruct Hcase as [Hcase|Hcase]; [contradiction | lia].
    + reflexivity.
Qed.

End PromotionSpec.

(** X5.  With a positive page size, one record per key in the future table,
    no ready record of the account at or above the floor and a loop budget
    above the number of future records of the account,
    [tryMoveFutureTxs] returns, and it has moved exactly the gap-free run:
    the future records of the account with the nonces from the floor up to
    the first missing nonce [floor'] are added to the ready table (in nonce
    order, without their old ids), those below the floor are discarded, no
    future record of the account sits at [floor'], and every other future
    record stays. *)
Theorem X5_tryMoveFutureTxs_moves_the_gap_free_run svc pk fuel floor s :
  (1 <= txQueryLimit svc)%nat ->
  NoDup (map keyOf (TxTable.rows (futureTxTable s))) ->
  (forall n, floor <= n ->
     ~ In (pk, n) (map keyOf (TxTable.rows (readyTxTable s)))) ->
  (countOf (futureTxTable s) pk < fuel)%nat ->
  exists floor' promoted R' F',
    tryMoveFutureTxs svc fuel pk floor s = Returned tt (mkPools R' F') /\
    floor <= floor' /\
    TxTable.add (readyTxTable s) (map withoutId promoted) = Some R' /\
    (forall r, In r promoted <->
       In r (TxTable.rows (futureTxTable s)) /\ pubKey r = pk /\
       floor <= nonce r < floor') /\
    (forall n, floor <= n < floor' -> exists r, In r promoted /\ nonce r = n) /\
    (forall r, In r (TxTable.rows (futureTxTable s)) -> pubKey r = pk ->
       nonce r <> floor') /\
    (forall r, In r (TxTable.rows F') <->
       In r (TxTable.rows (futureTxTable s)) /\
       (pubKey r <> pk \/ floor' < nonce r)) /\
    TxTable.serial F' = TxTable.serial (futureTxTable s).
Proof. intros Hlim. now apply tryMoveFutureTxs_spec. Qed.

Lemma X5_witness :
  exists floor' promoted R' F',
    tryMoveFutureTxs sampleService 4 alice 6 gapPools = Returned tt (mkPools R' F') /\
    6 <= floor' /\
    TxTable.add (readyTxTable gapPools) (map withoutId promoted) = Some R' /\
    (forall r, In r promoted <->
       In r (TxTable.rows (futureTxTable gapPools)) /\ pubKey r = alice /\
       6 <= nonce r < floor') /\
    (forall n, 6 <= n < floor' -> exists r, In r promoted /\ nonce r = n) /\
    (forall r, In r (TxTable.rows (futureTxTable gapPools)) -> pubKey r = alice ->
       nonce r <> floor') /\
    (forall r, In r (TxTable.rows F') <->
       In r (TxTable.rows (futureTxTable gapPools)) /\
       (pubKey r <> alice \/ floor' < nonce r)) /\
    TxTable.serial F' = TxTable.serial (futureTxTable gapPools).
Proof.
  apply (X5_tryMoveFutureTxs_moves_the_gap_free_run sampleService alice 4 6 gapPools).
  - simpl; lia.
  - vm_compute. repeat constructor; simpl; intuition discriminate.
  - intros n _ H. vm_compute in H. exact H.
  - vm_compute; lia.
Defined.

(** ** Future records lie above the lowest acceptable nonce *)

Section FutureAbove.

Variable svc : TxService.
Variable chain : string -> Z.
Hypothesis Hlimit : (1 <= txQueryLimit svc)%nat.

Lemma ensureFutureTxSpace_result s :
  exists s1, ensureFutureTxSpace svc s = Returned tt s1 /\
             readyTxTable s1 = readyTxTable s /\
             incl (TxTable.rows (futureTxTable s1)) (TxTable.rows (futureTxTable s)).
Proof.
  unfold ensureFutureTxSpace, bind, Future.read.
  destruct (maxFutureTxs svc <=? TxTable.count (futureTxTable s)).
  - destruct (TxTable.First (futureTxTable s)) as [f|].
    + eexists. split; [reflexivity|]. split; [reflexivity|]. simpl.
      intros r Hr. now apply filter_In in Hr.
    + exists s. split; [reflexivity|]. split; [reflexivity | apply incl_refl].
  - exists s. split; [reflexivity|]. split; [reflexivity | apply incl_refl].
Qed.

Lemma countOf_le tb pk : (countOf tb pk <= List.length (TxTable.rows tb))%nat.
Proof. unfold countOf. apply filter_length_le. Qed.

(** [add] keeps the future records above the ready run of their account,
    however it ends, when its budget covers the future records of the
    account. *)
Lemma add_futureAbove fuel tx s :
  snd (checkTx svc tx) = chain (pubKey tx) ->
  readyInv chain (readyTxTable s) ->
  NoDup (map keyOf (TxTable.rows (futureTxTable s))) ->
  futureAbove chain s ->
  (countOf (futureTxTable s) (pubKey tx) < fuel)%nat ->
  futureAbove chain (poolsOf (add svc fuel tx s)).
Proof.
  intros Hchain Hinv Hnd Habove Hfuel. unfold add.
  destruct (checkTx svc tx) as [failures c]; simpl in Hchain; subst c.
  destruct (Nat.ltb 0 (List.length failures)); [exact Habove|].
  unfold bind at 1.
  destruct (LowestAcceptableNonce (chain (pubKey tx)) (pubKey tx) s)
    as [la s1|e s1|s1] eqn:Ela;
    try (pose proof (LowestAcceptableNonce_reads (chain (pubKey tx)) (pubKey tx) s) as Hs;
         rewrite Ela in Hs; simpl in Hs; subst s1; exact Habove).
  destruct (readyInv_lowest chain s (pubKey tx) la s1 Hinv Ela) as [_ [Hle Hat]].
  apply LowestAcceptableNonce_Returned in Ela as [-> _].
  destruct (Z.ltb_spec (nonce tx) la) as [Hlt|Hge].
  - (* replacement: same future table, same ready keys *)
    pose proof (replaceReadyTx_keeps_future svc
                  (fun tb => tb = futureTxTable s) fuel la tx s eq_refl) as Hf.
    pose proof (replaceReadyTx_sameKeys chain svc fuel la tx s) as [Hk _].
    cbv beta in Hf. intros r Hr. rewrite Hf in Hr.
    destruct (Habove r Hr) as [H1 H2]. split; [assumption|].
    intros n Hn. apply H2. now apply Hk.
  - rewrite poolsOf_bind_pure by reflexivity.
    destruct (Z.eqb_spec la (nonce tx)) as [Heq|Hne].
    + (* the transaction becomes ready, then the promotion runs *)
      destruct (add_fresh [tx] (readyTxTable s)) as [R1 HR1].
      { repeat constructor. simpl; tauto. }
      { intros x [<-|[]]. unfold keyOf. rewrite <- Heq. rewrite Hat. lia. }
      unfold bind at 1, Ready.add. rewrite HR1.
      pose proof (add_Some_keys _ _ _ HR1) as HkR1. simpl in HkR1.
      destruct (tryMoveFutureTxs_spec svc (pubKey tx) Hlimit fuel (la + 1)
                  (mkPools R1 (futureTxTable s)))
        as [floor' [promoted [R' [F' [Hrun [Hfl [HR' [Hprom [_ [_ [HF' _]]]]]]]]]]].
      { exact Hnd. }
      { cbn [readyTxTable]. intros n Hn. rewrite HkR1, in_app_iff.
        intros [Hk|[Hk|[]]].
        - apply Hat in Hk. lia.
        - inversion Hk. lia. }
      { exact Hfuel. }
      rewrite Hrun. unfold futureAbove in *.
      cbn [poolsOf readyTxTable futureTxTable] in *.
      pose proof (add_Some_keys _ _ _ HR') as HkR'. rewrite map_map in HkR'.
      intros r Hr. apply HF' in Hr as [Hr Hcase].
      destruct (Habove r Hr) as [H1 H2]. split; [assumption|].
      intros n Hn. rewrite HkR', HkR1, !in_app_iff in Hn.
      destruct Hn as [[Hn|[Hn|[]]]|Hn].
      * now apply H2.
      * inversion Hn as [[Hpk Hnn]].
        destruct Hcase as [Hcase|Hcase]; [congruence | lia].
      * apply in_map_iff in Hn as [p [Hpk Hp]]. apply Hprom in Hp as [_ [Hppk Hpn]].
        inversion Hpk as [[Hpk' Hnn]].
        destruct Hcase as [Hcase|Hcase]; [congruence | lia].
    + (* the transaction waits in the future table *)
      destruct (ensureFutureTxSpace_result s) as [s1 [Hrun [Hready Hincl]]].
      rewrite (bind_Returned _ _ _ _ _ Hrun). unfold Future.add. rewrite add_one.
      assert (Hold : forall r, In r (TxTable.rows (futureTxTable s1)) ->
                chain (pubKey r) < nonce r /\
                forall n, In (pubKey r, n) (map keyOf (TxTable.rows (readyTxTable s1))) ->
                          n + 1 < nonce r).
      { intros r Hr. rewrite Hready. apply Habove. now apply Hincl. }
      destruct (TxTable.insert (futureTxTable s1) tx) as [F1|] eqn:Eins;
        unfold futureAbove; cbn [poolsOf readyTxTable futureTxTable]; [|exact Hold].
      intros r Hr. apply (insert_Some_In _ _ _ r Eins) in Hr as [Hr| ->];
        [now apply Hold|].
      simpl. split; [lia|]. intros n Hn. rewrite Hready in Hn.
      apply Hat in Hn. lia.
Qed.

Lemma add_future_grows_by_one fuel tx s :
  (List.length (TxTable.rows (futureTxTable (poolsOf (add svc fuel tx s)))) <=
   S (List.length (TxTable.rows (futureTxTable s))))%nat.
Proof.
  set (c := List.length (TxTable.rows (futureTxTable s))).
  set (P := fun tb : TxTable.t => (List.length (TxTable.rows tb) <= c)%nat).
  assert (Hrem : forall tb txs, P tb -> P (TxTable.remove tb txs)).
  { intros tb txs H. unfold P, TxTable.remove in *; simpl.
    pose proof (filter_length_le (fun r => negb (existsb (sameKey r) txs))
                  (TxTable.rows tb)). lia. }
  assert (Hweak : forall s', P (futureTxTable s') ->
            (List.length (TxTable.rows (futureTxTable s')) <= S c)%nat)
    by (intros s' H; unfold P in H; lia).
  assert (HP : P (futureTxTable s)) by (unfold P, c; lia).
  unfold add. destruct (checkTx svc tx) as [failures n].
  destruct (Nat.ltb 0 (List.length failures)); [now apply Hweak|].
  unfold bind at 1.
  pose proof (LowestAcceptableNonce_reads n (pubKey tx) s) as Hs.
  destruct (LowestAcceptableNonce n (pubKey tx) s) as [la s1|e s1|s1];
    simpl in Hs; subst s1; try (now apply Hweak).
  destruct (nonce tx <? la).
  - apply Hweak. now apply (replaceReadyTx_keeps_future svc P).
  - rewrite poolsOf_bind_pure by reflexivity.
    destruct (la =? nonce tx).
    + apply Hweak.
      apply (preserves_bind (fun s => P (futureTxTable s))); [| |exact HP].
      * apply (Ready_add_keeps_future P).
      * intros _. now apply (tryMoveFutureTxs_keeps_future svc P).
    + destruct (ensureFutureTxSpace_result s) as [s1 [Hrun [_ Hincl]]].
      rewrite (bind_Returned _ _ _ _ _ Hrun).
      assert (H1 : P (futureTxTable s1)).
      { pose proof (ensureFutureTxSpace_keeps_future svc P) as Hk.
        assert (Hc : forall tb i, P tb -> P (TxTable.clearBeforeId tb i)).
        { intros tb i H. unfold P, TxTable.clearBeforeId in *; simpl.
          pose proof (filter_length_le (fun r => negb (idOf r <? i))
                        (TxTable.rows tb)). lia. }
        specialize (Hk Hc s HP). now rewrite Hrun in Hk. }
      unfold Future.add. rewrite add_one.
      destruct (TxTable.insert (futureTxTable s1) tx) as [F1|] eqn:Eins;
        cbn [poolsOf futureTxTable]; [|now apply Hweak].
      apply insert_Some in Eins as [_ ->]. simpl. rewrite length_app. simpl.
      unfold P in H1. lia.
Qed.

Lemma addAll_futureAbove calls : forall s bound,
  (forall tx, snd (checkTx svc tx) = chain (pubKey tx)) ->
  readyInv chain (readyTxTable s) ->
  NoDup (map keyOf (TxTable.rows (futureTxTable s))) ->
  futureAbove chain s ->
  (List.length (TxTable.rows (futureTxTable s)) + List.length calls <= bound)%nat ->
  (forall fuel tx, In (fuel, tx) calls -> (bound < fuel)%nat) ->
  futureAbove chain (addAll svc calls s).
Proof.
  induction calls as [|[fuel tx] calls IH];
    intros s bound Hchain Hinv Hnd Habove Hsize Hfuel; simpl; [assumption|].
  assert (Hf : (bound < fuel)%nat) by (apply (Hfuel fuel tx); now left).
  simpl in Hsize.
  apply (IH _ bound); auto.
  - now apply add_readyInv.
  - now apply (add_keeps_future_keys svc fuel tx s).
  - apply add_futureAbove; auto.
    pose proof (countOf_le (futureTxTable s) (pubKey tx)). lia.
  - pose proof (add_future_grows_by_one fuel tx s). lia.
  - intros f t Hin. apply (Hfuel f t). now right.
Qed.

End FutureAbove.

(** X6.  Let the page size be positive, let the wallet service report one
    chain nonce per account, and let every call have a loop budget above
    the number of calls.  After any sequence of [add] calls on empty pools,
    every record of the future table has a nonce above the lowest
    acceptable nonce of its account: what could be ready is never left
    waiting. *)
Theorem X6_future_nonces_lie_above_the_lowest_acceptable svc chain calls r la s' :
  (1 <= txQueryLimit svc)%nat ->
  (forall tx, snd (checkTx svc tx) = chain (pubKey tx)) ->
  (forall fuel tx, In (fuel, tx) calls -> (List.length calls < fuel)%nat) ->
  In r (TxTable.rows (futureTxTable (addAll svc calls emptyPools))) ->
  LowestAcceptableNonce (chain (pubKey r)) (pubKey r)
    (addAll svc calls emptyPools) = Returned la s' ->
  la < nonce r.
Proof.
  intros Hlim Hchain Hfuel Hr Hla.
  assert (Habove : futureAbove chain (addAll svc calls emptyPools)).
  { apply (addAll_futureAbove svc chain Hlim calls emptyPools (List.length calls));
      auto.
    - apply readyInv_empty.
    - constructor.
    - intros x []. }
  destruct (Habove r Hr) as [H1 H2].
  rewrite (LowestAcceptableNonce_is_max _ _ _ _ _ Hla).
  destruct (TxTable.nextNonceOf (readyTxTable (addAll svc calls emptyPools)) (pubKey r))
    as [m|] eqn:Em; [|lia].
  apply nextNonceOf_Some in Em as [[x [Hx [Hpk Hn]]] _].
  assert (m - 1 + 1 < nonce r); [|lia].
  apply H2. apply in_map_iff. exists x. split; [|assumption].
  unfold keyOf. congruence.
Qed.

Lemma X6_witness :
  8 < nonce (mkTx (Some 3) alice 9 10 "nine").
Proof.
  apply (X6_future_nonces_lie_above_the_lowest_acceptable sampleService (fun _ => 5)
           [(5%nat, op 7 10 "seven"); (5%nat, op 6 10 "six");
            (5%nat, op 9 10 "nine"); (5%nat, op 5 10 "five")]
           (mkTx (Some 3) alice 9 10 "nine") 8
           (addAll sampleService
              [(5%nat, op 7 10 "seven"); (5%nat, op 6 10 "six");
               (5%nat, op 9 10 "nine"); (5%nat, op 5 10 "five")] emptyPools)).
  - simpl; lia.
  - intros tx. reflexivity.
  - intros fuel tx Hin. simpl in Hin.
    destruct Hin as [H|[H|[H|[H|[]]]]]; inversion H; simpl; lia.
  - vm_compute. tauto.
  - reflexivity.
Defined.

(** ** The calls come to an end *)

Section Termination.

Lemma lowest_is_free c pk s la s' :
  LowestAcceptableNonce c pk s = Returned la s' ->
  forall n, la <= n -> ~ In (pk, n) (map keyOf (TxTable.rows (readyTxTable s))).
Proof.
  intros Hla n Hn Hin. apply in_map_iff in Hin as [r [Hk Hr]].
  unfold keyOf in Hk. inversion Hk as [[Hpk Hnn]].
  apply LowestAcceptableNonce_Returned in Hla as [_ [[Hnone _]|[m [Hm Hla]]]].
  - apply (proj1 (nextNonceOf_None _ _) Hnone r Hr Hpk).
  - apply nextNonceOf_Some in Hm as [_ Hm]. specialize (Hm r Hr Hpk). lia.
Qed.

Lemma promiseAll_fulfilled k : promiseAll (repeat None k) = ret tt.
Proof. induction k; simpl; auto. Qed.

Lemma replaceReadyTx_finished svc fuel la tx s :
  (List.length (TxTable.rows (readyTxTable s)) < fuel)%nat ->
  finished (replaceReadyTx svc fuel la tx s).
Proof.
  intros Hfuel.
  destruct (TxTable.find (readyTxTable s) (pubKey tx) (nonce tx)) as [existing|] eqn:Ef.
  - destruct (isRewardBetter tx existing) eqn:Eb.
    + rewrite (replaceReadyTx_better _ _ _ _ _ _ Ef Eb). cbv zeta.
      destruct (la - 1 =? nonce tx); [exact I|].
      set (s1 := mkPools (reinsert (readyTxTable s) tx) (futureTxTable s)).
      assert (Hp : (pending (readyTxTable s1) (pubKey tx) (nonce tx) < fuel)%nat).
      { unfold pending, s1; cbn [readyTxTable].
        rewrite (reinsertAll_pending [tx] (readyTxTable s)).
        - pose proof (filter_length_le (isAfter (pubKey tx) (nonce tx))
                        (TxTable.rows (readyTxTable s))). lia.
        - intros p [<-|[]]; lia. }
      destruct (replaceFollowups_spec svc (pubKey tx) fuel (nonce tx) [None; None] s1 Hp)
        as [redone [Hrun _]].
      rewrite (bind_Returned _ _ _ _ _ Hrun).
      change ([None; None] ++ repeat None (2 * List.length redone))
        with (repeat (@None Exn) (2 + 2 * List.length redone)).
      rewrite promiseAll_fulfilled. exact I.
    + unfold replaceReadyTx, bind at 1, Ready.read. rewrite Ef, Eb. exact I.
  - unfold replaceReadyTx, bind at 1, Ready.read. rewrite Ef. exact I.
Qed.

End Termination.

(** X7.  With a positive page size, one record per key in the future table
    and a loop budget above the size of the ready table and above the number
    of future records of the account, [add] comes to an end: it returns or
    throws, whatever the transaction and the answer of the wallet service. *)
Theorem X7_add_comes_to_an_end svc fuel tx s :
  (1 <= txQueryLimit svc)%nat ->
  NoDup (map keyOf (TxTable.rows (futureTxTable s))) ->
  (List.length (TxTable.rows (readyTxTable s)) < fuel)%nat ->
  (countOf (futureTxTable s) (pubKey tx) < fuel)%nat ->
  finished (add svc fuel tx s).
Proof.
  intros Hlim Hnd Hready Hfuture. unfold add.
  destruct (checkTx svc tx) as [failures c].
  destruct (Nat.ltb 0 (List.length failures)); [exact I|].
  unfold bind at 1.
  destruct (LowestAcceptableNonce c (pubKey tx) s) as [la s1|e s1|s1] eqn:Ela;
    [|exact I|].
  2:{ unfold LowestAcceptableNonce, bind, Ready.read in Ela.
      destruct (_ <? c); [discriminate|].
      destruct (TxTable.nextNonceOf _ _); discriminate. }
  pose proof (lowest_is_free _ _ _ _ _ Ela) as Hfree.
  apply LowestAcceptableNonce_Returned in Ela as [-> _].
  destruct (nonce tx <? la); [now apply replaceReadyTx_finished|].
  destruct (Z.eqb_spec la (nonce tx)) as [Heq|Hne].
  - unfold bind at 1, bind at 1, Ready.add. rewrite add_one.
    destruct (TxTable.insert (readyTxTable s) tx) as [R1|] eqn:Eins; [|exact I].
    pose proof (add_Some_keys [tx] _ _ (eq_trans (add_one _ _) Eins)) as Hk.
    simpl in Hk.
    destruct (tryMoveFutureTxs_spec svc (pubKey tx) Hlim fuel (la + 1)
                (mkPools R1 (futureTxTable s)))
      as [floor' [promoted [R' [F' [Hrun _]]]]]; auto.
    + cbn [readyTxTable]. intros n Hn. rewrite Hk, in_app_iff.
      intros [H|[H|[]]].
      * apply (Hfree n); [lia | assumption].
      * inversion H; lia.
    + rewrite Hrun. exact I.
  - destruct (ensureFutureTxSpace_result svc s) as [s1 [Hrun _]].
    unfold bind at 1. rewrite (bind_Returned _ _ _ _ _ Hrun).
    unfold Future.add. destruct (TxTable.add _ _); exact I.
Qed.

Lemma X7_witness : finished (add sampleService 4 (op 8 10 "eight") gapPools).
Proof.
  apply X7_add_comes_to_an_end.
  - simpl; lia.
  - vm_compute. repeat constructor; simpl; intuition discriminate.
  - vm_compute; lia.
  - vm_compute; lia.
Defined.

(** X8.  With a page size of 0 the promotion loop never ends: a valid
    transaction at the lowest acceptable nonce of its account, that nonce
    being a number ethers converts ([safeNumber]), is stored in
    the ready table, and then the call is still running when its loop
    budget is used up, whatever the budget; the future table is as it
    was. *)
Theorem X8_page_size_zero_never_finishes svc fuel tx s la :
  safeNumber (nonce tx) ->
  txQueryLimit svc = 0%nat ->
  fst (checkTx svc tx) = [] ->
  LowestAcceptableNonce (snd (checkTx svc tx)) (pubKey tx) s = Returned la s ->
  nonce tx = la ->
  exists s',
    add svc fuel tx s = Running s' /\
    TxTable.insert (readyTxTable s) tx = Some (readyTxTable s') /\
    inReady s' tx /\
    futureTxTable s' = futureTxTable s.
Proof.
  intros _ Hlim Hok Hla Hn. unfold add.
  destruct (checkTx svc tx) as [failures c]; simpl in Hok, Hla; subst failures.
  cbn [List.length Nat.ltb Nat.leb].
  rewrite (bind_Returned _ _ _ _ _ Hla).
  rewrite <- Hn, Z.ltb_irrefl, Z.eqb_refl.
  destruct (add_fresh [tx] (readyTxTable s)) as [R1 HR1].
  { repeat constructor. simpl; tauto. }
  { intros x [<-|[]]. apply (lowest_is_free _ _ _ _ _ Hla). lia. }
  unfold bind at 1, bind at 1, Ready.add. rewrite HR1.
  rewrite tryMoveFutureTxs_page_size_zero by assumption.
  exists (mkPools R1 (futureTxTable s)). split; [reflexivity|].
  rewrite add_one in HR1. split; [exact HR1|]. split; [|reflexivity].
  exists (TxTable.serial (readyTxTable s)). cbn [readyTxTable].
  apply (insert_Some_In _ _ _ _ HR1). now right.
Qed.

Lemma X8_witness :
  exists s',
    add noPageService 100 (op 5 10 "five") emptyPools = Running s' /\
    TxTable.insert (readyTxTable emptyPools) (op 5 10 "five") = Some (readyTxTable s') /\
    inReady s' (op 5 10 "five") /\
    futureTxTable s' = futureTxTable emptyPools.
Proof.
  apply (X8_page_size_zero_never_finishes noPageService 100 (op 5 10 "five")
           emptyPools 5);
    [unfold safeNumber, MAX_SAFE; simpl; lia
    | reflexivity | reflexivity | reflexivity | reflexivity].
Defined.

(** X9.  When [LowestAcceptableNonce] returns, it has left the pools as they
    were and its result is the least nonce that is at or above the chain
    nonce and above every ready nonce of the account. *)
Theorem X9_LowestAcceptableNonce_is_the_least_free_nonce c pk s la s' :
  LowestAcceptableNonce c pk s = Returned la s' ->
  s' = s /\
  c <= la /\
  (forall r, In r (TxTable.rows (readyTxTable s)) -> pubKey r = pk -> nonce r < la) /\
  (forall b, c <= b ->
     (forall r, In r (TxTable.rows (readyTxTable s)) -> pubKey r = pk -> nonce r < b) ->
     la <= b).
Proof.
  intros Hla.
  apply LowestAcceptableNonce_Returned in Hla as [-> [[Hnone [_ ->]]|[m [Hm ->]]]].
  - split; [reflexivity|]. split; [lia|]. split.
    + intros r Hr Hpk. exfalso.
      exact (proj1 (nextNonceOf_None _ _) Hnone r Hr Hpk).
    + intros b Hb _. exact Hb.
  - apply nextNonceOf_Some in Hm as [[x [Hx [Hxpk Hxn]]] Hall].
    split; [reflexivity|]. split; [lia|]. split.
    + intros r Hr Hpk. specialize (Hall r Hr Hpk). lia.
    + intros b Hb Hbound. specialize (Hbound x Hx Hxpk). lia.
Qed.

Lemma X9_witness :
  samplePools = samplePools /\
  5 <= 8 /\
  (forall r, In r (TxTable.rows (readyTxTable samplePools)) -> pubKey r = alice ->
     nonce r < 8) /\
  (forall b, 5 <= b ->
     (forall r, In r (TxTable.rows (readyTxTable samplePools)) -> pubKey r = alice ->
        nonce r < b) ->
     8 <= b).
Proof.
  apply (X9_LowestAcceptableNonce_is_the_least_free_nonce 5 alice samplePools 8
           samplePools).
  reflexivity.
Defined.

(** ** The future table of the other accounts *)

Section FutureOfOthers.

Variable svc : TxService.
Variable pk : string.
Variable P : TxTable.t -> Prop.

Hypothesis P_remove : forall tb txs,
  recordsOf pk txs -> P tb -> P (TxTable.remove tb txs).

(** The promotion removes future records of its account only. *)
Lemma tryMoveFutureTxs_future_account fuel : forall n,
  preserves (fun s => P (futureTxTable s)) (tryMoveFutureTxs svc fuel pk n).
Proof.
  induction fuel as [|fuel IH]; intros n; simpl.
  - intros s H; exact H.
  - apply preserves_Future_read_bind. intros tb.
    destruct (scanFutureTxs_members
                (TxTable.pubKeyTxsInNonceOrder tb pk (txQueryLimit svc)) n [] [])
      as [n' [removed [promoted [Hscan [H1 H2]]]]].
    rewrite Hscan. simpl app.
    apply preserves_bind; [apply (Ready_add_keeps_future P)|].
    intros _. apply preserves_bind.
    { intros s H. simpl. apply P_remove; [|assumption].
      intros x Hx. apply H1 in Hx. now apply pubKeyTxsInNonceOrder_In in Hx. }
    intros _. apply preserves_if; [apply IH | apply preserves_ret].
Qed.

End FutureOfOthers.

(** X10.  A transaction at or below the lowest acceptable nonce of its
    account never costs another account a future record: however the call
    ends, the future table holds for every other account exactly the
    records it held before. *)
Theorem X10_only_the_future_branch_touches_other_accounts svc fuel tx s la r :
  LowestAcceptableNonce (snd (checkTx svc tx)) (pubKey tx) s = Returned la s ->
  nonce tx <= la ->
  pubKey r <> pubKey tx ->
  (In r (TxTable.rows (futureTxTable (poolsOf (add svc fuel tx s)))) <->
   In r (TxTable.rows (futureTxTable s))).
Proof.
  intros Hla Hle Hr.
  assert (H : othersAsIn (pubKey tx) (futureTxTable s)
                (futureTxTable (poolsOf (add svc fuel tx s)))).
  { assert (H0 : othersAsIn (pubKey tx) (futureTxTable s) (futureTxTable s))
      by (intros x _; reflexivity).
    unfold add. destruct (checkTx svc tx) as [failures c]. simpl in Hla.
    destruct (Nat.ltb 0 (List.length failures)); [exact H0|].
    rewrite (bind_Returned _ _ _ _ _ Hla).
    destruct (Z.ltb_spec (nonce tx) la) as [Hlt|Hge].
    - now apply (replaceReadyTx_keeps_future svc
                   (othersAsIn (pubKey tx) (futureTxTable s))).
    - replace (la =? nonce tx) with true by (symmetry; apply Z.eqb_eq; lia).
      rewrite poolsOf_bind_pure by reflexivity.
      apply (preserves_bind
               (fun s' => othersAsIn (pubKey tx) (futureTxTable s) (futureTxTable s')));
        [| |exact H0].
      + apply (Ready_add_keeps_future (othersAsIn (pubKey tx) (futureTxTable s))).
      + intros _. apply tryMoveFutureTxs_future_account.
        intros tb txs. apply othersAsIn_remove. }
  exact (H r Hr).
Qed.

Lemma X10_witness :
  In (mkTx (Some 2) bob 7 10 "b7")
     (TxTable.rows (futureTxTable
        (poolsOf (add roomyService 3 (op 5 10 "a5") crowdedPools)))) <->
  In (mkTx (Some 2) bob 7 10 "b7") (TxTable.rows (futureTxTable crowdedPools)).
Proof.
  apply (X10_only_the_future_branch_touches_other_accounts roomyService 3
           (op 5 10 "a5") crowdedPools 5 (mkTx (Some 2) bob 7 10 "b7")).
  - reflexivity.
  - simpl; lia.
  - simpl; discriminate.
Defined.

(** X11.  The room for a future transaction is made before the insert is
    tried.  When the future table is full and still holds, after the
    eviction, a record at the account and nonce of a valid transaction above
    the lowest acceptable nonce, [add] throws the duplicate-key error of the
    table and the eviction stays: the oldest future record is gone, the
    ready table is as it was. *)
Theorem X11_refused_future_insert_keeps_the_eviction svc fuel tx s la f r :
  fst (checkTx svc tx) = [] ->
  LowestAcceptableNonce (snd (checkTx svc tx)) (pubKey tx) s = Returned la s ->
  la < nonce tx ->
  maxFutureTxs svc <= TxTable.count (futureTxTable s) ->
  TxTable.First (futureTxTable s) = Some f ->
  In r (TxTable.rows (futureTxTable s)) ->
  pubKey r = pubKey tx -> nonce r = nonce tx ->
  idOf f + (TxTable.count (futureTxTable s) - maxFutureTxs svc + 1) <= idOf r ->
  exists s',
    add svc fuel tx s = Thrown DuplicateKey s' /\
    readyTxTable s' = readyTxTable s /\
    ~ In f (TxTable.rows (futureTxTable s')) /\
    In r (TxTable.rows (futureTxTable s')) /\
    TxTable.count (futureTxTable s') < TxTable.count (futureTxTable s).
Proof.
  intros Hok Hla Hgt Hfull Hfirst Hr Hpk Hn Hid. unfold add.
  destruct (checkTx svc tx) as [failures c]; simpl in Hok, Hla; subst failures.
  cbn [List.length Nat.ltb Nat.leb].
  rewrite (bind_Returned _ _ _ _ _ Hla).
  replace (nonce tx <? la) with false by (symmetry; apply Z.ltb_ge; lia).
  replace (la =? nonce tx) with false by (symmetry; apply Z.eqb_neq; lia).
  set (i := idOf f + (TxTable.count (futureTxTable s) - maxFutureTxs svc + 1)) in *.
  unfold bind at 1, bind at 1.
  rewrite (ensureFutureTxSpace_full svc s f Hfull Hfirst). fold i.
  assert (Hkept : In r (TxTable.rows (TxTable.clearBeforeId (futureTxTable s) i))).
  { unfold TxTable.clearBeforeId; simpl. apply filter_In. split; [assumption|].
    apply negb_true_iff, Z.ltb_ge. exact Hid. }
  unfold Future.add. cbn [readyTxTable futureTxTable]. rewrite add_one.
  destruct (TxTable.insert (TxTable.clearBeforeId (futureTxTable s) i) tx)
    as [F1|] eqn:Eins.
  { exfalso. apply insert_Some in Eins as [Hnone _].
    exact (find_None _ _ _ Hnone r Hkept Hpk Hn). }
  eexists. split; [reflexivity|]. cbn [readyTxTable futureTxTable].
  split; [reflexivity|].
  destruct (First_Some _ _ Hfirst) as [Hf _].
  split; [|split; [exact Hkept|]].
  - unfold TxTable.clearBeforeId; simpl. intros Hin.
    apply filter_In in Hin as [_ Hin].
    apply negb_true_iff, Z.ltb_ge in Hin. unfold i in Hin. lia.
  - unfold TxTable.count, TxTable.clearBeforeId; simpl.
    apply inj_lt. apply (filter_length_lt _ _ f Hf).
    apply negb_false_iff, Z.ltb_lt. unfold i, TxTable.count in *. lia.
Qed.

Lemma X11_witness :
  exists s',
    add tightService 1 (op 10 99 "again") crowdedPools = Thrown DuplicateKey s' /\
    readyTxTable s' = readyTxTable crowdedPools /\
    ~ In (mkTx (Some 1) alice 7 10 "a7") (TxTable.rows (futureTxTable s')) /\
    In (mkTx (Some 5) alice 10 10 "a10") (TxTable.rows (futureTxTable s')) /\
    TxTable.count (futureTxTable s') < TxTable.count (futureTxTable crowdedPools).
Proof.
  apply (X11_refused_future_insert_keeps_the_eviction tightService 1
           (op 10 99 "again") crowdedPools 5
           (mkTx (Some 1) alice 7 10 "a7") (mkTx (Some 5) alice 10 10 "a10")).
  - reflexivity.
  - reflexivity.
  - simpl; lia.
  - vm_compute; discriminate.
  - reflexivity.
  - vm_compute; tauto.
  - reflexivity.
  - reflexivity.
  - vm_compute; discriminate.
Defined.

(** X12.  At the cap exactly, with one id per future record,
    [ensureFutureTxSpace] deletes the oldest future record and nothing
    else, and leaves the ready table alone. *)
Theorem X12_ensureFutureTxSpace_at_the_cap_drops_the_oldest svc s f :
  TxTable.count (futureTxTable s) = maxFutureTxs svc ->
  NoDup (map idOf (TxTable.rows (futureTxTable s))) ->
  TxTable.First (futureTxTable s) = Some f ->
  exists s',
    ensureFutureTxSpace svc s = Returned tt s' /\
    readyTxTable s' = readyTxTable s /\
    TxTable.rows (futureTxTable s') =
      filter (fun r => negb (idOf r =? idOf f)) (TxTable.rows (futureTxTable s)) /\
    TxTable.count (futureTxTable s') = maxFutureTxs svc - 1.
Proof. apply ensureFutureTxSpace_at_cap. Qed.

Lemma X12_witness :
  exists s',
    ensureFutureTxSpace sampleService crowdedPools = Returned tt s' /\
    readyTxTable s' = readyTxTable crowdedPools /\
    TxTable.rows (futureTxTable s') =
      filter (fun r => negb (idOf r =? idOf (mkTx (Some 1) alice 7 10 "a7")))
        (TxTable.rows (futureTxTable crowdedPools)) /\
    TxTable.count (futureTxTable s') = maxFutureTxs sampleService - 1.
Proof.
  apply (X12_ensureFutureTxSpace_at_the_cap_drops_the_oldest sampleService
           crowdedPools (mkTx (Some 1) alice 7 10 "a7")).
  - reflexivity.
  - vm_compute. repeat constructor; simpl; intuition discriminate.
  - reflexivity.
Defined.

(** ** The key registry of the verification gateway *)

Section Registry.

Import VG.

Lemma upd_same {V} (m : Z -> V) k v : upd m k v k = v.
Proof. unfold upd. now rewrite Z.eqb_refl. Qed.

Lemma upd_other {V} (m : Z -> V) k v x : x <> k -> upd m k v x = m x.
Proof. unfold upd. intros H. apply Z.eqb_neq in H. now rewrite H. Qed.

Lemma updateWalletHashMappings_backed st h w k :
  backed st -> backed (updateWalletHashMappings st h w k).
Proof.
  intros Hb h'. unfold updateWalletHashMappings; cbn [walletFromHash hashFromWallet].
  unfold upd. destruct (Z.eqb_spec h' h) as [->|Hh].
  - intros _. now rewrite Z.eqb_refl.
  - destruct (Z.eqb_spec h' (hashFromWallet st w)) as [->|Hold];
      [intros H; now elim H|].
    intros Hw.
    destruct (Z.eqb_spec (walletFromHash st h') w) as [E|E].
    + exfalso. apply Hold. rewrite <- E. symmetry. now apply Hb.
    + now apply Hb.
Qed.

Lemma safeSetWallet_backed env st sig k w st' :
  backed st -> safeSetWallet env st sig k w = Ok st' -> backed st'.
Proof.
  intros Hb. unfold safeSetWallet. destruct (verifySingle _ _ _ _); [|discriminate].
  intros H; inversion H. now apply updateWalletHashMappings_backed.
Qed.

Lemma call_backed env c st st' : backed st -> call env c st = Ok st' -> backed st'.
Proof.
  intros Hb. destruct c as [sender t sig k|sender t]; simpl.
  - unfold setBLSKeyForWallet. destruct (isZeroBLSKey _ _); [discriminate|].
    destruct (hashFromWallet st sender =? 0); [now apply safeSetWallet_backed|].
    destruct (2 ^ 256 <=? t + 604800); [discriminate|].
    intros H; inversion H. exact Hb.
  - unfold setPendingBLSKeyForWallet.
    destruct (hashFromWallet st sender =? 0); [discriminate|].
    destruct (_ && _); [|intros H; inversion H; now subst].
    destruct (safeSetWallet env st _ _ sender) as [st1|] eqn:E; [|discriminate].
    apply (safeSetWallet_backed _ _ _ _ _ _ Hb) in E.
    intros H; inversion H. exact E.
Qed.

Lemma backed_initial : backed initial.
Proof. intros h H. now elim H. Qed.

Lemma safeSetWallet_sets env st sig key w :
  verifySingle (blsLib env) sig key
    (hashToPoint (blsLib env) BLS_DOMAIN (encodePacked_address w)) = true ->
  safeSetWallet env st sig key w =
  Ok (updateWalletHashMappings (emit (BLSKeySetForWallet key w) st)
        (keccak256 env (encodePacked_key key)) w key).
Proof. intros H. unfold safeSetWallet. now rewrite H. Qed.

End Registry.

(** X13.  Whatever the wallets call, in whatever order, and whatever the
    library answers: if every hash that names a wallet was the hash recorded
    for that wallet, it is so after the calls. *)
Theorem X13_registry_hashes_stay_backed env cs st :
  VG.backed st -> VG.backed (VG.calls env cs st).
Proof.
  revert st. induction cs as [|c cs IH]; intros st Hb; simpl; [assumption|].
  apply IH. destruct (VG.call env c st) as [st'|] eqn:E; [|assumption].
  now apply (call_backed env c st).
Qed.

Lemma X13_witness :
  VG.backed VG.initial /\
  VG.backed
    (VG.calls VG.sampleEnv
       [ VG.SetBLSKeyForWallet 200 1000 (11, 11) VG.key1;
         VG.SetBLSKeyForWallet 200 2000 (12, 12) VG.key2;
         VG.SetPendingBLSKeyForWallet 200 700000 ]
       VG.initial).
Proof.
  assert (H : VG.backed VG.initial) by (intros h Hh; now elim Hh).
  split; [exact H|]. apply X13_registry_hashes_stay_backed. exact H.
Defined.

(** X14.  A wallet without a registered key gets one at once: with a key
    the library does not take for zero and a signature it verifies for the
    address of the wallet, [setBLSKeyForWallet] maps the hash of the key to
    the wallet and back, stores the key, and emits [BLSKeySetForWallet];
    and, the hash not being zero, [isValidSignature] called by the wallet
    then checks 64-byte signatures against that key. *)
Theorem X14_first_registration_is_immediate env sender timestamp st sig key :
  VG.isZeroBLSKey (VG.blsLib env) key = false ->
  VG.hashFromWallet st sender = 0 ->
  VG.verifySingle (VG.blsLib env) sig key
    (VG.hashToPoint (VG.blsLib env) VG.BLS_DOMAIN (VG.encodePacked_address sender))
    = true ->
  exists st',
    VG.setBLSKeyForWallet env sender timestamp st sig key = VG.Ok st' /\
    VG.walletFromHash st' (VG.keccak256 env (VG.encodePacked_key key)) = sender /\
    VG.hashFromWallet st' sender = VG.keccak256 env (VG.encodePacked_key key) /\
    VG.BLSPublicKeyFromHash st' (VG.keccak256 env (VG.encodePacked_key key)) = key /\
    VG.events st' = VG.events st ++ [VG.BLSKeySetForWallet key sender] /\
    (VG.keccak256 env (VG.encodePacked_key key) <> 0 ->
     forall hash signature, List.length signature = 64%nat ->
       VG.isValidSignature env sender st' hash signature =
       VG.Ok (VG.verifySingle (VG.blsLib env) (VG.decode_point signature) key
                (VG.hashToPoint (VG.blsLib env) VG.BLS_DOMAIN
                   (VG.encode_bytes32 hash)))).
Proof.
  intros Hkey Hnew Hsig. unfold VG.setBLSKeyForWallet.
  rewrite Hkey, Hnew. cbn [Z.eqb]. rewrite (safeSetWallet_sets _ _ _ _ _ Hsig).
  eexists. split; [reflexivity|].
  unfold VG.updateWalletHashMappings, VG.emit;
    cbn [VG.walletFromHash VG.hashFromWallet VG.BLSPublicKeyFromHash VG.events].
  rewrite !upd_same. repeat (split; [reflexivity|]).
  intros Hh hash signature Hlen. unfold VG.isValidSignature.
  cbn [VG.hashFromWallet VG.BLSPublicKeyFromHash]. rewrite !upd_same.
  apply Z.eqb_neq in Hh. rewrite Hh, Hlen. reflexivity.
Qed.

Lemma X14_witness :
  exists st',
    VG.setBLSKeyForWallet VG.sampleEnv 200 1000 VG.initial (11, 11) VG.key1 = VG.Ok st' /\
    VG.walletFromHash st' (VG.keccak256 VG.sampleEnv (VG.encodePacked_key VG.key1)) = 200 /\
    VG.hashFromWallet st' 200 = VG.keccak256 VG.sampleEnv (VG.encodePacked_key VG.key1) /\
    VG.BLSPublicKeyFromHash st' (VG.keccak256 VG.sampleEnv (VG.encodePacked_key VG.key1))
      = VG.key1 /\
    VG.events st' = VG.events VG.initial ++ [VG.BLSKeySetForWallet VG.key1 200] /\
    (VG.keccak256 VG.sampleEnv (VG.encodePacked_key VG.key1) <> 0 ->
     forall hash signature, List.length signature = 64%nat ->
       VG.isValidSignature VG.sampleEnv 200 st' hash signature =
       VG.Ok (VG.verifySingle (VG.blsLib VG.sampleEnv) (VG.decode_point signature)
                VG.key1
                (VG.hashToPoint (VG.blsLib VG.sampleEnv) VG.BLS_DOMAIN
                   (VG.encode_bytes32 hash)))).
Proof.
  apply (X14_first_registration_is_immediate VG.sampleEnv 200 1000 VG.initial
           (11, 11) VG.key1); reflexivity.
Defined.

(** X15.  A wallet with a registered key changes it in two steps a week
    apart.  [setBLSKeyForWallet] only records the new key, its signature
    (unchecked) and the time a week ahead, and leaves the three registry
    mappings alone.  Up to that time [setPendingBLSKeyForWallet] changes
    nothing.  After it, the recorded signature is checked at last: if the
    library rejects it the call reverts, and if it verifies, the wallet is
    registered under the hash of the new key, the entries of the old hash
    are zeroed (when the hashes differ) and so are the pending entries. *)
Theorem X15_key_change_waits_a_week env sender timestamp st sig key :
  VG.isZeroBLSKey (VG.blsLib env) key = false ->
  VG.hashFromWallet st sender <> 0 ->
  0 <= timestamp -> timestamp + 604800 < 2 ^ 256 ->
  exists st1,
    VG.setBLSKeyForWallet env sender timestamp st sig key = VG.Ok st1 /\
    VG.walletFromHash st1 = VG.walletFromHash st /\
    VG.hashFromWallet st1 = VG.hashFromWallet st /\
    VG.BLSPublicKeyFromHash st1 = VG.BLSPublicKeyFromHash st /\
    VG.pendingBLSPublicKeyTimeFromHash st1 (VG.hashFromWallet st sender)
      = timestamp + 604800 /\
    (forall later, later <= timestamp + 604800 ->
       VG.setPendingBLSKeyForWallet env sender later st1 = VG.Ok st1) /\
    (forall later, timestamp + 604800 < later ->
       if VG.verifySingle (VG.blsLib env) sig key
            (VG.hashToPoint (VG.blsLib env) VG.BLS_DOMAIN
               (VG.encodePacked_address sender))
       then
         exists st2,
           VG.setPendingBLSKeyForWallet env sender later st1 = VG.Ok st2 /\
           VG.walletFromHash st2 (VG.keccak256 env (VG.encodePacked_key key)) = sender /\
           VG.hashFromWallet st2 sender = VG.keccak256 env (VG.encodePacked_key key) /\
           VG.BLSPublicKeyFromHash st2 (VG.keccak256 env (VG.encodePacked_key key)) = key /\
           (VG.keccak256 env (VG.encodePacked_key key) <> VG.hashFromWallet st sender ->
            VG.walletFromHash st2 (VG.hashFromWallet st sender) = 0 /\
            VG.BLSPublicKeyFromHash st2 (VG.hashFromWallet st sender) = VG.zeroKey) /\
           VG.pendingBLSPublicKeyTimeFromHash st2 (VG.hashFromWallet st sender) = 0 /\
           VG.pendingBLSPublicKeyFromHash st2 (VG.hashFromWallet st sender) = VG.zeroKey /\
           VG.pendingMessageSenderSignatureFromHash st2 (VG.hashFromWallet st sender)
             = VG.zeroPoint
       else
         VG.setPendingBLSKeyForWallet env sender later st1
           = VG.Revert "VG: Sig not verified").
Proof.
  intros Hkey Hreg Ht Hmax. unfold VG.setBLSKeyForWallet.
  rewrite Hkey. set (h := VG.hashFromWallet st sender) in *.
  assert (Eh : (h =? 0) = false) by now apply Z.eqb_neq.
  rewrite Eh.
  replace (2 ^ 256 <=? timestamp + 604800) with false
    by (symmetry; apply Z.leb_gt; lia).
  eexists. split; [reflexivity|].
  repeat (split; [reflexivity|]).
  split; [apply upd_same|]. split.
  - intros later Hlater. unfold VG.setPendingBLSKeyForWallet, VG.emit.
    cbn [VG.hashFromWallet VG.pendingBLSPublicKeyTimeFromHash]. fold h.
    rewrite Eh, upd_same.
    replace (timestamp + 604800 <? later) with false
      by (symmetry; apply Z.ltb_ge; lia).
    now rewrite andb_false_r.
  - intros later Hlater.
    destruct (VG.verifySingle _ sig key _) eqn:Hsig.
    + unfold VG.setPendingBLSKeyForWallet, VG.emit.
      cbn [VG.hashFromWallet VG.pendingBLSPublicKeyTimeFromHash
           VG.pendingMessageSenderSignatureFromHash VG.pendingBLSPublicKeyFromHash].
      fold h. rewrite Eh, !upd_same.
      replace (timestamp + 604800 =? 0) with false
        by (symmetry; apply Z.eqb_neq; lia).
      replace (timestamp + 604800 <? later) with true
        by (symmetry; apply Z.ltb_lt; lia).
      cbn [negb andb]. rewrite (safeSetWallet_sets _ _ _ _ _ Hsig).
      eexists. split; [reflexivity|].
      unfold VG.updateWalletHashMappings, VG.emit;
        cbn [VG.walletFromHash VG.hashFromWallet VG.BLSPublicKeyFromHash
             VG.pendingBLSPublicKeyTimeFromHash VG.pendingBLSPublicKeyFromHash
             VG.pendingMessageSenderSignatureFromHash].
      fold h. rewrite !upd_same. repeat (split; [reflexivity|]).
      split; [|auto].
      intros Hdiff. unfold VG.upd. rewrite Z.eqb_refl.
      replace (h =? VG.keccak256 env (VG.encodePacked_key key)) with false
        by (symmetry; apply Z.eqb_neq; congruence).
      auto.
    + unfold VG.setPendingBLSKeyForWallet, VG.emit.
      cbn [VG.hashFromWallet VG.pendingBLSPublicKeyTimeFromHash
           VG.pendingMessageSenderSignatureFromHash VG.pendingBLSPublicKeyFromHash].
      fold h. rewrite Eh, !upd_same.
      replace (timestamp + 604800 =? 0) with false
        by (symmetry; apply Z.eqb_neq; lia).
      replace (timestamp + 604800 <? later) with true
        by (symmetry; apply Z.ltb_lt; lia).
      cbn [negb andb]. unfold VG.safeSetWallet. now rewrite Hsig.
Qed.

Lemma X15_witness :
  exists st1,
    VG.setBLSKeyForWallet VG.sampleEnv 200 2000 registeredState (12, 12) VG.key2
      = VG.Ok st1 /\
    VG.walletFromHash st1 = VG.walletFromHash registeredState /\
    (forall later, later <= 2000 + 604800 ->
       VG.setPendingBLSKeyForWallet VG.sampleEnv 200 later st1 = VG.Ok st1).
Proof.
  destruct (X15_key_change_waits_a_week VG.sampleEnv 200 2000 registeredState
              (12, 12) VG.key2) as [st1 [H1 [H2 [_ [_ [_ [H3 _]]]]]]].
  - reflexivity.
  - vm_compute; discriminate.
  - lia.
  - vm_compute; reflexivity.
  - exists st1. split; [exact H1|]. split; [exact H2 | exact H3].
Defined.

(** X16.  Registering a key that another wallet holds takes the key over and
    leaves the entry of the other wallet behind: the hash of the key now
    names the caller, while [hashFromWallet] records that hash for both
    wallets. *)
Theorem X16_registering_a_held_key_takes_it_over env sender other timestamp st sig key :
  VG.isZeroBLSKey (VG.blsLib env) key = false ->
  VG.hashFromWallet st sender = 0 ->
  VG.verifySingle (VG.blsLib env) sig key
    (VG.hashToPoint (VG.blsLib env) VG.BLS_DOMAIN (VG.encodePacked_address sender))
    = true ->
  VG.walletFromHash st (VG.keccak256 env (VG.encodePacked_key key)) = other ->
  VG.hashFromWallet st other = VG.keccak256 env (VG.encodePacked_key key) ->
  other <> sender ->
  exists st',
    VG.setBLSKeyForWallet env sender timestamp st sig key = VG.Ok st' /\
    VG.walletFromHash st' (VG.keccak256 env (VG.encodePacked_key key)) = sender /\
    VG.hashFromWallet st' sender = VG.keccak256 env (VG.encodePacked_key key) /\
    VG.hashFromWallet st' other = VG.keccak256 env (VG.encodePacked_key key).
Proof.
  intros Hkey Hnew Hsig Hheld Hback Hother. unfold VG.setBLSKeyForWallet.
  rewrite Hkey, Hnew. cbn [Z.eqb]. rewrite (safeSetWallet_sets _ _ _ _ _ Hsig).
  eexists. split; [reflexivity|].
  unfold VG.updateWalletHashMappings, VG.emit;
    cbn [VG.walletFromHash VG.hashFromWallet].
  rewrite !upd_same. repeat (split; [reflexivity|]).
  now rewrite upd_other.
Qed.

Lemma X16_witness :
  exists st',
    VG.setBLSKeyForWallet VG.sampleEnv 300 5000 registeredState (11, 11) VG.key1
      = VG.Ok st' /\
    VG.walletFromHash st' (VG.keccak256 VG.sampleEnv (VG.encodePacked_key VG.key1)) = 300 /\
    VG.hashFromWallet st' 300 = VG.keccak256 VG.sampleEnv (VG.encodePacked_key VG.key1) /\
    VG.hashFromWallet st' 200 = VG.keccak256 VG.sampleEnv (VG.encodePacked_key VG.key1).
Proof.
  apply (X16_registering_a_held_key_takes_it_over VG.sampleEnv 300 200 5000
           registeredState (11, 11) VG.key1).
  - reflexivity.
  - reflexivity.
  - reflexivity.
  - vm_compute; reflexivity.
  - vm_compute; reflexivity.
  - discriminate.
Defined.
